(** * Kevo storage engine: write-ahead log, memtable and recovery

    A shallow embedding of the WAL writer ([pkg/wal]), the memtable
    ([pkg/memtable]) and WAL recovery ([pkg/memtable/recovery.go]) of the
    Kevo key/value store, with the properties its specification states
    about them. *)

From Stdlib Require Import ZArith List Lia Bool Sorted.
From Stdlib Require Strings.String.
From coqutil Require Import Byte Word.LittleEndianList.
Import ListNotations String.StringSyntax.
Local Open Scope Z_scope.
Bind Scope string_scope with String.string.

(** ** Go values *)

(** A Go [[]byte]: [None] is the nil slice, [Some l] a non-nil slice with
    contents [l]. *)
Definition slice := option (list byte).

Definition data (s : slice) : list byte :=
  match s with
  | None => []
  | Some l => l
  end.

Definition blen (l : list byte) : Z := Z.of_nat (length l).

(** Go's [len] on a byte slice. *)
Definition len (s : slice) : Z := blen (data s).

Definition MaxUint64 : Z := 2 ^ 64 - 1.

(** Unsigned 64-bit and signed 64-bit wrap-around. *)
Definition u64 (z : Z) : Z := z mod 2 ^ 64.
Definition i64 (z : Z) : Z := (z + 2 ^ 63) mod 2 ^ 64 - 2 ^ 63.

(** Go's builtin-shadowing [min] of [wal.go]. *)
Definition min (a b : Z) : Z := if a <? b then a else b.

(** ** hash/crc32: the IEEE checksum *)

Module crc32.

(** Reflected IEEE polynomial. *)
Definition IEEE : Z := 0xedb88320.

Definition step_bit (c : Z) : Z :=
  if Z.testbit c 0 then Z.lxor (Z.shiftr c 1) IEEE else Z.shiftr c 1.

Definition step_byte (c : Z) (b : byte) : Z :=
  Nat.iter 8 step_bit (Z.lxor c (byte.unsigned b)).

Definition ChecksumIEEE (p : list byte) : Z :=
  Z.lxor (fold_left step_byte p 0xffffffff) 0xffffffff.

End crc32.

(** ** Errors *)

Inductive error : Type :=
| ErrCorruptRecord
| ErrInvalidRecordType
| ErrInvalidOpType
| ErrWALClosed
| ErrWALRotating
| ErrWALFull
| ErrSequenceOverflow
| ErrIO                                     (* an error of the operating system *)
| Errorf (msg : String.string)              (* fmt.Errorf / errors.New *)
| Wrap (msg : String.string) (cause : error)  (* fmt.Errorf with a %w operand *)
| PanicIndexOutOfRange.                     (* Go runtime panic *)

(** ** os.File and bufio.Writer

    The file is a byte sequence together with a script of the outcomes
    of the system calls still to come ([true]: the call fails; an
    exhausted script means every later call succeeds).  A failing write
    writes nothing. *)

Record File : Type := mkFile {
  fdata : list byte;
  fclosed : bool;
  faults : list bool
}.

Definition next_fault (f : File) : bool * File :=
  match faults f with
  | [] => (false, f)
  | b :: rest => (b, mkFile (fdata f) (fclosed f) rest)
  end.

Definition file_Write (p : list byte) (f : File) : File * option error :=
  if fclosed f then (f, Some ErrIO)
  else
    let (bad, f') := next_fault f in
    if bad then (f', Some ErrIO)
    else (mkFile (fdata f' ++ p) (fclosed f') (faults f'), None).

Definition file_Sync (f : File) : File * option error :=
  if fclosed f then (f, Some ErrIO)
  else
    let (bad, f') := next_fault f in
    if bad then (f', Some ErrIO) else (f', None).

Definition file_Close (f : File) : File * option error :=
  if fclosed f then (f, Some ErrIO)
  else
    let (bad, f') := next_fault f in
    (mkFile (fdata f') true (faults f'), if bad then Some ErrIO else None).

(** [bufio.Writer]: the buffered bytes, the buffer capacity and the sticky
    error. The underlying file is the WAL's own [file] field, so every
    operation takes and returns it. *)
Record Writer : Type := mkWriter {
  wbuf : list byte;
  wsize : Z;
  werr : option error
}.

Module bufio.

Definition defaultBufSize : Z := 4096.

Definition NewWriterSize (size : Z) : Writer :=
  mkWriter [] (if size <=? 0 then defaultBufSize else size) None.

Definition Size (b : Writer) : Z := wsize b.
Definition Buffered (b : Writer) : Z := blen (wbuf b).
Definition Available (b : Writer) : Z := wsize b - blen (wbuf b).

Definition Flush (b : Writer) (f : File) : Writer * File * option error :=
  match werr b with
  | Some e => (b, f, Some e)
  | None =>
      match wbuf b with
      | [] => (b, f, None)
      | _ =>
          match file_Write (wbuf b) f with
          | (f', Some e) => (mkWriter (wbuf b) (wsize b) (Some e), f', Some e)
          | (f', None) => (mkWriter [] (wsize b) None, f', None)
          end
      end
  end.

(** One turn of the loop of [Write]: taken while [len(p) > Available()]
    and no error is pending. *)
Definition Write_turn (p : list byte) (b : Writer) (f : File)
  : list byte * Writer * File :=
  if Buffered b =? 0 then
    (* large write, empty buffer: straight to the file *)
    match file_Write p f with
    | (f', Some e) => (p, mkWriter (wbuf b) (wsize b) (Some e), f')
    | (f', None) => ([], b, f')
    end
  else
    let n := Z.to_nat (Available b) in
    let b1 := mkWriter (wbuf b ++ firstn n p) (wsize b) (werr b) in
    let '(b2, f2, _) := Flush b1 f in
    (skipn n p, b2, f2).

Fixpoint Write_loop (turns : nat) (p : list byte) (b : Writer) (f : File)
  : list byte * Writer * File :=
  match turns with
  | O => (p, b, f)
  | S k =>
      if (blen p >? Available b) && (match werr b with None => true | _ => false end)
      then let '(p', b', f') := Write_turn p b f in Write_loop k p' b' f'
      else (p, b, f)
  end.

(** [Write]. The loop runs at most twice (fill and flush, then either
    the rest fits or goes straight to the file); a third turn is never
    taken. *)
Definition Write (p : list byte) (b : Writer) (f : File)
  : Writer * File * option error :=
  let '(p', b', f') := Write_loop 3 p b f in
  match werr b' with
  | Some e => (b', f', Some e)
  | None => (mkWriter (wbuf b' ++ p') (wsize b') None, f', None)
  end.

End bufio.

(** ** pkg/wal: constants and types *)

Definition RecordTypeFull : byte := Byte.x01.
Definition RecordTypeFirst : byte := Byte.x02.
Definition RecordTypeMiddle : byte := Byte.x03.
Definition RecordTypeLast : byte := Byte.x04.

Definition OpTypePut : byte := Byte.x01.
Definition OpTypeDelete : byte := Byte.x02.
Definition OpTypeMerge : byte := Byte.x03.

Definition HeaderSize : Z := 7.
Definition MaxRecordSize : Z := 32 * 1024.
Arguments MaxRecordSize : simpl never.

Definition MaxSequenceNumber : Z := MaxUint64 - 1000000.
Definition SequenceWarningThreshold : Z := MaxUint64 - 10000000.

Inductive WALStatus : Type :=
| WALStatusActive
| WALStatusRotating
| WALStatusClosed.

(** The part of [config.Config] the WAL and recovery read. *)
Module config.

Inductive SyncMode : Type := SyncNone | SyncBatch | SyncImmediate.

Record Config : Type := mkConfig {
  WALSyncMode : SyncMode;
  WALSyncBytes : Z;
  MemTableSize : Z;
  MaxMemTables : Z
}.

End config.
Import config.

(** [Entry]; [Type_] is the source's field [Type]. *)
Record Entry : Type := mkEntry {
  SequenceNumber : Z;
  Type_ : byte;
  Key : slice;
  Value : slice
}.

(** What the notify functions hand to every registered observer. *)
Inductive Notification : Type :=
| OnWALEntryWritten (e : Entry)
| OnWALBatchWritten (startSeq : Z) (entries : list Entry)
| OnWALSync (upToSeq : Z).

(** [WAL]. [lastSync], the mutexes and the observer registry are left
    out; [warnings] lists the arguments of the calls of [log.Warn] and
    [observed] the observer notifications, oldest first. *)
Record WAL : Type := mkWAL {
  cfg : Config;
  file : File;
  writer : Writer;
  nextSequence : Z;
  bytesWritten : Z;
  batchByteSize : Z;
  status : WALStatus;
  overflowWarning : bool;
  warnings : list Z;
  observed : list Notification
}.

Definition set_io (b : Writer) (f : File) (w : WAL) : WAL :=
  mkWAL (cfg w) f b (nextSequence w) (bytesWritten w) (batchByteSize w)
        (status w) (overflowWarning w) (warnings w) (observed w).

Definition set_nextSequence (n : Z) (w : WAL) : WAL :=
  mkWAL (cfg w) (file w) (writer w) n (bytesWritten w) (batchByteSize w)
        (status w) (overflowWarning w) (warnings w) (observed w).

Definition add_bytes (n : Z) (w : WAL) : WAL :=
  mkWAL (cfg w) (file w) (writer w) (nextSequence w)
        (i64 (bytesWritten w + n)) (i64 (batchByteSize w + n))
        (status w) (overflowWarning w) (warnings w) (observed w).

Definition set_batchByteSize (n : Z) (w : WAL) : WAL :=
  mkWAL (cfg w) (file w) (writer w) (nextSequence w) (bytesWritten w) n
        (status w) (overflowWarning w) (warnings w) (observed w).

Definition set_status (s : WALStatus) (w : WAL) : WAL :=
  mkWAL (cfg w) (file w) (writer w) (nextSequence w) (bytesWritten w)
        (batchByteSize w) s (overflowWarning w) (warnings w) (observed w).

(** [w.overflowWarning = true; log.Warn(..., at)]. *)
Definition warn (at_ : Z) (w : WAL) : WAL :=
  mkWAL (cfg w) (file w) (writer w) (nextSequence w) (bytesWritten w)
        (batchByteSize w) (status w) true (warnings w ++ [at_]) (observed w).

Definition notify (n : Notification) (w : WAL) : WAL :=
  mkWAL (cfg w) (file w) (writer w) (nextSequence w) (bytesWritten w)
        (batchByteSize w) (status w) (overflowWarning w) (warnings w)
        (observed w ++ [n]).

(** ** The monad of WAL methods

    A method mutates the receiver and returns a value or an error; the
    mutations made before an error is returned stay. *)

Inductive result (A : Type) : Type :=
| Ok (a : A)
| Err (e : error).
Arguments Ok {A} a.
Arguments Err {A} e.

Definition M (A : Type) : Type := WAL -> WAL * result A.

Definition ret {A} (a : A) : M A := fun w => (w, Ok a).
Definition fail {A} (e : error) : M A := fun w => (w, Err e).
Definition bind {A B} (c : M A) (k : A -> M B) : M B :=
  fun w =>
    match c w with
    | (w', Ok a) => k a w'
    | (w', Err e) => (w', Err e)
    end.
Definition get : M WAL := fun w => (w, Ok w).
Definition modify (f : WAL -> WAL) : M unit := fun w => (f w, Ok tt).

(** [if err != nil { return fmt.Errorf("msg: %w", err) }] *)
Definition wrap {A} (msg : String.string) (c : M A) : M A :=
  fun w =>
    match c w with
    | (w', Ok a) => (w', Ok a)
    | (w', Err e) => (w', Err (Wrap msg e))
    end.

Declare Scope wal_scope.
Delimit Scope wal_scope with wal.
Notation "x <- c ;; k" := (bind c (fun x => k))
  (at level 61, c at next level, right associativity) : wal_scope.
Notation "c ;; k" := (bind c (fun _ => k))
  (at level 61, right associativity) : wal_scope.
Local Open Scope wal_scope.

Definition when_ (b : bool) (c : M unit) : M unit := if b then c else ret tt.

Definition writer_Write (p : list byte) : M unit :=
  fun w =>
    let '(b, f, e) := bufio.Write p (writer w) (file w) in
    (set_io b f w, match e with None => Ok tt | Some e => Err e end).

Definition writer_Flush : M unit :=
  fun w =>
    let '(b, f, e) := bufio.Flush (writer w) (file w) in
    (set_io b f w, match e with None => Ok tt | Some e => Err e end).

Definition file_op (op : File -> File * option error) : M unit :=
  fun w =>
    let '(f, e) := op (file w) in
    (set_io (writer w) f w, match e with None => Ok tt | Some e => Err e end).

(** The status check that opens every append. *)
Definition check_status : M unit :=
  w <- get ;;
  match status w with
  | WALStatusClosed => fail ErrWALClosed
  | WALStatusRotating => fail ErrWALRotating
  | WALStatusActive => ret tt
  end.

Definition valid_op (entryType : byte) : bool :=
  Byte.eqb entryType OpTypePut || Byte.eqb entryType OpTypeDelete
  || Byte.eqb entryType OpTypeMerge.

(** [type(1) + seq(8) + keylen(4) + key + [vallen(4) + val]] *)
Definition entrySize (entryType : byte) (key value : slice) : Z :=
  1 + 8 + 4 + len key
  + (if Byte.eqb entryType OpTypeDelete then 0 else 4 + len value).

(** ** pkg/wal: the writer *)

(** [writeRecordData]: header and payload go to the buffered writer, then
    the byte counters advance. *)
Definition writeRecordData (header payload : list byte) : M unit :=
  wrap "failed to write record header" (writer_Write header) ;;
  wrap "failed to write record payload" (writer_Write payload) ;;
  modify (add_bytes (blen header + blen payload)).

(** The 7-byte header: CRC (4, LE), length (2, LE), type (1). *)
Definition record_header (recordType : byte) (payload : list byte) : list byte :=
  le_split 4 (crc32.ChecksumIEEE payload)
  ++ le_split 2 (blen payload)
  ++ [recordType].

(** [writeRawRecord] *)
Definition writeRawRecord (recordType : byte) (payload : list byte) : M unit :=
  if blen payload >? MaxRecordSize then fail (Errorf "record too large")
  else writeRecordData (record_header recordType payload) payload.

(** The payload [writeRecord] builds. *)
Definition value_section (entryType : byte) (value : slice) : list byte :=
  if Byte.eqb entryType OpTypeDelete then []
  else le_split 4 (len value) ++ data value.

Definition entry_payload (entryType : byte) (seqNum : Z) (key value : slice)
  : list byte :=
  [entryType] ++ le_split 8 seqNum ++ le_split 4 (len key) ++ data key
  ++ value_section entryType value.

(** [writeRecord] *)
Definition writeRecord (recordType entryType : byte) (seqNum : Z)
           (key value : slice) : M unit :=
  if entrySize entryType key value >? MaxRecordSize
  then fail (Errorf "record too large")
  else writeRawRecord recordType (entry_payload entryType seqNum key value).

(** The loop of [writeFragmentedRecord] that writes the Middle fragments;
    it returns what is left for the Last one. Each turn removes
    [MaxRecordSize] bytes, so [length remaining] turns are enough. *)
Fixpoint write_middle (turns : nat) (remaining : list byte) : M (list byte) :=
  match turns with
  | O => ret remaining
  | S k =>
      if blen remaining >? MaxRecordSize then
        writeRawRecord RecordTypeMiddle (firstn (Z.to_nat MaxRecordSize) remaining) ;;
        write_middle k (skipn (Z.to_nat MaxRecordSize) remaining)
      else ret remaining
  end.

(** [writeFragmentedRecord] *)
Definition writeFragmentedRecord (entryType : byte) (seqNum : Z)
           (key value : slice) : M unit :=
  let headerSize := 1 + 8 + 4 in
  let maxKeyInFirst := MaxRecordSize - headerSize in
  let keyInFirst := min (len key) maxKeyInFirst in
  let firstFragment :=
    [entryType] ++ le_split 8 seqNum ++ le_split 4 (len key)
    ++ firstn (Z.to_nat keyInFirst) (data key) in
  writeRawRecord RecordTypeFirst firstFragment ;;
  let remaining :=
    (if keyInFirst <? len key then skipn (Z.to_nat keyInFirst) (data key) else [])
    ++ value_section entryType value in
  remaining <- write_middle (length remaining) remaining ;;
  when_ (blen remaining >? 0) (writeRawRecord RecordTypeLast remaining).

(** [syncLocked] *)
Definition syncLocked : M unit :=
  check_status ;;
  wrap "failed to flush WAL buffer" writer_Flush ;;
  wrap "failed to sync WAL file" (file_op file_Sync) ;;
  modify (set_batchByteSize 0) ;;
  w <- get ;;
  modify (notify (OnWALSync (u64 (nextSequence w - 1)))).

(** [maybeSync] *)
Definition maybeSync : M unit :=
  w <- get ;;
  let needSync :=
    match WALSyncMode (cfg w) with
    | SyncImmediate => true
    | SyncBatch => batchByteSize w >=? WALSyncBytes (cfg w)
    | SyncNone => false
    end in
  when_ needSync syncLocked.

(** [Sync] *)
Definition Sync : M unit := syncLocked.

(** The body shared by [Append] and [AppendWithSequence] once the
    sequence number is fixed: one Full record or a fragmented one, the
    observer notification, the sync. *)
Definition write_entry (entryType : byte) (seqNum : Z) (key value : slice)
  : M Z :=
  (if entrySize entryType key value <=? MaxRecordSize
   then writeRecord RecordTypeFull entryType seqNum key value
   else writeFragmentedRecord entryType seqNum key value) ;;
  modify (notify (OnWALEntryWritten (mkEntry seqNum entryType key value))) ;;
  maybeSync ;;
  ret seqNum.

(** [Append] *)
Definition Append (entryType : byte) (key value : slice) : M Z :=
  check_status ;;
  if negb (valid_op entryType) then fail ErrInvalidOpType else
  w <- get ;;
  if nextSequence w >=? MaxSequenceNumber then fail ErrSequenceOverflow else
  when_ ((nextSequence w >=? SequenceWarningThreshold)
         && negb (overflowWarning w))
        (modify (warn (nextSequence w))) ;;
  let seqNum := nextSequence w in
  modify (set_nextSequence (u64 (nextSequence w + 1))) ;;
  write_entry entryType seqNum key value.

(** [AppendWithSequence] *)
Definition AppendWithSequence (entryType : byte) (key value : slice)
           (sequenceNumber : Z) : M Z :=
  check_status ;;
  if negb (valid_op entryType) then fail ErrInvalidOpType else
  if sequenceNumber >=? MaxSequenceNumber then fail ErrSequenceOverflow else
  let seqNum := sequenceNumber in
  w <- get ;;
  when_ (seqNum >=? nextSequence w)
        (let newNextSeq := u64 (seqNum + 1) in
         when_ ((newNextSeq >=? SequenceWarningThreshold)
                && negb (overflowWarning w))
               (modify (warn newNextSeq)) ;;
         modify (set_nextSequence newNextSeq)) ;;
  write_entry entryType seqNum key value.

(** [AppendExactBytes] *)
Definition AppendExactBytes (rawBytes : slice) (seqNum : Z) : M Z :=
  check_status ;;
  if len rawBytes <? HeaderSize then fail (Errorf "raw WAL record too small") else
  let payloadSize := le_combine (firstn 2 (skipn 4 (data rawBytes))) in
  if negb (len rawBytes =? HeaderSize + payloadSize)
  then fail (Errorf "raw WAL record size mismatch") else
  w <- get ;;
  when_ (seqNum >=? nextSequence w)
        (modify (set_nextSequence (u64 (seqNum + 1)))) ;;
  let header := firstn (Z.to_nat HeaderSize) (data rawBytes) in
  let payload := skipn (Z.to_nat HeaderSize) (data rawBytes) in
  wrap "failed to write raw WAL record" (writeRecordData header payload) ;;
  match payload with
  | [] => fail PanicIndexOutOfRange          (* payload[0] *)
  | ty :: _ =>
      modify (notify (OnWALEntryWritten
                        (mkEntry seqNum ty (Some []) (Some [])))) ;;
      maybeSync ;;
      ret seqNum
  end.

(** The size computation at the head of the batch appends. *)
Definition batch_totalSize (entries : list Entry) : Z :=
  fold_left
    (fun totalSize entry =>
       totalSize + (HeaderSize + entrySize (Type_ entry) (Key entry) (Value entry)))
    entries 0.

(** Room is made in the buffer so that the batch is written without an
    intermediate flush. *)
Definition reserve_batch (totalSize : Z) : M unit :=
  w <- get ;;
  let currentBufferSize := bufio.Size (writer w) in
  let availableSpace := currentBufferSize - bufio.Buffered (writer w) in
  when_ (totalSize >? availableSpace)
        (wrap "failed to flush WAL buffer before batch" writer_Flush ;;
         when_ (totalSize >? currentBufferSize)
               (w' <- get ;;
                modify (set_io (bufio.NewWriterSize (totalSize + 1024)) (file w')))).

(** The loop writing every entry of a batch under one sequence number. *)
Fixpoint write_batch (startSeqNum : Z) (entries : list Entry) : M unit :=
  match entries with
  | [] => ret tt
  | entry :: rest =>
      wrap "failed to write entry"
           (writeRecord RecordTypeFull (Type_ entry) startSeqNum
                        (Key entry) (Value entry)) ;;
      write_batch startSeqNum rest
  end.

(** [AppendBatch] *)
Definition AppendBatch (entries : list Entry) : M Z :=
  check_status ;;
  w <- get ;;
  match entries with
  | [] => ret (nextSequence w)
  | _ =>
      if nextSequence w >=? MaxSequenceNumber then fail ErrSequenceOverflow else
      when_ ((nextSequence w >=? SequenceWarningThreshold)
             && negb (overflowWarning w))
            (modify (warn (nextSequence w))) ;;
      let startSeqNum := nextSequence w in
      reserve_batch (batch_totalSize entries) ;;
      write_batch startSeqNum entries ;;
      modify (set_nextSequence (u64 (startSeqNum + 1))) ;;
      modify (notify (OnWALBatchWritten startSeqNum entries)) ;;
      maybeSync ;;
      ret startSeqNum
  end.

(** [AppendBatchWithSequence] *)
Definition AppendBatchWithSequence (entries : list Entry) (startSequence : Z)
  : M Z :=
  check_status ;;
  match entries with
  | [] => ret startSequence
  | _ =>
      if startSequence >=? MaxSequenceNumber then fail ErrSequenceOverflow else
      w <- get ;;
      when_ ((startSequence >=? SequenceWarningThreshold)
             && negb (overflowWarning w))
            (modify (warn startSequence)) ;;
      let startSeqNum := startSequence in
      reserve_batch (batch_totalSize entries) ;;
      write_batch startSeqNum entries ;;
      let endSeq := u64 (startSeqNum + 1) in
      w' <- get ;;
      when_ (endSeq >? nextSequence w') (modify (set_nextSequence endSeq)) ;;
      modify (notify (OnWALBatchWritten startSeqNum entries)) ;;
      maybeSync ;;
      ret startSeqNum
  end.

(** [Close] *)
Definition Close : M unit :=
  w <- get ;;
  match status w with
  | WALStatusClosed => ret tt
  | _ =>
      wrap "failed to flush WAL buffer during close" writer_Flush ;;
      wrap "failed to sync WAL file during close" (file_op file_Sync) ;;
      modify (set_status WALStatusRotating) ;;
      wrap "failed to close WAL file" (file_op file_Close) ;;
      modify (set_status WALStatusClosed)
  end.

(** [SetRotating], [SetActive], [UpdateNextSequence], [GetNextSequence] *)
Definition SetRotating : M unit := modify (set_status WALStatusRotating).
Definition SetActive : M unit := modify (set_status WALStatusActive).

Definition UpdateNextSequence (nextSeq : Z) : M unit :=
  w <- get ;;
  when_ (nextSeq >? nextSequence w)
        (when_ ((nextSeq >=? SequenceWarningThreshold)
                && negb (overflowWarning w))
               (modify (warn nextSeq)) ;;
         modify (set_nextSequence nextSeq)).

Definition GetNextSequence : M Z := w <- get ;; ret (nextSequence w).

(** [NewWAL], when it succeeds: a fresh, empty segment file behind a
    64 KiB buffer. [env] is the script of the outcomes of the system
    calls the new file will see. *)
Definition NewWAL (c : Config) (env : list bool) : WAL :=
  mkWAL c (mkFile [] false env) (bufio.NewWriterSize (64 * 1024))
        1 0 0 WALStatusActive false [] [].

(** ** Notions the properties are stated with *)

(** The bytes handed to the log so far, in order: those that reached the
    file followed by those still in the buffer. *)
Definition stream (w : WAL) : list byte := fdata (file w) ++ wbuf (writer w).

(** The writer and the file take every write: no error is pending, the
    file is open and no failure is scheduled. *)
Definition healthy_io (b : Writer) (f : File) : Prop :=
  werr b = None /\ faults f = [] /\ fclosed f = false.

Definition healthy (w : WAL) : Prop := healthy_io (writer w) (file w).

(** The fields no write, flush or sync touches. *)
Definition same_meta (w w' : WAL) : Prop :=
  cfg w' = cfg w /\ nextSequence w' = nextSequence w /\ status w' = status w
  /\ overflowWarning w' = overflowWarning w /\ warnings w' = warnings w.

(** [c] relates the WAL before and after by [R], whatever it returns. *)
Definition preserves {A} (R : WAL -> WAL -> Prop) (c : M A) : Prop :=
  forall w w' r, c w = (w', r) -> R w w'.

(** A physical record as it lies in the log: header, then payload. *)
Definition frame (recordType : byte) (payload : list byte) : list byte :=
  record_header recordType payload ++ payload.

(** No byte is added to the log. *)
Definition same_stream (w w' : WAL) : Prop := stream w' = stream w.

(** The metadata prefix of a logical entry: op, sequence number, key
    length. *)
Definition meta_prefix (entryType : byte) (seqNum : Z) (key : slice) : list byte :=
  [entryType] ++ le_split 8 seqNum ++ le_split 4 (len key).

(** [out] is a fragmented image of the entry: a First record with the
    metadata prefix and the first [n] key bytes, [n] being as many as fit,
    then Middle records of exactly [MaxRecordSize] bytes and one non-empty
    Last record, which together carry the rest of the key followed by the
    value section. *)
Definition fragmented (entryType : byte) (seqNum : Z) (key value : slice)
           (out : list byte) : Prop :=
  let n := Z.to_nat (min (len key) (MaxRecordSize - 13)) in
  exists (middles : list (list byte)) (last : list byte),
    out = frame RecordTypeFirst (meta_prefix entryType seqNum key ++ firstn n (data key))
          ++ concat (map (frame RecordTypeMiddle) middles)
          ++ frame RecordTypeLast last
    /\ Forall (fun m => blen m = MaxRecordSize) middles
    /\ 0 < blen last <= MaxRecordSize
    /\ concat middles ++ last = skipn n (data key) ++ value_section entryType value.

(** The image of one logical entry in the log. *)
Definition entry_image (entryType : byte) (seqNum : Z) (key value : slice)
           (out : list byte) : Prop :=
  if entrySize entryType key value <=? MaxRecordSize
  then out = frame RecordTypeFull (entry_payload entryType seqNum key value)
  else fragmented entryType seqNum key value out.

(** The image of a batch: one Full record per entry, all under [seqNum]. *)
Definition batch_image (seqNum : Z) (entries : list Entry) : list byte :=
  concat (map (fun e => frame RecordTypeFull
                          (entry_payload (Type_ e) seqNum (Key e) (Value e)))
              entries).

(** [Append] warns when [nextSequence] has reached the threshold and no
    warning was logged before. *)
Definition warn_if_due (at_ : Z) (w : WAL) : WAL :=
  if (at_ >=? SequenceWarningThreshold) && negb (overflowWarning w)
  then warn at_ w else w.

(** The sequence numbers returned by the successful calls among a run of
    single-entry appends, in order. *)
Fixpoint append_seqs (calls : list (byte * slice * slice)) (w : WAL) : list Z :=
  match calls with
  | [] => []
  | (entryType, key, value) :: rest =>
      match Append entryType key value w with
      | (w', Ok seq) => seq :: append_seqs rest w'
      | (w', Err _) => append_seqs rest w'
      end
  end.

(** The methods of a WAL, as calls. *)
Inductive Call : Type :=
| CAppend (entryType : byte) (key value : slice)
| CAppendWithSequence (entryType : byte) (key value : slice) (sequenceNumber : Z)
| CAppendExactBytes (rawBytes : slice) (seqNum : Z)
| CAppendBatch (entries : list Entry)
| CAppendBatchWithSequence (entries : list Entry) (startSequence : Z)
| CSync
| CClose
| CSetRotating
| CSetActive
| CUpdateNextSequence (nextSeq : Z)
| CGetNextSequence.

(** The WAL a call leaves behind, whatever it returns. *)
Definition after (c : Call) (w : WAL) : WAL :=
  match c with
  | CAppend ty k v => fst (Append ty k v w)
  | CAppendWithSequence ty k v s => fst (AppendWithSequence ty k v s w)
  | CAppendExactBytes raw s => fst (AppendExactBytes raw s w)
  | CAppendBatch es => fst (AppendBatch es w)
  | CAppendBatchWithSequence es s => fst (AppendBatchWithSequence es s w)
  | CSync => fst (Sync w)
  | CClose => fst (Close w)
  | CSetRotating => fst (SetRotating w)
  | CSetActive => fst (SetActive w)
  | CUpdateNextSequence n => fst (UpdateNextSequence n w)
  | CGetNextSequence => fst (GetNextSequence w)
  end.

Definition after_all (calls : list Call) (w : WAL) : WAL :=
  fold_left (fun w c => after c w) calls w.

(** Neither the warning flag nor the warning log changes. *)
Definition same_warn (w w' : WAL) : Prop :=
  overflowWarning w' = overflowWarning w /\ warnings w' = warnings w.

(** The warning flag and log are as before, or the flag was clear, is now
    set, and one warning was logged. *)
Definition warn_step (w w' : WAL) : Prop :=
  same_warn w w'
  \/ (overflowWarning w = false /\ overflowWarning w' = true
      /\ exists at_, warnings w' = warnings w ++ [at_]).

(** ** pkg/wal: the reader and replay *)

Definition valid_record_type (recordType : byte) : bool :=
  Byte.eqb recordType RecordTypeFull || Byte.eqb recordType RecordTypeFirst
  || Byte.eqb recordType RecordTypeMiddle || Byte.eqb recordType RecordTypeLast.

Inductive ReadResult : Type :=
| ReadEOF
| ReadCorrupt (e : error)
| ReadRecord (recordType : byte) (payload rest : list byte).

(** Modelled from the spec: reading one physical record ([reader.go] is
    not among the sources). A record is a 7-byte header, CRC-32 (4 bytes,
    little endian, IEEE polynomial over the payload), length (2 bytes,
    little endian) and type (1 byte), followed by [length] payload bytes,
    at most [MaxRecordSize] of them; the CRC is verified and the type is
    one of Full, First, Middle, Last. *)
Definition read_record (bs : list byte) : ReadResult :=
  match bs with
  | [] => ReadEOF
  | _ =>
      if blen bs <? HeaderSize then ReadCorrupt ErrCorruptRecord
      else
        let crc := le_combine (firstn 4 bs) in
        let length := le_combine (firstn 2 (skipn 4 bs)) in
        let recordType := nth 6 bs Byte.x00 in
        let body := skipn 7 bs in
        if length >? MaxRecordSize then ReadCorrupt ErrCorruptRecord
        else if blen body <? length then ReadCorrupt ErrCorruptRecord
        else
          let payload := firstn (Z.to_nat length) body in
          if negb (crc =? crc32.ChecksumIEEE payload) then ReadCorrupt ErrCorruptRecord
          else if negb (valid_record_type recordType)
               then ReadCorrupt ErrInvalidRecordType
               else ReadRecord recordType payload (skipn (Z.to_nat length) body)
  end.

(** Modelled from the spec: the physical records of a segment, up to its
    end or to the first corrupt record, which terminates the segment.
    Every record takes at least the 7 bytes of its header, so
    [length bs] turns are enough. *)
Fixpoint read_records (turns : nat) (bs : list byte) : list (byte * list byte) :=
  match turns with
  | O => []
  | S k =>
      match read_record bs with
      | ReadRecord recordType payload rest =>
          (recordType, payload) :: read_records k rest
      | _ => []
      end
  end.

(** Modelled from the spec: reassembly of logical payloads. A Full record
    is a payload of its own; First opens a run, Middle extends it, Last
    closes it and yields the concatenation. A run broken by a Full or
    another First, a Middle or Last outside a run, and a run left open at
    the end are malformed and discarded. *)
Fixpoint reassemble (records : list (byte * list byte)) (run : option (list byte))
  : list (list byte) :=
  match records with
  | [] => []
  | (recordType, payload) :: rest =>
      if Byte.eqb recordType RecordTypeFull then payload :: reassemble rest None
      else if Byte.eqb recordType RecordTypeFirst then reassemble rest (Some payload)
      else if Byte.eqb recordType RecordTypeMiddle then
        match run with
        | Some acc => reassemble rest (Some (acc ++ payload))
        | None => reassemble rest None
        end
      else
        match run with
        | Some acc => (acc ++ payload) :: reassemble rest None
        | None => reassemble rest None
        end
  end.

(** Modelled from the spec: decoding a logical payload,
    [{op_type (1), seq (8 LE), key_len (4 LE), key, [val_len (4 LE), value]}];
    Delete entries have no value section and a nil value. *)
Definition decode_entry (payload : list byte) : option Entry :=
  if blen payload <? 13 then None
  else
    let entryType := nth 0 payload Byte.x00 in
    let seqNum := le_combine (firstn 8 (skipn 1 payload)) in
    let keyLen := le_combine (firstn 4 (skipn 9 payload)) in
    let afterLen := skipn 13 payload in
    if negb (valid_op entryType) then None
    else if blen afterLen <? keyLen then None
    else
      let key := firstn (Z.to_nat keyLen) afterLen in
      let afterKey := skipn (Z.to_nat keyLen) afterLen in
      if Byte.eqb entryType OpTypeDelete
      then Some (mkEntry seqNum entryType (Some key) None)
      else if blen afterKey <? 4 then None
      else
        let valLen := le_combine (firstn 4 afterKey) in
        let afterValLen := skipn 4 afterKey in
        if blen afterValLen <? valLen then None
        else Some (mkEntry seqNum entryType (Some key)
                           (Some (firstn (Z.to_nat valLen) afterValLen))).

(** Modelled from the spec: the entries of the payloads of a segment; the
    spec does not say what follows an undecodable payload, and here it
    ends the segment like a corrupt record. *)
Fixpoint decode_all (payloads : list (list byte)) : list Entry :=
  match payloads with
  | [] => []
  | p :: rest =>
      match decode_entry p with
      | Some e => e :: decode_all rest
      | None => []
      end
  end.

(** Modelled from the spec: the logical entries of one segment file. *)
Definition segment_entries (bs : list byte) : list Entry :=
  decode_all (reassemble (read_records (length bs) bs) None).

(** Modelled from the spec: the handler is called on every entry in
    order; the first handler error ends the replay and is returned. The
    handler is a closure over state of type [S]. *)
Fixpoint replay_entries {S : Type} (handler : Entry -> S -> S * option error)
         (entries : list Entry) (s : S) : S * option error :=
  match entries with
  | [] => (s, None)
  | e :: rest =>
      match handler e s with
      | (s', None) => replay_entries handler rest s'
      | (s', Some err) => (s', Some err)
      end
  end.

(** Modelled from the spec: [ReplayWALDir]. The directory is given by the
    contents of its segment files in the order of their names, which is
    oldest first. *)
Definition ReplayWALDir {S : Type} (dir : list (list byte))
           (handler : Entry -> S -> S * option error) (s : S) : S * option error :=
  replay_entries handler (concat (map segment_entries dir)) s.

(** ** Writing to and reading back a log *)

(** The calls that log entries. *)
Inductive Write : Type :=
| WAppend (entryType : byte) (key value : slice)
| WAppendWithSequence (entryType : byte) (key value : slice) (sequenceNumber : Z)
| WAppendBatch (entries : list Entry)
| WAppendBatchWithSequence (entries : list Entry) (startSequence : Z).

Definition do_write (x : Write) : M Z :=
  match x with
  | WAppend ty k v => Append ty k v
  | WAppendWithSequence ty k v s => AppendWithSequence ty k v s
  | WAppendBatch es => AppendBatch es
  | WAppendBatchWithSequence es s => AppendBatchWithSequence es s
  end.

Definition with_seq (seqNum : Z) (e : Entry) : Entry :=
  mkEntry seqNum (Type_ e) (Key e) (Value e).

(** The logical entries a call logs when it returns [seqNum]. *)
Definition written (x : Write) (seqNum : Z) : list Entry :=
  match x with
  | WAppend ty k v => [mkEntry seqNum ty k v]
  | WAppendWithSequence ty k v _ => [mkEntry seqNum ty k v]
  | WAppendBatch es => map (with_seq seqNum) es
  | WAppendBatchWithSequence es _ => map (with_seq seqNum) es
  end.

(** Runs the calls in order; [Some] when every one of them succeeds, with
    the final WAL and the entries logged, in order. *)
Fixpoint write_all (xs : list Write) (w : WAL) : option (WAL * list Entry) :=
  match xs with
  | [] => Some (w, [])
  | x :: rest =>
      match do_write x w with
      | (w1, Ok seqNum) =>
          match write_all rest w1 with
          | Some (w2, es) => Some (w2, written x seqNum ++ es)
          | None => None
          end
      | (_, Err _) => None
      end
  end.

(** What replay has to give back of an entry: op type, sequence number,
    key bytes and value bytes. *)
Definition logical (e : Entry) : byte * Z * list byte * list byte :=
  (Type_ e, SequenceNumber e, data (Key e), data (Value e)).

(** What the format can hold of a key and a value: lengths that fit the
    4-byte length fields, and no value on a Delete. *)
Definition fits (entryType : byte) (key value : slice) : Prop :=
  len key < 2 ^ 32
  /\ (if Byte.eqb entryType OpTypeDelete then data value = []
      else len value < 2 ^ 32).

Definition fits_entry (e : Entry) : Prop :=
  valid_op (Type_ e) = true /\ fits (Type_ e) (Key e) (Value e).

Definition fits_write (x : Write) : Prop :=
  match x with
  | WAppend ty k v => fits ty k v
  | WAppendWithSequence ty k v s => fits ty k v /\ 0 <= s
  | WAppendBatch es => Forall fits_entry es
  | WAppendBatchWithSequence es s => Forall fits_entry es /\ 0 <= s
  end.

(** The replay handler that collects what it is given. *)
Definition collect (e : Entry) (seen : list Entry) : list Entry * option error :=
  (seen ++ [e], None).

(** The bytes of a sequence of physical records. *)
Definition frames (records : list (byte * list byte)) : list byte :=
  concat (map (fun r => frame (fst r) (snd r)) records).

(** [bs] is a run of well-formed physical records that reassembles, from
    outside any run and whatever follows, to the payloads [ps]. *)
Definition readable (bs : list byte) (ps : list (list byte)) : Prop :=
  exists records,
    bs = frames records
    /\ Forall (fun r => valid_record_type (fst r) = true
                        /\ blen (snd r) <= MaxRecordSize) records
    /\ forall more, reassemble (records ++ more) None = ps ++ reassemble more None.

Definition payload_of (e : Entry) : list byte :=
  entry_payload (Type_ e) (SequenceNumber e) (Key e) (Value e).

(** An entry the format holds: a known op, a 64-bit sequence number, and
    a key and a value that fit. *)
Definition loggable (e : Entry) : Prop :=
  valid_op (Type_ e) = true
  /\ 0 <= SequenceNumber e < 2 ^ 64
  /\ fits (Type_ e) (Key e) (Value e).

(** The status is as before. *)
Definition same_status (w w' : WAL) : Prop := status w' = status w.

Definition bytes_eqb (l1 l2 : list byte) : bool :=
  Nat.eqb (length l1) (length l2)
  && forallb (fun p => Byte.eqb (fst p) (snd p)) (combine l1 l2).

(** One entry appended to a new WAL, the WAL closed and its directory
    replayed: does the handler receive exactly that entry? *)
Definition round_trip_check (c : Config) (entryType : byte) (key value : slice)
  : bool :=
  match Append entryType key value (NewWAL c []) with
  | (w, Ok seq) =>
      match Close w with
      | (w', Ok _) =>
          match ReplayWALDir [fdata (file w')] collect [] with
          | ([e], None) =>
              Byte.eqb (Type_ e) entryType && (SequenceNumber e =? seq)
              && bytes_eqb (data (Key e)) (data key)
              && bytes_eqb (data (Value e)) (data value)
          | _ => false
          end
      | _ => false
      end
  | _ => false
  end.

(** Type and payload length of the physical records in the log of [w]. *)
Definition record_shapes (w : WAL) : list (Z * Z) :=
  map (fun r => (byte.unsigned (fst r), blen (snd r)))
      (read_records (length (stream w)) (stream w)).

(** ** pkg/memtable *)

Module memtable.

Inductive ValueType : Type := TypeValue | TypeDeletion.

(** The skip list's [entry]; [newEntry] stores its arguments. The type
    and the skip list are declared in [skiplist.go], which is not among
    the sources. *)
Record entry : Type := newEntry {
  key : slice;
  value : slice;
  valueType : ValueType;
  seqNum : Z
}.

(** [bytes.Compare]: lexicographic on unsigned bytes. *)
Fixpoint bytes_compare (a b : list byte) : comparison :=
  match a, b with
  | [], [] => Eq
  | [], _ :: _ => Lt
  | _ :: _, [] => Gt
  | x :: a', y :: b' =>
      match byte.unsigned x ?= byte.unsigned y with
      | Eq => bytes_compare a' b'
      | c => c
      end
  end.

(** Modelled from the spec: the comparator of internal records. User
    keys are compared lexicographically; on equal keys the sequence
    numbers are compared reversed, so that the higher sequence number
    sorts first. *)
Definition compareWithEntry (e1 e2 : entry) : comparison :=
  match bytes_compare (data (key e1)) (data (key e2)) with
  | Eq => seqNum e2 ?= seqNum e1
  | c => c
  end.

Definition has_key (k : slice) (e : entry) : bool :=
  match bytes_compare (data (key e)) (data k) with
  | Eq => true
  | _ => false
  end.

(** Modelled from the spec: the skip list, as the sequence of its records
    in ascending order together with its byte counter. The levels and the
    random heights only speed the search up and are left out. *)
Record SkipList : Type := mkSkipList {
  nodes : list entry;
  size : Z
}.

Definition NewSkipList : SkipList := mkSkipList [] 0.

(** Modelled from the spec: the place of a new record in the (key
    ascending, sequence number descending) order: before the first record
    that is not smaller. *)
Fixpoint splice (e : entry) (l : list entry) : list entry :=
  match l with
  | [] => [e]
  | x :: rest =>
      match compareWithEntry x e with
      | Lt => x :: splice e rest
      | _ => e :: x :: rest
      end
  end.

Section WithEntrySize.

(** [entry.size()], which is declared in [skiplist.go]. *)
Variable entry_size : entry -> Z.

(** Modelled from the spec: [Insert] splices the record in and adds its
    size to the byte counter. *)
Definition Insert (e : entry) (s : SkipList) : SkipList :=
  mkSkipList (splice e (nodes s)) (i64 (size s + entry_size e)).

(** Modelled from the spec: [Find] returns the first record in ascending
    order whose key equals the user key, or nothing. *)
Definition Find (k : slice) (s : SkipList) : option entry :=
  find (has_key k) (nodes s).

(** Modelled from the spec: the byte counter. *)
Definition SkipList_ApproximateSize (s : SkipList) : Z := size s.

(** [MemTable]; [creationTime], the unused [size] field and the lock are
    left out. *)
Record MemTable : Type := mkMemTable {
  skipList : SkipList;
  nextSeqNum : Z;
  immutable : bool
}.

Definition NewMemTable : MemTable := mkMemTable NewSkipList 0 false.

Definition IsImmutable (m : MemTable) : bool := immutable m.

Definition SetImmutable (m : MemTable) : MemTable :=
  mkMemTable (skipList m) (nextSeqNum m) true.

(** What [Put] and [Delete] do once the record is built. *)
Definition insert_record (e : entry) (m : MemTable) : MemTable :=
  let s := Insert e (skipList m) in
  if seqNum e >? nextSeqNum m
  then mkMemTable s (u64 (seqNum e + 1)) (immutable m)
  else mkMemTable s (nextSeqNum m) (immutable m).

Definition Put (k v : slice) (seq : Z) (m : MemTable) : MemTable :=
  if IsImmutable m then m
  else insert_record (newEntry k v TypeValue seq) m.

Definition Delete (k : slice) (seq : Z) (m : MemTable) : MemTable :=
  if IsImmutable m then m
  else insert_record (newEntry k None TypeDeletion seq) m.

(** [Get]: both branches, with and without the read lock, do the same. *)
Definition Get (k : slice) (m : MemTable) : slice * bool :=
  match Find k (skipList m) with
  | None => (None, false)
  | Some e =>
      match valueType e with
      | TypeDeletion => (None, true)
      | TypeValue => (value e, true)
      end
  end.

Definition Contains (k : slice) (m : MemTable) : bool :=
  match Find k (skipList m) with
  | None => false
  | Some _ => true
  end.

Definition ApproximateSize (m : MemTable) : Z :=
  SkipList_ApproximateSize (skipList m).

Definition GetNextSequenceNumber (m : MemTable) : Z := nextSeqNum m.

(** [ProcessWALEntry]; it always returns a nil error. *)
Definition ProcessWALEntry (e : Entry) (m : MemTable) : MemTable :=
  if Byte.eqb (Type_ e) OpTypePut then Put (Key e) (Value e) (SequenceNumber e) m
  else if Byte.eqb (Type_ e) OpTypeDelete then Delete (Key e) (SequenceNumber e) m
  else m.

(** The mutations of a memtable. *)
Inductive Mutation : Type :=
| MPut (k v : slice) (seq : Z)
| MDelete (k : slice) (seq : Z)
| MSetImmutable
| MProcessWALEntry (e : Entry).

Definition mutate (op : Mutation) (m : MemTable) : MemTable :=
  match op with
  | MPut k v seq => Put k v seq m
  | MDelete k seq => Delete k seq m
  | MSetImmutable => SetImmutable m
  | MProcessWALEntry e => ProcessWALEntry e m
  end.

Definition mutate_all (ops : list Mutation) (m : MemTable) : MemTable :=
  fold_left (fun m op => mutate op m) ops m.

(** *** recovery.go *)

Record RecoveryOptions : Type := mkRecoveryOptions {
  MaxSequenceNumber : Z;
  MaxMemTables : Z;
  MemTableSize : Z
}.

Definition DefaultRecoveryOptions (cfg : Config) : RecoveryOptions :=
  mkRecoveryOptions MaxUint64 (config.MaxMemTables cfg) (config.MemTableSize cfg).

(** [memTables[len(memTables)-1]] *)
Definition current_of (memTables : list MemTable) : option MemTable :=
  last (map Some memTables) None.

(** A method called on the memtable the last slot points to. *)
Fixpoint on_current (f : MemTable -> MemTable) (memTables : list MemTable)
  : list MemTable :=
  match memTables with
  | [] => []
  | [m] => [f m]
  | m :: rest => m :: on_current f rest
  end.

(** The closure [entryHandler] of [RecoverFromWAL]; its captured
    variables [memTables] and [maxSeqNum] are the state. *)
Definition entryHandler (opts : RecoveryOptions) (e : Entry)
           (st : list MemTable * Z) : (list MemTable * Z) * option error :=
  let '(memTables, maxSeqNum) := st in
  if SequenceNumber e >? MaxSequenceNumber opts then (st, None)
  else
    let maxSeqNum :=
      if SequenceNumber e >? maxSeqNum then SequenceNumber e else maxSeqNum in
    match current_of memTables with
    | None => ((memTables, maxSeqNum), Some PanicIndexOutOfRange)
    | Some current =>
        if ApproximateSize current >=? MemTableSize opts then
          if Z.of_nat (length memTables) >=? MaxMemTables opts
          then ((memTables, maxSeqNum),
                Some (Errorf "maximum number of memtables exceeded during recovery"))
          else
            let memTables := on_current SetImmutable memTables ++ [NewMemTable] in
            ((on_current (ProcessWALEntry e) memTables, maxSeqNum), None)
        else ((on_current (ProcessWALEntry e) memTables, maxSeqNum), None)
    end.

(** [RecoverFromWAL]; [dir] is the content of [cfg.WALDir]. *)
Definition RecoverFromWAL (cfg : Config) (opts : option RecoveryOptions)
           (dir : list (list byte)) : result (list MemTable * Z) :=
  let opts :=
    match opts with
    | None => DefaultRecoveryOptions cfg
    | Some o => o
    end in
  match ReplayWALDir dir (entryHandler opts) ([NewMemTable], 0) with
  | (_, Some err) => Err (Wrap "failed to replay WAL" err)
  | (st, None) => Ok st
  end.

(** The sequence numbers recovery does not skip. *)
Definition kept_seqs (opts : RecoveryOptions) (entries : list Entry) : list Z :=
  map SequenceNumber
      (filter (fun e => negb (SequenceNumber e >? MaxSequenceNumber opts)) entries).

End WithEntrySize.

End memtable.

(** [x] does not sort after [y] in the order of the skip list. *)
Definition le_entry (x y : memtable.entry) : Prop :=
  memtable.compareWithEntry x y <> Gt.

(** ** Notions for the further properties of the writer *)

(** What [f] reads of the WAL is left as it was. *)
Definition keeps {X : Type} (f : WAL -> X) (w w' : WAL) : Prop := f w' = f w.

(** [c] relates the WAL before and after by [R] whenever it succeeds. *)
Definition preserves_ok {A} (R : WAL -> WAL -> Prop) (c : M A) : Prop :=
  forall w w' a, c w = (w', Ok a) -> R w w'.

(** What a logging call that returns [seqNum] tells the observers about
    the write: the entry with its sequence number, or the batch as the
    caller passed it. *)
Definition notification (x : Write) (seqNum : Z) : Notification :=
  match x with
  | WAppend ty k v => OnWALEntryWritten (mkEntry seqNum ty k v)
  | WAppendWithSequence ty k v _ => OnWALEntryWritten (mkEntry seqNum ty k v)
  | WAppendBatch es => OnWALBatchWritten seqNum es
  | WAppendBatchWithSequence es _ => OnWALBatchWritten seqNum es
  end.

(** The byte counter is a 64-bit signed integer. *)
Definition int64 (z : Z) : Prop := - 2 ^ 63 <= z < 2 ^ 63.

(** [bytesWritten] has moved by as much as the log has grown, up to the
    wrap-around of the counter, and is still a 64-bit integer if it was. *)
Definition counted (w w' : WAL) : Prop :=
  (exists k, bytesWritten w' - bytesWritten w
             = blen (stream w') - blen (stream w) + 2 ^ 64 * k)
  /\ (int64 (bytesWritten w) -> int64 (bytesWritten w')).

(** The sequence number a caller supplies, if any, is a [uint64]. *)
Definition supplies_uint64 (x : Write) : Prop :=
  match x with
  | WAppendWithSequence _ _ _ s => 0 <= s
  | WAppendBatchWithSequence _ s => 0 <= s
  | _ => True
  end.

(** [ReuseWAL]. [walMaxSize] stands for [cfg.WALMaxSize]. [files] is what
    [FindWALFiles] returns: an error, or the contents of the segment
    files of the directory, oldest first. [openFails] and [statFails] are
    the outcomes of [os.OpenFile] and [file.Stat] on the latest of them,
    and [env] is the script of the system calls the opened file will see.
    The result is an error, no WAL ([nil, nil]) or the WAL, whose file is
    opened for appending. *)
Definition ReuseWAL (c : option Config) (walMaxSize : Z)
           (files : result (list (list byte))) (openFails statFails : bool)
           (nextSeq : Z) (env : list bool) : result (option WAL) :=
  match c with
  | None => Err (Errorf "config cannot be nil")
  | Some c =>
      match files with
      | Err e => Err (Wrap "failed to find WAL files" e)
      | Ok files =>
          match last (map Some files) None with
          | None => Ok None
          | Some latestWAL =>
              if openFails then Ok None
              else if statFails then Err (Wrap "failed to stat WAL file" ErrIO)
              else
                let maxWALSize :=
                  if walMaxSize >? 0 then walMaxSize else 64 * 1024 * 1024 in
                if blen latestWAL >=? maxWALSize then Ok None
                else
                  Ok (Some (mkWAL c (mkFile latestWAL false env)
                                  (bufio.NewWriterSize (64 * 1024))
                                  nextSeq (blen latestWAL) 0 WALStatusActive
                                  false [] []))
          end
      end
  end.

(** ** Notions for the further properties of the memtable *)

(** The sequence number of the record a mutation inserts into a mutable
    memtable, when it inserts one. *)
Definition applied_seq (op : memtable.Mutation) : option Z :=
  match op with
  | memtable.MPut _ _ seq => Some seq
  | memtable.MDelete _ seq => Some seq
  | memtable.MSetImmutable => None
  | memtable.MProcessWALEntry e =>
      if Byte.eqb (Type_ e) OpTypePut || Byte.eqb (Type_ e) OpTypeDelete
      then Some (SequenceNumber e) else None
  end.

(** The options [RecoverFromWAL] works with. *)
Definition effective_options (cfg : Config) (opts : option memtable.RecoveryOptions)
  : memtable.RecoveryOptions :=
  match opts with
  | None => memtable.DefaultRecoveryOptions cfg
  | Some o => o
  end.

(** ** [GetEntriesFrom]

    The reader is declared in [reader.go], which is not among the
    sources. [getEntriesFromFile] opens one and calls [ReadEntry] until
    it returns [io.EOF]: here [OpenReader] gives, for the content of a
    file, an error or what the successive calls of [ReadEntry] return
    before [io.EOF]. [skippable] is the test of the error message for
    "corrupt" and "invalid". *)
Section WithReader.

Variable OpenReader : list byte -> result (list (result Entry)).
Variable skippable : error -> bool.

(** The loop of [getEntriesFromFile]. *)
Fixpoint read_entries (minSequence : Z) (reads : list (result Entry))
         (entries : list Entry) : list Entry * option error :=
  match reads with
  | [] => (entries, None)
  | Ok entry :: rest =>
      read_entries minSequence rest
        (if SequenceNumber entry >=? minSequence then entries ++ [entry] else entries)
  | Err err :: rest =>
      if skippable err then read_entries minSequence rest entries
      else (entries, Some err)
  end.

(** [getEntriesFromFile], on the content of the file. *)
Definition getEntriesFromFile (content : list byte) (minSequence : Z)
  : list Entry * option error :=
  match OpenReader content with
  | Err err => ([], Some (Wrap "failed to create reader" err))
  | Ok reads => read_entries minSequence reads []
  end.

(** The loop of [GetEntriesFrom] over the files other than the current
    one; a file that cannot be read is passed over. *)
Fixpoint older_entries (currentFileName : String.string)
         (files : list (String.string * list byte)) (sequenceNumber : Z)
         (result : list Entry) : list Entry :=
  match files with
  | [] => result
  | (fileName, content) :: rest =>
      if String.eqb fileName currentFileName
      then older_entries currentFileName rest sequenceNumber result
      else
        match getEntriesFromFile content sequenceNumber with
        | (_, Some _) => older_entries currentFileName rest sequenceNumber result
        | (fileEntries, None) =>
            older_entries currentFileName rest sequenceNumber (result ++ fileEntries)
        end
  end.

(** [GetEntriesFrom]. [files] is what [FindWALFiles] returns: an error,
    or the segment files of the directory by base name, oldest first,
    with their contents; [currentFileName] is the base name of the file
    of the WAL, whose content is read after the flush. *)
Definition GetEntriesFrom (files : result (list (String.string * list byte)))
           (currentFileName : String.string) (sequenceNumber : Z)
  : M (list Entry) :=
  w <- get ;;
  match status w with
  | WALStatusClosed => fail ErrWALClosed
  | _ =>
      if sequenceNumber >=? nextSequence w then ret []
      else
        wrap "failed to flush WAL buffer" writer_Flush ;;
        match files with
        | Err err => fail (Wrap "failed to find WAL files" err)
        | Ok files =>
            let result := older_entries currentFileName files sequenceNumber [] in
            w' <- get ;;
            match getEntriesFromFile (fdata (file w')) sequenceNumber with
            | (_, Some err) =>
                fail (Wrap "failed to get entries from current WAL file" err)
            | (currentEntries, None) => ret (result ++ currentEntries)
            end
        end
  end.

End WithReader.

(* ================================================================== *)
(** * Properties *)

(** ** The buffered writer *)

Lemma file_Write_ok p f f' :
  file_Write p f = (f', None) -> fdata f' = fdata f ++ p.
Proof.
  unfold file_Write, next_fault.
  destruct (fclosed f); [discriminate|].
  destruct (faults f) as [|[|] rest]; simpl; intros H; inversion H; reflexivity.
Qed.

Lemma file_Write_healthy p f :
  faults f = [] -> fclosed f = false ->
  file_Write p f = (mkFile (fdata f ++ p) false [], None).
Proof.
  intros Hf Hc. unfold file_Write, next_fault. rewrite Hc, Hf. simpl.
  rewrite Hc, Hf. reflexivity.
Qed.

Lemma file_Write_err p f f' e :
  file_Write p f = (f', Some e) -> fdata f' = fdata f.
Proof.
  unfold file_Write, next_fault.
  destruct (fclosed f); [intros H; inversion H; reflexivity|].
  destruct (faults f) as [|[|] rest]; simpl; intros H; inversion H; reflexivity.
Qed.

Lemma Flush_stream b f b' f' r :
  bufio.Flush b f = (b', f', r) ->
  fdata f' ++ wbuf b' = fdata f ++ wbuf b.
Proof.
  unfold bufio.Flush. destruct (werr b).
  - intros H; inversion H; reflexivity.
  - destruct (wbuf b) as [|x l] eqn:Hb.
    + intros H; inversion H; subst. rewrite Hb. reflexivity.
    + destruct (file_Write (x :: l) f) as [f1 [e|]] eqn:Hw; intros H; inversion H; subst; simpl.
      * apply file_Write_err in Hw. rewrite Hw. reflexivity.
      * apply file_Write_ok in Hw. rewrite Hw, app_nil_r. reflexivity.
Qed.

Lemma Flush_ok b f b' f' :
  bufio.Flush b f = (b', f', None) ->
  wbuf b' = [] /\ werr b' = None /\ wsize b' = wsize b.
Proof.
  unfold bufio.Flush. destruct (werr b) eqn:He; [discriminate|].
  destruct (wbuf b) as [|x l] eqn:Hb.
  - intros H; inversion H; subst. auto.
  - destruct (file_Write (x :: l) f) as [f1 [e|]]; intros H; inversion H; subst; auto.
Qed.

Lemma Flush_healthy b f :
  healthy_io b f ->
  exists f', bufio.Flush b f = (mkWriter [] (wsize b) None, f', None)
             /\ faults f' = [] /\ fclosed f' = false.
Proof.
  intros (He & Hf & Hc). unfold bufio.Flush. rewrite He.
  destruct (wbuf b) as [|x l] eqn:Hb.
  - exists f. destruct b; simpl in *; subst. auto.
  - rewrite (file_Write_healthy _ _ Hf Hc). eexists. split; [reflexivity|]. auto.
Qed.

Lemma Write_loop_sticky k p b f e :
  werr b = Some e -> bufio.Write_loop k p b f = (p, b, f).
Proof.
  intros He. destruct k; simpl; [reflexivity|].
  rewrite He, andb_false_r. reflexivity.
Qed.

Lemma Write_turn_stream p b f p' b' f' :
  werr b = None ->
  bufio.Write_turn p b f = (p', b', f') ->
  werr b' = None ->
  fdata f' ++ wbuf b' ++ p' = fdata f ++ wbuf b ++ p.
Proof.
  intros He. unfold bufio.Write_turn, bufio.Buffered, blen.
  destruct (Z.of_nat (length (wbuf b)) =? 0) eqn:Hz.
  - apply Z.eqb_eq in Hz. destruct (wbuf b) eqn:Hb; [|simpl in Hz; lia].
    destruct (file_Write p f) as [f1 [e|]] eqn:Hw; intros H; inversion H; subst; simpl.
    + discriminate.
    + intros _. rewrite Hb. apply file_Write_ok in Hw. rewrite Hw, app_nil_r. reflexivity.
  - set (n := Z.to_nat (bufio.Available b)).
    destruct (bufio.Flush (mkWriter (wbuf b ++ firstn n p) (wsize b) (werr b)) f)
      as [[b2 f2] r] eqn:Hfl.
    intros H; inversion H; subst. intros He'.
    pose proof (Flush_stream _ _ _ _ _ Hfl) as Hs. simpl in Hs.
    rewrite app_assoc, Hs, <- !app_assoc, firstn_skipn. reflexivity.
Qed.

Lemma Write_turn_size p b f p' b' f' :
  bufio.Write_turn p b f = (p', b', f') -> wsize b' = wsize b.
Proof.
  unfold bufio.Write_turn.
  destruct (bufio.Buffered b =? 0).
  - destruct (file_Write p f) as [f1 [e|]]; intros H; inversion H; reflexivity.
  - match goal with |- context [bufio.Flush ?x f] =>
      destruct (bufio.Flush x f) as [[b2 f2] r] eqn:Hfl end.
    intros H; inversion H; subst.
    unfold bufio.Flush in Hfl. simpl in Hfl.
    destruct (werr b); [inversion Hfl; reflexivity|].
    destruct (wbuf b ++ _); [inversion Hfl; reflexivity|].
    destruct (file_Write _ f) as [f1 [e|]]; inversion Hfl; reflexivity.
Qed.

Lemma Write_loop_stream k p b f p' b' f' :
  bufio.Write_loop k p b f = (p', b', f') ->
  werr b' = None ->
  fdata f' ++ wbuf b' ++ p' = fdata f ++ wbuf b ++ p /\ wsize b' = wsize b.
Proof.
  revert p b f. induction k as [|k IH]; intros p b f; simpl.
  - intros H; inversion H; auto.
  - destruct (werr b) eqn:He.
    + rewrite andb_false_r. intros H; inversion H; auto.
    + destruct (blen p >? bufio.Available b); simpl.
      * destruct (bufio.Write_turn p b f) as [[p1 b1] f1] eqn:Ht.
        intros Hl He'.
        destruct (werr b1) eqn:He1.
        { rewrite (Write_loop_sticky _ _ _ _ _ He1) in Hl. inversion Hl; subst. congruence. }
        destruct (IH _ _ _ Hl He') as [Hs Hz].
        rewrite Hs, Hz. split.
        -- eapply Write_turn_stream; eauto.
        -- eapply Write_turn_size; eauto.
      * intros H; inversion H; auto.
Qed.

Lemma Write_ok p b f b' f' :
  bufio.Write p b f = (b', f', None) ->
  fdata f' ++ wbuf b' = fdata f ++ wbuf b ++ p /\ wsize b' = wsize b /\ werr b' = None.
Proof.
  unfold bufio.Write.
  destruct (bufio.Write_loop 3 p b f) as [[p1 b1] f1] eqn:Hl.
  destruct (werr b1) eqn:He; intros H; inversion H; subst; simpl.
  destruct (Write_loop_stream _ _ _ _ _ _ _ Hl He) as [Hs Hz].
  rewrite <- Hs. auto.
Qed.

Lemma Write_turn_healthy p b f :
  healthy_io b f ->
  exists p' b' f', bufio.Write_turn p b f = (p', b', f') /\ healthy_io b' f'.
Proof.
  intros (He & Hf & Hc). unfold bufio.Write_turn.
  destruct (bufio.Buffered b =? 0).
  - rewrite (file_Write_healthy _ _ Hf Hc). do 3 eexists. split; [reflexivity|].
    repeat split; auto.
  - match goal with |- context [bufio.Flush ?x f] =>
      destruct (Flush_healthy x f) as (f' & Hfl & Hf' & Hc') end.
    { repeat split; auto. }
    rewrite Hfl. do 3 eexists. split; [reflexivity|]. repeat split; auto.
Qed.

Lemma Write_loop_healthy k p b f :
  healthy_io b f ->
  exists p' b' f', bufio.Write_loop k p b f = (p', b', f') /\ healthy_io b' f'.
Proof.
  revert p b f. induction k as [|k IH]; intros p b f H; simpl.
  - do 3 eexists. split; [reflexivity|]. exact H.
  - destruct (_ && _).
    + destruct (Write_turn_healthy p b f H) as (p1 & b1 & f1 & Ht & H1).
      rewrite Ht. apply IH. exact H1.
    + do 3 eexists. split; [reflexivity|]. exact H.
Qed.

Lemma Write_healthy p b f :
  healthy_io b f ->
  exists b' f', bufio.Write p b f = (b', f', None) /\ healthy_io b' f'.
Proof.
  intros H. unfold bufio.Write.
  destruct (Write_loop_healthy 3 p b f H) as (p1 & b1 & f1 & Hl & (He & Hf & Hc)).
  rewrite Hl, He. do 2 eexists. split; [reflexivity|]. repeat split; auto.
Qed.

(** ** Status machine *)

Lemma check_status_rejects (w : WAL) (e : error) :
  (status w = WALStatusRotating /\ e = ErrWALRotating)
  \/ (status w = WALStatusClosed /\ e = ErrWALClosed) ->
  check_status w = (w, Err e).
Proof.
  unfold check_status, bind, get.
  intros [[Hs He] | [Hs He]]; subst e; rewrite Hs; reflexivity.
Qed.

Lemma check_status_active (w : WAL) :
  status w = WALStatusActive -> check_status w = (w, Ok tt).
Proof. unfold check_status, bind, get. intros Hs. rewrite Hs. reflexivity. Qed.

(** C7. While the WAL is Rotating every append-family call returns
    [ErrWALRotating], while it is Closed [ErrWALClosed]; the WAL is left
    exactly as it was: nothing is written and [nextSequence] keeps its
    value. *)
Theorem append_rejected_unless_active (w : WAL) (e : error) :
  (status w = WALStatusRotating /\ e = ErrWALRotating)
  \/ (status w = WALStatusClosed /\ e = ErrWALClosed) ->
  (forall entryType key value,
      Append entryType key value w = (w, Err e))
  /\ (forall entryType key value sequenceNumber,
         AppendWithSequence entryType key value sequenceNumber w = (w, Err e))
  /\ (forall entries, AppendBatch entries w = (w, Err e))
  /\ (forall entries startSequence,
         AppendBatchWithSequence entries startSequence w = (w, Err e))
  /\ (forall rawBytes seqNum, AppendExactBytes rawBytes seqNum w = (w, Err e)).
Proof.
  intros H. pose proof (check_status_rejects w e H) as Hc.
  repeat split; intros;
    unfold Append, AppendWithSequence, AppendBatch, AppendBatchWithSequence,
      AppendExactBytes;
    unfold bind at 1; rewrite Hc; reflexivity.
Qed.

Lemma append_rejected_unless_active_witness :
  let w := set_status WALStatusClosed (NewWAL (mkConfig SyncImmediate 0 1048576 4) []) in
  Append OpTypePut (Some [Byte.x6b]) (Some [Byte.x76]) w = (w, Err ErrWALClosed)
  /\ stream w = [] /\ nextSequence w = 1.
Proof.
  intros w. split; [| split; reflexivity].
  apply (append_rejected_unless_active w ErrWALClosed).
  right. split; reflexivity.
Defined.

(** ** Empty batches *)

(** C10. On an Active WAL [AppendBatch] of an empty slice returns the
    current [nextSequence] with no error, and [AppendBatchWithSequence]
    of an empty slice returns the given start sequence with no error;
    neither writes a record nor changes any field of the WAL. *)
Theorem empty_batch_is_accepted (w : WAL) (startSequence : Z) :
  status w = WALStatusActive ->
  AppendBatch [] w = (w, Ok (nextSequence w))
  /\ AppendBatchWithSequence [] startSequence w = (w, Ok startSequence).
Proof.
  intros Hs. pose proof (check_status_active w Hs) as Hc.
  split; unfold AppendBatch, AppendBatchWithSequence;
    unfold bind at 1; rewrite Hc; reflexivity.
Qed.

Lemma empty_batch_is_accepted_witness :
  let w := NewWAL (mkConfig SyncBatch 4096 1048576 4) [] in
  AppendBatch [] w = (w, Ok 1)
  /\ AppendBatchWithSequence [] 7 w = (w, Ok 7).
Proof.
  intros w. apply (empty_batch_is_accepted w 7). reflexivity.
Defined.

(** ** Frame conditions of the writer *)

Lemma same_meta_refl w : same_meta w w.
Proof. repeat split. Qed.

Lemma same_meta_trans w1 w2 w3 :
  same_meta w1 w2 -> same_meta w2 w3 -> same_meta w1 w3.
Proof.
  unfold same_meta. intros (?&?&?&?&?) (?&?&?&?&?). repeat split; congruence.
Qed.

Section Preserves.
Variable R : WAL -> WAL -> Prop.
Hypothesis R_refl : forall w, R w w.
Hypothesis R_trans : forall w1 w2 w3, R w1 w2 -> R w2 w3 -> R w1 w3.

Lemma preserves_ret {A} (a : A) : preserves R (ret a).
Proof. intros w w' r H. inversion H. apply R_refl. Qed.

Lemma preserves_fail {A} (e : error) : preserves R (@fail A e).
Proof. intros w w' r H. inversion H. apply R_refl. Qed.

Lemma preserves_get : preserves R get.
Proof. intros w w' r H. inversion H. apply R_refl. Qed.

Lemma preserves_bind {A B} (c : M A) (k : A -> M B) :
  preserves R c -> (forall a, preserves R (k a)) -> preserves R (bind c k).
Proof.
  intros Hc Hk w w' r. unfold bind.
  destruct (c w) as [w1 [a|e]] eqn:E; intros H.
  - eapply R_trans; [eapply Hc; eauto | eapply Hk; eauto].
  - inversion H; subst. eapply Hc; eauto.
Qed.

Lemma preserves_wrap {A} msg (c : M A) :
  preserves R c -> preserves R (wrap msg c).
Proof.
  intros Hc w w' r. unfold wrap.
  destruct (c w) as [w1 [a|e]] eqn:E; intros H; inversion H; subst; eapply Hc; eauto.
Qed.

Lemma preserves_when (b : bool) (c : M unit) :
  preserves R c -> preserves R (when_ b c).
Proof. intros Hc. destruct b; simpl; [exact Hc | apply preserves_ret]. Qed.

Lemma preserves_modify (f : WAL -> WAL) :
  (forall w, R w (f w)) -> preserves R (modify f).
Proof. intros Hf w w' r H. inversion H. apply Hf. Qed.
End Preserves.

Create HintDb wal_meta.

Ltac preserves_meta :=
  repeat first
    [ solve [auto with wal_meta nocore]
    | apply preserves_bind; [exact same_meta_trans | | intros ?]
    | apply preserves_wrap
    | apply preserves_when; [exact same_meta_refl | ]
    | apply preserves_ret; exact same_meta_refl
    | apply preserves_fail; exact same_meta_refl
    | apply preserves_get; exact same_meta_refl
    | apply preserves_modify; intros ?; repeat split
    | match goal with
      | |- preserves _ (if ?b then _ else _) => destruct b
      | |- preserves _ (match ?x with _ => _ end) => destruct x
      end ].

Lemma writer_Write_meta p : preserves same_meta (writer_Write p).
Proof.
  intros w w' r. unfold writer_Write.
  destruct (bufio.Write p (writer w) (file w)) as [[b f] e].
  intros H; inversion H; subst. repeat split.
Qed.

Lemma writer_Flush_meta : preserves same_meta writer_Flush.
Proof.
  intros w w' r. unfold writer_Flush.
  destruct (bufio.Flush (writer w) (file w)) as [[b f] e].
  intros H; inversion H; subst. repeat split.
Qed.

Lemma file_op_meta op : preserves same_meta (file_op op).
Proof.
  intros w w' r. unfold file_op.
  destruct (op (file w)) as [f e].
  intros H; inversion H; subst. repeat split.
Qed.

#[local] Hint Resolve writer_Write_meta writer_Flush_meta file_op_meta : wal_meta.

Lemma check_status_meta : preserves same_meta check_status.
Proof. unfold check_status. preserves_meta. Qed.

#[local] Hint Resolve check_status_meta : wal_meta.

Lemma writeRawRecord_meta t p : preserves same_meta (writeRawRecord t p).
Proof. unfold writeRawRecord. preserves_meta. Qed.

#[local] Hint Resolve writeRawRecord_meta : wal_meta.

Lemma writeRecord_meta t ty s k v : preserves same_meta (writeRecord t ty s k v).
Proof. unfold writeRecord. preserves_meta. Qed.

#[local] Hint Resolve writeRecord_meta : wal_meta.

Lemma write_middle_meta n rem : preserves same_meta (write_middle n rem).
Proof.
  revert rem. induction n as [|n IH]; intros rem; cbn [write_middle]; preserves_meta.
Qed.

#[local] Hint Resolve write_middle_meta : wal_meta.

Lemma writeFragmentedRecord_meta ty s k v :
  preserves same_meta (writeFragmentedRecord ty s k v).
Proof. unfold writeFragmentedRecord. cbv zeta. preserves_meta. Qed.

Lemma syncLocked_meta : preserves same_meta syncLocked.
Proof. unfold syncLocked. preserves_meta. Qed.

#[local] Hint Resolve writeFragmentedRecord_meta syncLocked_meta : wal_meta.

Lemma maybeSync_meta : preserves same_meta maybeSync.
Proof. unfold maybeSync. cbv zeta. preserves_meta. Qed.

#[local] Hint Resolve maybeSync_meta : wal_meta.

Lemma write_entry_meta ty s k v : preserves same_meta (write_entry ty s k v).
Proof. unfold write_entry. preserves_meta. Qed.

Lemma reserve_batch_meta n : preserves same_meta (reserve_batch n).
Proof. unfold reserve_batch. cbv zeta. preserves_meta. Qed.

Lemma write_batch_meta s es : preserves same_meta (write_batch s es).
Proof. induction es as [|e es IH]; simpl; preserves_meta. Qed.

#[local] Hint Resolve write_entry_meta reserve_batch_meta write_batch_meta : wal_meta.

(** ** What a successful write leaves in the log *)

Lemma bind_ok {A B} (c : M A) (k : A -> M B) w w' b :
  bind c k w = (w', Ok b) ->
  exists w1 a, c w = (w1, Ok a) /\ k a w1 = (w', Ok b).
Proof.
  unfold bind. destruct (c w) as [w1 [a|e]]; [|discriminate].
  intros H. exists w1, a. auto.
Qed.

Lemma wrap_ok {A} msg (c : M A) w w' a :
  wrap msg c w = (w', Ok a) -> c w = (w', Ok a).
Proof.
  unfold wrap. destruct (c w) as [w1 [x|e]]; intros H; inversion H; reflexivity.
Qed.

Lemma modify_ok f w w' r : modify f w = (w', r) -> w' = f w /\ r = Ok tt.
Proof. intros H; inversion H; auto. Qed.

Lemma blen_app l1 l2 : blen (l1 ++ l2) = blen l1 + blen l2.
Proof. unfold blen. rewrite length_app. lia. Qed.

Lemma blen_nonneg l : 0 <= blen l.
Proof. unfold blen. lia. Qed.

Lemma writer_Write_ok p w w' :
  writer_Write p w = (w', Ok tt) -> stream w' = stream w ++ p.
Proof.
  unfold writer_Write, stream.
  destruct (bufio.Write p (writer w) (file w)) as [[b f] [e|]] eqn:Hw;
    intros H; inversion H; subst; simpl.
  apply Write_ok in Hw. destruct Hw as [Hs _]. rewrite Hs, app_assoc. reflexivity.
Qed.

Lemma writeRecordData_ok h p w w' :
  writeRecordData h p w = (w', Ok tt) -> stream w' = stream w ++ h ++ p.
Proof.
  unfold writeRecordData. intros H.
  apply bind_ok in H. destruct H as (w1 & [] & H1 & H).
  apply bind_ok in H. destruct H as (w2 & [] & H2 & H).
  apply wrap_ok, writer_Write_ok in H1. apply wrap_ok, writer_Write_ok in H2.
  apply modify_ok in H. destruct H as [-> _].
  unfold stream in *. simpl. rewrite H2, H1, <- !app_assoc. reflexivity.
Qed.

Lemma writeRawRecord_ok t p w w' :
  writeRawRecord t p w = (w', Ok tt) ->
  stream w' = stream w ++ frame t p /\ blen p <= MaxRecordSize.
Proof.
  unfold writeRawRecord. destruct (blen p >? MaxRecordSize) eqn:Hb; [discriminate|].
  intros H. apply writeRecordData_ok in H. split; [exact H|]. lia.
Qed.

Lemma writeRecord_ok t ty s k v w w' :
  writeRecord t ty s k v w = (w', Ok tt) ->
  stream w' = stream w ++ frame t (entry_payload ty s k v)
  /\ entrySize ty k v <= MaxRecordSize.
Proof.
  unfold writeRecord. destruct (entrySize ty k v >? MaxRecordSize) eqn:Hb; [discriminate|].
  intros H. apply writeRawRecord_ok in H. split; [apply H|]. lia.
Qed.

Lemma same_stream_refl w : same_stream w w.
Proof. reflexivity. Qed.

Lemma same_stream_trans w1 w2 w3 :
  same_stream w1 w2 -> same_stream w2 w3 -> same_stream w1 w3.
Proof. unfold same_stream. congruence. Qed.

Create HintDb wal_stream.

Ltac preserves_stream :=
  repeat first
    [ solve [auto with wal_stream nocore]
    | apply preserves_bind; [exact same_stream_trans | | intros ?]
    | apply preserves_wrap
    | apply preserves_when; [exact same_stream_refl | ]
    | apply preserves_ret; exact same_stream_refl
    | apply preserves_fail; exact same_stream_refl
    | apply preserves_get; exact same_stream_refl
    | apply preserves_modify; intros ?; reflexivity
    | match goal with
      | |- preserves _ (if ?b then _ else _) => destruct b
      | |- preserves _ (match ?x with _ => _ end) => destruct x
      end ].

Lemma writer_Flush_stream : preserves same_stream writer_Flush.
Proof.
  intros w w' r. unfold writer_Flush, same_stream, stream.
  destruct (bufio.Flush (writer w) (file w)) as [[b f] e] eqn:Hf.
  intros H; inversion H; subst; simpl. eapply Flush_stream; eauto.
Qed.

Lemma file_Sync_data f f' r : file_Sync f = (f', r) -> fdata f' = fdata f.
Proof.
  unfold file_Sync, next_fault. destruct (fclosed f); [intros H; inversion H; auto|].
  destruct (faults f) as [|[|] l]; intros H; inversion H; reflexivity.
Qed.

Lemma file_Close_data f f' r : file_Close f = (f', r) -> fdata f' = fdata f.
Proof.
  unfold file_Close, next_fault. destruct (fclosed f); [intros H; inversion H; auto|].
  destruct (faults f) as [|[|] l]; intros H; inversion H; reflexivity.
Qed.

Lemma file_op_stream op :
  (forall f f' r, op f = (f', r) -> fdata f' = fdata f) ->
  preserves same_stream (file_op op).
Proof.
  intros Hop w w' r. unfold file_op, same_stream, stream.
  destruct (op (file w)) as [f e] eqn:Ho.
  intros H; inversion H; subst; simpl. rewrite (Hop _ _ _ Ho). reflexivity.
Qed.

Lemma file_Sync_stream : preserves same_stream (file_op file_Sync).
Proof. apply file_op_stream, file_Sync_data. Qed.

Lemma file_Close_stream : preserves same_stream (file_op file_Close).
Proof. apply file_op_stream, file_Close_data. Qed.

#[local] Hint Resolve writer_Flush_stream file_Sync_stream file_Close_stream : wal_stream.

Lemma check_status_stream : preserves same_stream check_status.
Proof. unfold check_status. preserves_stream. Qed.

#[local] Hint Resolve check_status_stream : wal_stream.

Lemma syncLocked_stream : preserves same_stream syncLocked.
Proof. unfold syncLocked. preserves_stream. Qed.

#[local] Hint Resolve syncLocked_stream : wal_stream.

Lemma maybeSync_stream : preserves same_stream maybeSync.
Proof. unfold maybeSync. cbv zeta. preserves_stream. Qed.

Lemma Close_stream : preserves same_stream Close.
Proof. unfold Close. preserves_stream. Qed.

Lemma writer_Flush_ok w w' :
  writer_Flush w = (w', Ok tt) -> fdata (file w') = stream w.
Proof.
  intros H. pose proof (writer_Flush_stream _ _ _ H) as Hs.
  unfold writer_Flush in H.
  destruct (bufio.Flush (writer w) (file w)) as [[b f] [e|]] eqn:Hf; inversion H; subst.
  apply Flush_ok in Hf. destruct Hf as [Hb _].
  unfold same_stream, stream in Hs. simpl in Hs. rewrite Hb, app_nil_r in Hs. exact Hs.
Qed.

(** A successful [Close] leaves every byte of the log in the file. *)
Lemma Close_ok w w' :
  status w <> WALStatusClosed ->
  Close w = (w', Ok tt) -> fdata (file w') = stream w /\ status w' = WALStatusClosed.
Proof.
  intros Hs H. unfold Close in H.
  apply bind_ok in H. destruct H as (w0 & a & Hg & H). inversion Hg; subst a w0; clear Hg.
  assert (Hc : (wrap "failed to flush WAL buffer during close" writer_Flush ;;
                wrap "failed to sync WAL file during close" (file_op file_Sync) ;;
                modify (set_status WALStatusRotating) ;;
                wrap "failed to close WAL file" (file_op file_Close) ;;
                modify (set_status WALStatusClosed)) w = (w', Ok tt)).
  { destruct (status w); try exact H. congruence. }
  clear H.
  apply bind_ok in Hc. destruct Hc as (w1 & [] & H1 & H).
  apply bind_ok in H. destruct H as (w2 & [] & H2 & H).
  apply bind_ok in H. destruct H as (w3 & [] & H3 & H).
  apply bind_ok in H. destruct H as (w4 & [] & H4 & H).
  apply wrap_ok in H1, H2, H4.
  apply modify_ok in H3, H. destruct H3 as [-> _]. destruct H as [-> _].
  apply writer_Flush_ok in H1.
  unfold file_op in H2, H4.
  destruct (file_Sync (file w1)) as [f2 e2] eqn:E2.
  destruct (file_Close (file (set_status WALStatusRotating w2))) as [f4 e4] eqn:E4.
  apply file_Sync_data in E2. apply file_Close_data in E4.
  inversion H2; subst w2. inversion H4; subst w4. simpl in *.
  split; [congruence | reflexivity].
Qed.

(** ** Fragmentation *)

Lemma MaxRecordSize_eq : MaxRecordSize = 32768.
Proof. reflexivity. Qed.

Lemma blen_firstn_full n l :
  0 <= n <= blen l -> blen (firstn (Z.to_nat n) l) = n.
Proof. unfold blen. intros H. rewrite length_firstn. lia. Qed.

Lemma blen_skipn n l :
  0 <= n <= blen l -> blen (skipn (Z.to_nat n) l) = blen l - n.
Proof. unfold blen. intros H. rewrite length_skipn. lia. Qed.

Lemma write_middle_ok n : forall rem w w' rem',
  write_middle n rem w = (w', Ok rem') ->
  exists ms,
    stream w' = stream w ++ concat (map (frame RecordTypeMiddle) ms)
    /\ Forall (fun m => blen m = MaxRecordSize) ms
    /\ rem = concat ms ++ rem'
    /\ (0 < blen rem -> 0 < blen rem')
    /\ ((length rem <= n)%nat -> blen rem' <= MaxRecordSize).
Proof.
  induction n as [|n IH]; intros rem w w' rem'; cbn [write_middle].
  - intros H. inversion H; subst. exists []. cbn [map concat]. rewrite app_nil_r.
    repeat split; auto. intros Hl. pose proof MaxRecordSize_eq. unfold blen. lia.
  - destruct (blen rem >? MaxRecordSize) eqn:Hb.
    + intros H. apply bind_ok in H. destruct H as (w1 & [] & H1 & H).
      apply writeRawRecord_ok in H1. destruct H1 as [Hs1 _].
      apply IH in H. destruct H as (ms & Hs & Hall & Hrem & Hpos & Hfuel).
      assert (Hgt : MaxRecordSize < blen rem) by lia.
      pose proof MaxRecordSize_eq as HM.
      exists (firstn (Z.to_nat MaxRecordSize) rem :: ms). repeat split.
      * rewrite Hs, Hs1. cbn [map concat]. rewrite <- !app_assoc. reflexivity.
      * constructor; [apply blen_firstn_full; lia | exact Hall].
      * cbn [concat]. rewrite <- app_assoc, <- Hrem. symmetry. apply firstn_skipn.
      * intros _. apply Hpos. rewrite blen_skipn; lia.
      * intros Hl. apply Hfuel. rewrite length_skipn.
        assert (Hk : (1 <= Z.to_nat MaxRecordSize)%nat) by (rewrite HM; lia).
        generalize dependent (Z.to_nat MaxRecordSize). intros k _ _ _ _ Hk. lia.
    + intros H. inversion H; subst. exists []. cbn [map concat]. rewrite app_nil_r.
      repeat split; auto. intros _. lia.
Qed.

(** As many key bytes as fit in the First fragment behind the 13 bytes of
    metadata. *)
Lemma keyInFirst_bounds key :
  let n := min (len key) (MaxRecordSize - (1 + 8 + 4)) in
  0 <= n <= len key /\ n <= MaxRecordSize - 13.
Proof.
  cbv zeta. unfold min, len. pose proof (blen_nonneg (data key)).
  rewrite MaxRecordSize_eq.
  destruct (_ <? _) eqn:E; lia.
Qed.

Lemma writeFragmentedRecord_ok ty s k v w w' :
  writeFragmentedRecord ty s k v w = (w', Ok tt) ->
  let n := Z.to_nat (min (len k) (MaxRecordSize - 13)) in
  exists ms l,
    stream w' = stream w
      ++ frame RecordTypeFirst
           ([ty] ++ le_split 8 s ++ le_split 4 (len k) ++ firstn n (data k))
      ++ concat (map (frame RecordTypeMiddle) ms)
      ++ (if blen l >? 0 then frame RecordTypeLast l else [])
    /\ Forall (fun m => blen m = MaxRecordSize) ms
    /\ blen l <= MaxRecordSize
    /\ (0 < blen (skipn n (data k) ++ value_section ty v) -> 0 < blen l)
    /\ concat ms ++ l = skipn n (data k) ++ value_section ty v.
Proof.
  unfold writeFragmentedRecord. cbv zeta.
  change (1 + 8 + 4) with 13.
  pose proof (keyInFirst_bounds k) as Hk. cbv zeta in Hk. change (1 + 8 + 4) with 13 in Hk.
  set (kf := min (len k) (MaxRecordSize - 13)) in *.
  assert (Hrem : (if kf <? len k then skipn (Z.to_nat kf) (data k) else [])
                 = skipn (Z.to_nat kf) (data k)).
  { destruct (kf <? len k) eqn:E; [reflexivity|].
    symmetry. apply skipn_all2. unfold len, blen in *. lia. }
  rewrite Hrem. set (rem := skipn (Z.to_nat kf) (data k) ++ value_section ty v).
  intros H.
  apply bind_ok in H. destruct H as (w1 & [] & H1 & H).
  apply bind_ok in H. destruct H as (w2 & l & H2 & H).
  apply writeRawRecord_ok in H1. destruct H1 as [Hs1 _].
  apply write_middle_ok in H2.
  destruct H2 as (ms & Hs2 & Hall & Hsplit & Hpos & Hfuel).
  exists ms, l. repeat split; auto.
  - unfold when_ in H. destruct (blen l >? 0).
    + apply writeRawRecord_ok in H. destruct H as [Hs3 _].
      rewrite Hs3, Hs2, Hs1, <- !app_assoc. reflexivity.
    + inversion H; subst. rewrite Hs2, Hs1, app_nil_r, <- !app_assoc. reflexivity.
Qed.

(** ** Writes succeed while the writer and the file are healthy *)

Lemma bind_run {A B} (c : M A) (k : A -> M B) w w1 a :
  c w = (w1, Ok a) -> bind c k w = k a w1.
Proof. intros H. unfold bind. rewrite H. reflexivity. Qed.

Lemma wrap_run {A} msg (c : M A) w w1 a :
  c w = (w1, Ok a) -> wrap msg c w = (w1, Ok a).
Proof. intros H. unfold wrap. rewrite H. reflexivity. Qed.

Lemma healthy_same_io w w' :
  writer w' = writer w -> file w' = file w -> healthy w -> healthy w'.
Proof. unfold healthy. intros -> ->. auto. Qed.

Lemma writer_Write_healthy p w :
  healthy w -> exists w', writer_Write p w = (w', Ok tt) /\ healthy w'.
Proof.
  intros H. unfold writer_Write.
  destruct (Write_healthy p _ _ H) as (b' & f' & Hw & H').
  rewrite Hw. eexists. split; [reflexivity|]. exact H'.
Qed.

Lemma writer_Flush_healthy w :
  healthy w -> exists w', writer_Flush w = (w', Ok tt) /\ healthy w'.
Proof.
  intros H. unfold writer_Flush.
  destruct (Flush_healthy _ _ H) as (f' & Hf & Hfa & Hcl).
  rewrite Hf. eexists. split; [reflexivity|]. repeat split; auto.
Qed.

Lemma file_Sync_healthy w :
  healthy w -> file_op file_Sync w = (w, Ok tt).
Proof.
  intros (He & Hf & Hc). unfold file_op, file_Sync, next_fault.
  rewrite Hc, Hf. destruct w; reflexivity.
Qed.

Lemma writeRecordData_healthy h p w :
  healthy w -> exists w', writeRecordData h p w = (w', Ok tt) /\ healthy w'.
Proof.
  intros H. unfold writeRecordData.
  destruct (writer_Write_healthy h w H) as (w1 & H1 & Hh1).
  rewrite (bind_run _ _ _ _ _ (wrap_run _ _ _ _ _ H1)).
  destruct (writer_Write_healthy p w1 Hh1) as (w2 & H2 & Hh2).
  rewrite (bind_run _ _ _ _ _ (wrap_run _ _ _ _ _ H2)).
  eexists. split; [reflexivity|]. exact Hh2.
Qed.

Lemma writeRawRecord_healthy t p w :
  healthy w -> blen p <= MaxRecordSize ->
  exists w', writeRawRecord t p w = (w', Ok tt) /\ healthy w'.
Proof.
  intros H Hp. unfold writeRawRecord.
  destruct (blen p >? MaxRecordSize) eqn:E; [lia|].
  apply writeRecordData_healthy, H.
Qed.

Lemma blen_le_split n z : blen (le_split n z) = Z.of_nat n.
Proof. unfold blen. rewrite length_le_split. reflexivity. Qed.

Lemma blen_value_section ty v :
  blen (value_section ty v) = if Byte.eqb ty OpTypeDelete then 0 else 4 + len v.
Proof.
  unfold value_section. destruct (Byte.eqb ty OpTypeDelete); [reflexivity|].
  rewrite blen_app, blen_le_split. reflexivity.
Qed.

Lemma blen_entry_payload ty s k v :
  blen (entry_payload ty s k v) = entrySize ty k v.
Proof.
  unfold entry_payload, entrySize.
  rewrite !blen_app, !blen_le_split, blen_value_section. unfold len.
  change (blen [ty]) with 1. lia.
Qed.

Lemma writeRecord_healthy t ty s k v w :
  healthy w -> entrySize ty k v <= MaxRecordSize ->
  exists w', writeRecord t ty s k v w = (w', Ok tt) /\ healthy w'.
Proof.
  intros H Hp. unfold writeRecord.
  destruct (entrySize ty k v >? MaxRecordSize) eqn:E; [lia|].
  apply writeRawRecord_healthy; [exact H|]. rewrite blen_entry_payload. exact Hp.
Qed.

Lemma write_middle_healthy n : forall rem w,
  healthy w -> exists w' rem', write_middle n rem w = (w', Ok rem') /\ healthy w'.
Proof.
  induction n as [|n IH]; intros rem w H; cbn [write_middle].
  - do 2 eexists. split; [reflexivity|exact H].
  - destruct (blen rem >? MaxRecordSize) eqn:E.
    + destruct (writeRawRecord_healthy RecordTypeMiddle
                  (firstn (Z.to_nat MaxRecordSize) rem) w H) as (w1 & H1 & Hh1).
      { rewrite blen_firstn_full; [lia|]. rewrite MaxRecordSize_eq in *. lia. }
      rewrite (bind_run _ _ _ _ _ H1). apply IH, Hh1.
    + do 2 eexists. split; [reflexivity|exact H].
Qed.

Lemma writeFragmentedRecord_healthy ty s k v w :
  healthy w ->
  exists w', writeFragmentedRecord ty s k v w = (w', Ok tt) /\ healthy w'.
Proof.
  intros H. unfold writeFragmentedRecord. cbv zeta.
  pose proof (keyInFirst_bounds k) as Hk. cbv zeta in Hk.
  set (kf := min (len k) (MaxRecordSize - (1 + 8 + 4))) in *.
  match goal with |- context [writeRawRecord RecordTypeFirst ?p] =>
    destruct (writeRawRecord_healthy RecordTypeFirst p w H) as (w1 & H1 & Hh1) end.
  { rewrite !blen_app, !blen_le_split. change (blen [ty]) with 1.
    rewrite blen_firstn_full by (unfold len in Hk; lia). lia. }
  rewrite (bind_run _ _ _ _ _ H1).
  match goal with |- context [write_middle ?n ?r] =>
    destruct (write_middle_healthy n r w1 Hh1) as (w2 & l & H2 & Hh2);
    pose proof (write_middle_ok _ _ _ _ _ H2) as (ms & _ & _ & _ & _ & Hl) end.
  rewrite (bind_run _ _ _ _ _ H2).
  unfold when_. destruct (blen l >? 0).
  - apply writeRawRecord_healthy; [exact Hh2|]. apply Hl. lia.
  - eexists. split; [reflexivity|exact Hh2].
Qed.

Lemma syncLocked_healthy w :
  healthy w -> status w = WALStatusActive ->
  exists w', syncLocked w = (w', Ok tt) /\ healthy w'.
Proof.
  intros H Hs. unfold syncLocked.
  rewrite (bind_run _ _ _ _ _ (check_status_active w Hs)).
  destruct (writer_Flush_healthy w H) as (w1 & H1 & Hh1).
  rewrite (bind_run _ _ _ _ _ (wrap_run _ _ _ _ _ H1)).
  rewrite (bind_run _ _ _ _ _ (wrap_run _ _ _ _ _ (file_Sync_healthy w1 Hh1))).
  eexists. split; [reflexivity|]. exact Hh1.
Qed.

Lemma maybeSync_healthy w :
  healthy w -> status w = WALStatusActive ->
  exists w', maybeSync w = (w', Ok tt) /\ healthy w'.
Proof.
  intros H Hs. unfold maybeSync. unfold bind at 1. unfold get. cbv zeta.
  unfold when_.
  destruct (match WALSyncMode (cfg w) with
            | SyncNone => false | SyncBatch => _ | SyncImmediate => true end).
  - apply syncLocked_healthy; assumption.
  - eexists. split; [reflexivity|exact H].
Qed.

Lemma write_entry_healthy ty s k v w :
  healthy w -> status w = WALStatusActive ->
  exists w', write_entry ty s k v w = (w', Ok s) /\ healthy w'.
Proof.
  intros H Hs. unfold write_entry.
  assert (Hw : exists w1,
             (if entrySize ty k v <=? MaxRecordSize
              then writeRecord RecordTypeFull ty s k v
              else writeFragmentedRecord ty s k v) w = (w1, Ok tt) /\ healthy w1).
  { destruct (entrySize ty k v <=? MaxRecordSize) eqn:E.
    - apply writeRecord_healthy; [exact H | lia].
    - apply writeFragmentedRecord_healthy, H. }
  destruct Hw as (w1 & H1 & Hh1).
  assert (Hm1 : same_meta w w1).
  { destruct (entrySize ty k v <=? MaxRecordSize);
      [eapply writeRecord_meta | eapply writeFragmentedRecord_meta]; eauto. }
  rewrite (bind_run _ _ _ _ _ H1).
  unfold bind at 1. cbn [modify].
  destruct (maybeSync_healthy (notify (OnWALEntryWritten (mkEntry s ty k v)) w1))
    as (w3 & H3 & Hh3).
  { exact Hh1. }
  { cbn. destruct Hm1 as (_ & _ & Hst & _). congruence. }
  rewrite (bind_run _ _ _ _ _ H3). eexists. split; [reflexivity|exact Hh3].
Qed.

(** ** The append calls, case by case *)

Lemma Append_cases ty k v w :
  Append ty k v w =
  match status w with
  | WALStatusClosed => (w, Err ErrWALClosed)
  | WALStatusRotating => (w, Err ErrWALRotating)
  | WALStatusActive =>
      if negb (valid_op ty) then (w, Err ErrInvalidOpType)
      else if nextSequence w >=? MaxSequenceNumber then (w, Err ErrSequenceOverflow)
      else write_entry ty (nextSequence w) k v
             (set_nextSequence (u64 (nextSequence w + 1))
                (warn_if_due (nextSequence w) w))
  end.
Proof.
  unfold Append, check_status. unfold bind at 1. unfold bind at 1. unfold get at 1.
  destruct (status w); try reflexivity. cbn [ret].
  destruct (negb (valid_op ty)); [reflexivity|].
  unfold bind at 1. unfold get at 1. cbv zeta.
  destruct (nextSequence w >=? MaxSequenceNumber); [reflexivity|].
  unfold warn_if_due, when_, bind, modify, ret.
  destruct (_ && _); reflexivity.
Qed.

Lemma AppendWithSequence_cases ty k v seq w :
  AppendWithSequence ty k v seq w =
  match status w with
  | WALStatusClosed => (w, Err ErrWALClosed)
  | WALStatusRotating => (w, Err ErrWALRotating)
  | WALStatusActive =>
      if negb (valid_op ty) then (w, Err ErrInvalidOpType)
      else if seq >=? MaxSequenceNumber then (w, Err ErrSequenceOverflow)
      else write_entry ty seq k v
             (if seq >=? nextSequence w
              then set_nextSequence (u64 (seq + 1)) (warn_if_due (u64 (seq + 1)) w)
              else w)
  end.
Proof.
  unfold AppendWithSequence, check_status. unfold bind at 1. unfold bind at 1.
  unfold get at 1.
  destruct (status w); try reflexivity. cbn [ret].
  destruct (negb (valid_op ty)); [reflexivity|].
  destruct (seq >=? MaxSequenceNumber); [reflexivity|]. cbv zeta.
  unfold bind at 1. unfold get at 1.
  destruct (seq >=? nextSequence w); [|reflexivity].
  unfold warn_if_due, when_, bind, modify, ret.
  destruct (_ && _); reflexivity.
Qed.

(** The tail of a non-empty batch append, once the start sequence is
    fixed. *)
Lemma AppendBatch_cases es w :
  AppendBatch es w =
  match status w with
  | WALStatusClosed => (w, Err ErrWALClosed)
  | WALStatusRotating => (w, Err ErrWALRotating)
  | WALStatusActive =>
      match es with
      | [] => (w, Ok (nextSequence w))
      | _ =>
          if nextSequence w >=? MaxSequenceNumber then (w, Err ErrSequenceOverflow)
          else
            (reserve_batch (batch_totalSize es) ;;
             write_batch (nextSequence w) es ;;
             modify (set_nextSequence (u64 (nextSequence w + 1))) ;;
             modify (notify (OnWALBatchWritten (nextSequence w) es)) ;;
             maybeSync ;;
             ret (nextSequence w))
              (warn_if_due (nextSequence w) w)
      end
  end.
Proof.
  unfold AppendBatch, check_status. unfold bind at 1. unfold bind at 1.
  unfold get at 1.
  destruct (status w); try reflexivity. cbn [ret].
  unfold bind at 1. unfold get at 1.
  destruct es as [|e es]; [reflexivity|]. cbv zeta.
  destruct (nextSequence w >=? MaxSequenceNumber); [reflexivity|].
  unfold warn_if_due. unfold bind at 1.
  destruct (_ && _); reflexivity.
Qed.

Lemma AppendBatchWithSequence_cases es seq w :
  AppendBatchWithSequence es seq w =
  match status w with
  | WALStatusClosed => (w, Err ErrWALClosed)
  | WALStatusRotating => (w, Err ErrWALRotating)
  | WALStatusActive =>
      match es with
      | [] => (w, Ok seq)
      | _ =>
          if seq >=? MaxSequenceNumber then (w, Err ErrSequenceOverflow)
          else
            (reserve_batch (batch_totalSize es) ;;
             write_batch seq es ;;
             w' <- get ;;
             when_ (u64 (seq + 1) >? nextSequence w')
                   (modify (set_nextSequence (u64 (seq + 1)))) ;;
             modify (notify (OnWALBatchWritten seq es)) ;;
             maybeSync ;;
             ret seq)
              (warn_if_due seq w)
      end
  end.
Proof.
  unfold AppendBatchWithSequence, check_status. unfold bind at 1. unfold bind at 1.
  unfold get at 1.
  destruct (status w); try reflexivity. cbn [ret].
  destruct es as [|e es]; [reflexivity|]. cbv zeta.
  destruct (seq >=? MaxSequenceNumber); [reflexivity|].
  unfold bind at 1. unfold get at 1.
  unfold warn_if_due. unfold bind at 1.
  destruct (_ && _); reflexivity.
Qed.

Lemma Append_ok_inv ty k v w w' seq :
  Append ty k v w = (w', Ok seq) ->
  valid_op ty = true
  /\ (nextSequence w >=? MaxSequenceNumber) = false
  /\ write_entry ty (nextSequence w) k v
       (set_nextSequence (u64 (nextSequence w + 1)) (warn_if_due (nextSequence w) w))
     = (w', Ok seq).
Proof.
  rewrite Append_cases.
  destruct (status w); try discriminate.
  destruct (valid_op ty); [|discriminate]. cbn [negb].
  destruct (nextSequence w >=? MaxSequenceNumber); [discriminate|]. auto.
Qed.

Lemma AppendWithSequence_ok_inv ty k v s w w' seq :
  AppendWithSequence ty k v s w = (w', Ok seq) ->
  valid_op ty = true
  /\ (s >=? MaxSequenceNumber) = false
  /\ write_entry ty s k v
       (if s >=? nextSequence w
        then set_nextSequence (u64 (s + 1)) (warn_if_due (u64 (s + 1)) w)
        else w)
     = (w', Ok seq).
Proof.
  rewrite AppendWithSequence_cases.
  destruct (status w); try discriminate.
  destruct (valid_op ty); [|discriminate]. cbn [negb].
  destruct (s >=? MaxSequenceNumber); [discriminate|]. auto.
Qed.

(** ** The image of an entry and of a batch in the log *)

Lemma rest_nonempty ty k v :
  MaxRecordSize < entrySize ty k v ->
  0 < blen (skipn (Z.to_nat (min (len k) (MaxRecordSize - 13))) (data k)
            ++ value_section ty v).
Proof.
  intros H. pose proof (keyInFirst_bounds k) as Hk. cbv zeta in Hk.
  change (1 + 8 + 4) with 13 in Hk.
  set (kf := min (len k) (MaxRecordSize - 13)) in *.
  rewrite blen_app, blen_skipn by (unfold len in Hk; lia).
  rewrite blen_value_section. unfold entrySize in H. fold (len k).
  unfold kf, min in *. destruct (len k <? MaxRecordSize - 13) eqn:E;
    destruct (Byte.eqb ty OpTypeDelete); pose proof (blen_nonneg (data v));
    unfold len in *; lia.
Qed.

Lemma write_entry_ok ty s k v w w' r :
  write_entry ty s k v w = (w', Ok r) ->
  r = s /\ exists out, stream w' = stream w ++ out /\ entry_image ty s k v out.
Proof.
  unfold write_entry. intros H.
  apply bind_ok in H. destruct H as (w1 & [] & H1 & H).
  apply bind_ok in H. destruct H as (w2 & [] & H2 & H).
  apply bind_ok in H. destruct H as (w3 & [] & H3 & H).
  inversion H; subst r w3. split; [reflexivity|].
  apply modify_ok in H2. destruct H2 as [-> _].
  apply maybeSync_stream in H3. unfold same_stream in H3.
  assert (Hn : stream (notify (OnWALEntryWritten (mkEntry s ty k v)) w1) = stream w1)
    by reflexivity.
  rewrite H3, Hn. unfold entry_image.
  destruct (entrySize ty k v <=? MaxRecordSize) eqn:E.
  - apply writeRecord_ok in H1. destruct H1 as [Hs _]. eauto.
  - apply writeFragmentedRecord_ok in H1. cbv zeta in H1.
    destruct H1 as (ms & l & Hs & Hall & Hl & Hpos & Hsplit).
    assert (Hlpos : 0 < blen l) by (apply Hpos, rest_nonempty; lia).
    destruct (blen l >? 0) eqn:El; [|lia].
    eexists. split; [exact Hs|].
    exists ms, l. repeat split; auto.
Qed.

Lemma write_batch_ok s es : forall w w',
  write_batch s es w = (w', Ok tt) ->
  stream w' = stream w ++ batch_image s es
  /\ Forall (fun e => entrySize (Type_ e) (Key e) (Value e) <= MaxRecordSize) es.
Proof.
  induction es as [|e es IH]; intros w w'; cbn [write_batch].
  - intros H. inversion H; subst. unfold batch_image. simpl.
    rewrite app_nil_r. auto.
  - intros H. apply bind_ok in H. destruct H as (w1 & [] & H1 & H).
    apply wrap_ok, writeRecord_ok in H1. destruct H1 as [Hs1 Hsz].
    apply IH in H. destruct H as [Hs Hall].
    split; [|constructor; assumption].
    rewrite Hs, Hs1. unfold batch_image. cbn [map concat].
    rewrite <- !app_assoc. reflexivity.
Qed.

Lemma reserve_batch_stream n : preserves same_stream (reserve_batch n).
Proof.
  intros w w' r. unfold reserve_batch. unfold bind at 1. unfold get at 1. cbv zeta.
  unfold when_. destruct (n >? _); [|intros H; inversion H; reflexivity].
  unfold bind at 1.
  destruct (wrap _ writer_Flush w) as [w1 [[]|e]] eqn:Hf.
  - apply wrap_ok in Hf. pose proof (writer_Flush_stream _ _ _ Hf) as Hs.
    destruct (n >? bufio.Size (writer w)); [|intros H; inversion H; subst; exact Hs].
    unfold bind, get, modify. intros H; inversion H; subst.
    unfold same_stream in *. rewrite <- Hs.
    unfold writer_Flush in Hf.
    destruct (bufio.Flush (writer w) (file w)) as [[b f] [e|]] eqn:E; inversion Hf; subst.
    apply Flush_ok in E. destruct E as [Hb _].
    unfold stream. simpl. rewrite Hb. reflexivity.
  - intros H; inversion H; subst.
    unfold wrap in Hf. destruct (writer_Flush w) as [w2 [a|e']] eqn:Hf'; inversion Hf; subst.
    eapply writer_Flush_stream; eauto.
Qed.

(** ** Sequence numbers *)

Lemma u64_small z : 0 <= z < 2 ^ 64 -> u64 z = z.
Proof. intros H. unfold u64. apply Z.mod_small. exact H. Qed.

Lemma MaxSequenceNumber_eq : MaxSequenceNumber = 18446744073708551615.
Proof. reflexivity. Qed.

Lemma SequenceWarningThreshold_eq : SequenceWarningThreshold = 18446744073699551615.
Proof. reflexivity. Qed.

Lemma u64_succ_below_max n :
  0 <= n -> (n >=? MaxSequenceNumber) = false -> u64 (n + 1) = n + 1.
Proof.
  intros H0 H. apply u64_small. rewrite MaxSequenceNumber_eq in H.
  change (2 ^ 64) with 18446744073709551616. lia.
Qed.

Lemma nextSequence_warn_if_due a w :
  nextSequence (warn_if_due a w) = nextSequence w.
Proof. unfold warn_if_due. destruct (_ && _); reflexivity. Qed.

Lemma status_warn_if_due a w : status (warn_if_due a w) = status w.
Proof. unfold warn_if_due. destruct (_ && _); reflexivity. Qed.

Lemma stream_warn_if_due a w : stream (warn_if_due a w) = stream w.
Proof. unfold warn_if_due. destruct (_ && _); reflexivity. Qed.

(** Whatever [Append] returns, [nextSequence] stays or goes up by one; when
    it succeeds, it returns the old [nextSequence], which went up by one. *)
Lemma Append_nextSequence ty k v w w' r :
  0 <= nextSequence w ->
  Append ty k v w = (w', r) ->
  nextSequence w <= nextSequence w'
  /\ forall seq, r = Ok seq ->
       seq = nextSequence w /\ nextSequence w' = nextSequence w + 1.
Proof.
  intros H0. rewrite Append_cases.
  destruct (status w); try (intros H; inversion H; subst; split; [lia | discriminate]).
  destruct (negb (valid_op ty)); [intros H; inversion H; subst; split; [lia | discriminate]|].
  destruct (nextSequence w >=? MaxSequenceNumber) eqn:E;
    [intros H; inversion H; subst; split; [lia | discriminate]|].
  intros H.
  pose proof (write_entry_meta _ _ _ _ _ _ _ H) as (_ & Hn & _).
  cbn [nextSequence set_nextSequence] in Hn.
  rewrite (u64_succ_below_max _ H0 E) in Hn.
  split; [lia|]. intros seq ->.
  apply write_entry_ok in H. destruct H as [-> _]. auto.
Qed.

Lemma append_seqs_sorted calls : forall w,
  0 <= nextSequence w ->
  Forall (fun seq => nextSequence w <= seq) (append_seqs calls w)
  /\ StronglySorted Z.lt (append_seqs calls w).
Proof.
  induction calls as [|[[ty k] v] rest IH]; intros w H0; cbn [append_seqs].
  - split; constructor.
  - destruct (Append ty k v w) as [w' r] eqn:Ha.
    destruct (Append_nextSequence _ _ _ _ _ _ H0 Ha) as [Hle Hok].
    destruct (IH w' ltac:(lia)) as [Hlow Hsorted].
    destruct r as [seq|e].
    + destruct (Hok seq eq_refl) as [-> Hn]. split.
      * constructor; [lia|]. eapply Forall_impl; [|exact Hlow]. simpl. intros; lia.
      * constructor; [exact Hsorted|].
        eapply Forall_impl; [|exact Hlow]. simpl. intros; lia.
    + split; [|exact Hsorted].
      eapply Forall_impl; [|exact Hlow]. simpl. intros; lia.
Qed.

Lemma AppendBatch_ok es w w' seq :
  0 <= nextSequence w -> es <> [] ->
  AppendBatch es w = (w', Ok seq) ->
  seq = nextSequence w
  /\ nextSequence w' = nextSequence w + 1
  /\ stream w' = stream w ++ batch_image (nextSequence w) es
  /\ Forall (fun e => entrySize (Type_ e) (Key e) (Value e) <= MaxRecordSize) es
  /\ nextSequence w < MaxSequenceNumber.
Proof.
  intros H0 Hne. rewrite AppendBatch_cases.
  destruct (status w); try discriminate.
  destruct es as [|e0 es0]; [congruence|]. set (es := e0 :: es0) in *.
  destruct (nextSequence w >=? MaxSequenceNumber) eqn:E; [discriminate|].
  intros H.
  apply bind_ok in H. destruct H as (w1 & [] & H1 & H).
  apply bind_ok in H. destruct H as (w2 & [] & H2 & H).
  apply bind_ok in H. destruct H as (w3 & [] & H3 & H).
  apply bind_ok in H. destruct H as (w4 & [] & H4 & H).
  apply bind_ok in H. destruct H as (w5 & [] & H5 & H).
  inversion H; subst seq w5.
  apply modify_ok in H3, H4. destruct H3 as [-> _]. destruct H4 as [-> _].
  pose proof (maybeSync_meta _ _ _ H5) as (_ & Hn5 & _).
  pose proof (maybeSync_stream _ _ _ H5) as Hs5.
  pose proof (reserve_batch_stream _ _ _ _ H1) as Hs1.
  apply write_batch_ok in H2. destruct H2 as [Hs2 Hall].
  unfold same_stream in *. cbn in Hn5.
  rewrite (u64_succ_below_max _ H0 E) in Hn5.
  repeat split; auto; try lia.
  rewrite Hs5. change (stream (notify _ (set_nextSequence _ w2))) with (stream w2).
  rewrite Hs2, Hs1, stream_warn_if_due. reflexivity.
Qed.

(** C1, as the code has it. Every successful [Append] returns the
    [nextSequence] held before the call and leaves it one higher, so the
    sequence numbers returned by the successful calls of any run of
    single-entry appends are strictly increasing. Every successful
    [AppendBatch] of a non-empty batch returns [startSeq], the
    [nextSequence] at the start of the call, writes every entry of the
    batch as a Full record under [startSeq], and leaves [nextSequence] at
    [startSeq + 1]. *)
Theorem append_sequence_discipline (w : WAL) :
  0 <= nextSequence w ->
  (forall entryType key value w' seq,
      Append entryType key value w = (w', Ok seq) ->
      seq = nextSequence w /\ nextSequence w' = nextSequence w + 1)
  /\ (forall calls, StronglySorted Z.lt (append_seqs calls w))
  /\ (forall entries w' seq,
         entries <> [] ->
         AppendBatch entries w = (w', Ok seq) ->
         seq = nextSequence w
         /\ nextSequence w' = seq + 1
         /\ stream w' = stream w ++ batch_image seq entries).
Proof.
  intros H0. split; [|split].
  - intros ty k v w' seq Ha.
    destruct (Append_nextSequence _ _ _ _ _ _ H0 Ha) as [_ Hok]. apply Hok. reflexivity.
  - intros calls. apply append_seqs_sorted, H0.
  - intros es w' seq Hne Ha.
    destruct (AppendBatch_ok _ _ _ _ H0 Hne Ha) as (-> & Hn & Hs & _). auto.
Qed.

Lemma append_sequence_discipline_witness :
  let w0 := NewWAL (mkConfig SyncImmediate 0 1048576 4) [] in
  let batch := [mkEntry 0 OpTypePut (Some [Byte.x62]) (Some [Byte.x32]);
                mkEntry 0 OpTypeDelete (Some [Byte.x63]) None] in
  exists w1 w2,
    Append OpTypePut (Some [Byte.x61]) (Some [Byte.x31]) w0 = (w1, Ok 1)
    /\ nextSequence w1 = 2
    /\ AppendBatch batch w1 = (w2, Ok 2)
    /\ nextSequence w2 = 3.
Proof.
  intros w0 batch.
  pose (w1 := fst (Append OpTypePut (Some [Byte.x61]) (Some [Byte.x31]) w0)).
  pose (w2 := fst (AppendBatch batch w1)).
  assert (E1 : Append OpTypePut (Some [Byte.x61]) (Some [Byte.x31]) w0 = (w1, Ok 1))
    by (vm_compute; reflexivity).
  assert (E2 : AppendBatch batch w1 = (w2, Ok 2)) by (vm_compute; reflexivity).
  clearbody w2 w1.
  assert (H0 : 0 <= nextSequence w0) by (simpl; lia).
  destruct (append_sequence_discipline w0 H0) as (HA & _ & _).
  destruct (HA _ _ _ _ _ E1) as [_ Hn1].
  assert (H1 : 0 <= nextSequence w1) by (rewrite Hn1; simpl; lia).
  destruct (append_sequence_discipline w1 H1) as (_ & _ & HB).
  assert (Hne : batch <> []) by discriminate.
  destruct (HB batch _ _ Hne E2) as (_ & Hn2 & _).
  exists w1, w2.
  split; [exact E1|]. split; [exact Hn1|]. split; [exact E2|exact Hn2].
Defined.

(** C1, as stated, fails on the empty batch: [AppendBatch] returns the
    current [nextSequence], here 1, and leaves it at 1, not at 2. *)
Lemma empty_batch_does_not_advance :
  let w := NewWAL (mkConfig SyncNone 0 1048576 4) [] in
  exists w', AppendBatch [] w = (w', Ok 1) /\ nextSequence w' <> 1 + 1.
Proof.
  intros w. exists w. split; [reflexivity|]. simpl. lia.
Qed.

(** ** Overflow guard and warning *)

Lemma preserves_weaken {A} (R R' : WAL -> WAL -> Prop) (c : M A) :
  (forall w w', R w w' -> R' w w') -> preserves R c -> preserves R' c.
Proof. intros HR Hc w w' r H. eapply HR, Hc, H. Qed.

Lemma same_meta_warn w w' : same_meta w w' -> same_warn w w'.
Proof. intros (_ & _ & _ & H1 & H2). split; assumption. Qed.

Lemma same_warn_refl w : same_warn w w.
Proof. split; reflexivity. Qed.

Lemma same_warn_trans w1 w2 w3 : same_warn w1 w2 -> same_warn w2 w3 -> same_warn w1 w3.
Proof. unfold same_warn. intros [? ?] [? ?]. split; congruence. Qed.

Ltac preserves_warn :=
  repeat first
    [ solve [apply (preserves_weaken same_meta same_warn _ same_meta_warn);
             auto with wal_meta nocore]
    | apply preserves_bind; [exact same_warn_trans | | intros ?]
    | apply preserves_wrap
    | apply preserves_when; [exact same_warn_refl | ]
    | apply preserves_ret; exact same_warn_refl
    | apply preserves_fail; exact same_warn_refl
    | apply preserves_get; exact same_warn_refl
    | apply preserves_modify; intros ?; split; reflexivity
    | match goal with
      | |- preserves _ (if ?b then _ else _) => destruct b
      | |- preserves _ (match ?x with _ => _ end) => destruct x
      end ].

Lemma warn_step_refl w : warn_step w w.
Proof. left. apply same_warn_refl. Qed.

Lemma warn_step_same w1 w2 w3 : warn_step w1 w2 -> same_warn w2 w3 -> warn_step w1 w3.
Proof.
  intros [H | (Hf & Ht & x & Hx)] [Hf3 Hw3].
  - left. eapply same_warn_trans; eauto. split; assumption.
  - right. repeat split; try congruence. exists x. congruence.
Qed.

Lemma warn_step_warn_if_due a w : warn_step w (warn_if_due a w).
Proof.
  unfold warn_if_due. destruct (a >=? SequenceWarningThreshold); simpl;
    [|apply warn_step_refl].
  destruct (overflowWarning w) eqn:E; simpl; [apply warn_step_refl|].
  right. repeat split; auto. exists a. reflexivity.
Qed.

Lemma write_entry_warn ty s k v : preserves same_warn (write_entry ty s k v).
Proof. preserves_warn. Qed.

Lemma Append_warn_step ty k v w : warn_step w (fst (Append ty k v w)).
Proof.
  rewrite Append_cases.
  destruct (status w); try apply warn_step_refl.
  destruct (negb (valid_op ty)); [apply warn_step_refl|].
  destruct (_ >=? _); [apply warn_step_refl|].
  match goal with |- context [write_entry ?a ?b ?c ?d ?x] =>
    destruct (write_entry a b c d x) as [w' r] eqn:E end.
  apply write_entry_warn in E. simpl.
  eapply warn_step_same; [|exact E].
  eapply warn_step_same; [apply warn_step_warn_if_due|]. split; reflexivity.
Qed.

Lemma AppendWithSequence_warn_step ty k v s w :
  warn_step w (fst (AppendWithSequence ty k v s w)).
Proof.
  rewrite AppendWithSequence_cases.
  destruct (status w); try apply warn_step_refl.
  destruct (negb (valid_op ty)); [apply warn_step_refl|].
  destruct (s >=? MaxSequenceNumber); [apply warn_step_refl|].
  match goal with |- context [write_entry ?a ?b ?c ?d ?x] =>
    destruct (write_entry a b c d x) as [w' r] eqn:E end.
  apply write_entry_warn in E. simpl.
  eapply warn_step_same; [|exact E].
  destruct (s >=? nextSequence w); [|apply warn_step_refl].
  eapply warn_step_same; [apply warn_step_warn_if_due|]. split; reflexivity.
Qed.

Lemma AppendBatch_warn_step es w : warn_step w (fst (AppendBatch es w)).
Proof.
  rewrite AppendBatch_cases.
  destruct (status w); try apply warn_step_refl.
  destruct es as [|e es]; [apply warn_step_refl|].
  destruct (_ >=? _); [apply warn_step_refl|].
  match goal with |- warn_step _ (fst (?c ?x)) =>
    assert (Hp : preserves same_warn c) by preserves_warn;
    destruct (c x) as [w' r] eqn:E end.
  apply Hp in E. simpl.
  eapply warn_step_same; [apply warn_step_warn_if_due | exact E].
Qed.

Lemma AppendBatchWithSequence_warn_step es s w :
  warn_step w (fst (AppendBatchWithSequence es s w)).
Proof.
  rewrite AppendBatchWithSequence_cases.
  destruct (status w); try apply warn_step_refl.
  destruct es as [|e es]; [apply warn_step_refl|].
  destruct (_ >=? _); [apply warn_step_refl|].
  match goal with |- warn_step _ (fst (?c ?x)) =>
    assert (Hp : preserves same_warn c) by preserves_warn;
    destruct (c x) as [w' r] eqn:E end.
  apply Hp in E. simpl.
  eapply warn_step_same; [apply warn_step_warn_if_due | exact E].
Qed.

Lemma AppendExactBytes_warn raw s : preserves same_warn (AppendExactBytes raw s).
Proof. unfold AppendExactBytes. cbv zeta. preserves_warn. Qed.

Lemma Close_warn : preserves same_warn Close.
Proof. unfold Close. preserves_warn. Qed.

Lemma UpdateNextSequence_warn_step n w : warn_step w (fst (UpdateNextSequence n w)).
Proof.
  unfold UpdateNextSequence, bind, get, when_, modify, ret.
  destruct (n >? nextSequence w); [|apply warn_step_refl].
  destruct (n >=? SequenceWarningThreshold); simpl; [|left; split; reflexivity].
  destruct (overflowWarning w) eqn:E; simpl; [left; split; reflexivity|].
  right. repeat split; auto. exists n. reflexivity.
Qed.

Lemma after_warn_step c w : warn_step w (after c w).
Proof.
  destruct c; cbn [after].
  - apply Append_warn_step.
  - apply AppendWithSequence_warn_step.
  - left. destruct (AppendExactBytes rawBytes seqNum w) eqn:E.
    eapply AppendExactBytes_warn; eauto.
  - apply AppendBatch_warn_step.
  - apply AppendBatchWithSequence_warn_step.
  - left. destruct (Sync w) eqn:E. eapply same_meta_warn, syncLocked_meta; eauto.
  - left. destruct (Close w) eqn:E. eapply Close_warn; eauto.
  - left. split; reflexivity.
  - left. split; reflexivity.
  - apply UpdateNextSequence_warn_step.
  - apply warn_step_refl.
Qed.

Lemma after_all_one_warning calls : forall w,
  (overflowWarning w = false -> warnings w = []) ->
  (length (warnings w) <= 1)%nat ->
  (overflowWarning (after_all calls w) = false -> warnings (after_all calls w) = [])
  /\ (length (warnings (after_all calls w)) <= 1)%nat.
Proof.
  unfold after_all.
  induction calls as [|c calls IH]; intros w Hclear Hlen; cbn [fold_left].
  - auto.
  - apply IH.
    + destruct (after_warn_step c w) as [[Hf Hw] | (Hf & Ht & x & Hx)].
      * rewrite Hf, Hw. exact Hclear.
      * congruence.
    + destruct (after_warn_step c w) as [[Hf Hw] | (Hf & Ht & x & Hx)].
      * rewrite Hw. exact Hlen.
      * rewrite Hx, (Hclear Hf). simpl. lia.
Qed.

Lemma healthy_warn_if_due a w : healthy w -> healthy (warn_if_due a w).
Proof. unfold warn_if_due. destruct (_ && _); auto. Qed.

Lemma reserve_batch_healthy n w :
  healthy w -> exists w', reserve_batch n w = (w', Ok tt) /\ healthy w'.
Proof.
  intros H. unfold reserve_batch. unfold bind at 1. unfold get at 1. cbv zeta.
  unfold when_. destruct (n >? _); [|eexists; split; [reflexivity|exact H]].
  destruct (writer_Flush_healthy w H) as (w1 & H1 & Hh1).
  rewrite (bind_run _ _ _ _ _ (wrap_run _ _ _ _ _ H1)).
  destruct (n >? bufio.Size (writer w)); [|eexists; split; [reflexivity|exact Hh1]].
  unfold bind, get, modify. eexists. split; [reflexivity|].
  destruct Hh1 as (_ & Hf & Hc). repeat split; assumption.
Qed.

Lemma write_batch_healthy s es : forall w,
  healthy w ->
  Forall (fun e => entrySize (Type_ e) (Key e) (Value e) <= MaxRecordSize) es ->
  exists w', write_batch s es w = (w', Ok tt) /\ healthy w'.
Proof.
  induction es as [|e es IH]; intros w H Hall; cbn [write_batch].
  - eexists. split; [reflexivity|exact H].
  - inversion Hall as [|? ? He Hes]; subst.
    destruct (writeRecord_healthy RecordTypeFull (Type_ e) s (Key e) (Value e) w H He)
      as (w1 & H1 & Hh1).
    rewrite (bind_run _ _ _ _ _ (wrap_run _ _ _ _ _ H1)). apply IH; assumption.
Qed.

Lemma AppendBatch_healthy es w :
  status w = WALStatusActive -> es <> [] ->
  (nextSequence w >=? MaxSequenceNumber) = false -> healthy w ->
  Forall (fun e => entrySize (Type_ e) (Key e) (Value e) <= MaxRecordSize) es ->
  exists w', AppendBatch es w = (w', Ok (nextSequence w))
             /\ same_warn (warn_if_due (nextSequence w) w) w'.
Proof.
  intros Hs Hne Hlt H Hall. rewrite AppendBatch_cases, Hs.
  destruct es as [|e0 es0]; [congruence|]. set (es := e0 :: es0) in *.
  rewrite Hlt.
  match goal with |- exists w', ?c ?x = _ /\ _ =>
    assert (Hp : preserves same_warn c) by preserves_warn end.
  set (w0 := warn_if_due (nextSequence w) w) in *.
  assert (Hh0 : healthy w0) by (apply healthy_warn_if_due, H).
  assert (Hs0 : status w0 = WALStatusActive) by (unfold w0; rewrite status_warn_if_due; exact Hs).
  destruct (reserve_batch_healthy (batch_totalSize es) w0 Hh0) as (w1 & H1 & Hh1).
  pose proof (reserve_batch_meta _ _ _ _ H1) as (_ & _ & Hs1 & _).
  destruct (write_batch_healthy (nextSequence w) es w1 Hh1 Hall) as (w2 & H2 & Hh2).
  pose proof (write_batch_meta _ _ _ _ _ H2) as (_ & _ & Hs2 & _).
  match goal with |- exists w', ?c ?x = _ /\ _ =>
    destruct (c x) as [w' r] eqn:E end.
  pose proof (Hp _ _ _ E) as Hw.
  rewrite (bind_run _ _ _ _ _ H1), (bind_run _ _ _ _ _ H2) in E.
  unfold bind at 1 in E. cbn [modify] in E.
  unfold bind at 1 in E. cbn [modify] in E.
  match type of E with bind maybeSync _ ?x = _ =>
    destruct (maybeSync_healthy x) as (w3 & H3 & Hh3) end.
  { exact Hh2. }
  { cbn. congruence. }
  rewrite (bind_run _ _ _ _ _ H3) in E. inversion E; subst.
  eexists. split; [reflexivity|exact Hw].
Qed.

Lemma AppendBatchWithSequence_healthy es seq w :
  status w = WALStatusActive -> es <> [] ->
  (seq >=? MaxSequenceNumber) = false -> healthy w ->
  Forall (fun e => entrySize (Type_ e) (Key e) (Value e) <= MaxRecordSize) es ->
  exists w', AppendBatchWithSequence es seq w = (w', Ok seq).
Proof.
  intros Hs Hne Hlt H Hall. rewrite AppendBatchWithSequence_cases, Hs.
  destruct es as [|e0 es0]; [congruence|]. set (es := e0 :: es0) in *.
  rewrite Hlt.
  set (w0 := warn_if_due seq w) in *.
  assert (Hh0 : healthy w0) by (apply healthy_warn_if_due, H).
  assert (Hs0 : status w0 = WALStatusActive) by (unfold w0; rewrite status_warn_if_due; exact Hs).
  destruct (reserve_batch_healthy (batch_totalSize es) w0 Hh0) as (w1 & H1 & Hh1).
  pose proof (reserve_batch_meta _ _ _ _ H1) as (_ & _ & Hs1 & _).
  destruct (write_batch_healthy seq es w1 Hh1 Hall) as (w2 & H2 & Hh2).
  pose proof (write_batch_meta _ _ _ _ _ H2) as (_ & _ & Hs2 & _).
  rewrite (bind_run _ _ _ _ _ H1), (bind_run _ _ _ _ _ H2).
  unfold bind at 1. unfold get at 1.
  assert (Hb : exists w2', when_ (u64 (seq + 1) >? nextSequence w2)
                             (modify (set_nextSequence (u64 (seq + 1)))) w2 = (w2', Ok tt)
                           /\ healthy w2' /\ status w2' = status w2).
  { unfold when_. destruct (_ >? _); eexists; (split; [reflexivity|]); auto. }
  destruct Hb as (w2' & Hb & Hh2' & Hs2').
  rewrite (bind_run _ _ _ _ _ Hb).
  unfold bind at 1. cbn [modify].
  match goal with |- exists _, bind maybeSync _ ?x = _ =>
    destruct (maybeSync_healthy x) as (w3 & H3 & Hh3) end.
  { exact Hh2'. }
  { cbn. congruence. }
  rewrite (bind_run _ _ _ _ _ H3). eexists. reflexivity.
Qed.



(** ** Full records and fragments *)

(** C6. [MaxRecordSize] is 32 KiB. On an Active WAL with healthy I/O an
    [Append] with a valid op below the sequence cap returns the sequence
    number it assigned. Whenever [Append] returns one, it has added to the
    log: exactly one Full record holding the whole payload when the
    encoded entry (op 1 byte, sequence number 8, key length 4, key, and
    for every op but Delete value length 4 and value) is at most
    [MaxRecordSize]; and otherwise a First record with the metadata prefix
    and as many key bytes as fit, then the rest of the key followed by the
    value length and the value, cut into Middle records of exactly
    [MaxRecordSize] bytes and one closing Last record with what remains. *)
Theorem append_fragmentation (entryType : byte) (key value : slice) (w : WAL) :
  MaxRecordSize = 32 * 1024
  /\ entrySize entryType key value
     = 1 + 8 + 4 + len key
       + (if Byte.eqb entryType OpTypeDelete then 0 else 4 + len value)
  /\ (status w = WALStatusActive -> valid_op entryType = true ->
      nextSequence w < MaxSequenceNumber -> healthy w ->
      exists w', Append entryType key value w = (w', Ok (nextSequence w)))
  /\ (forall w' seq,
        Append entryType key value w = (w', Ok seq) ->
        exists out,
          stream w' = stream w ++ out
          /\ (entrySize entryType key value <= MaxRecordSize ->
              out = frame RecordTypeFull (entry_payload entryType seq key value))
          /\ (MaxRecordSize < entrySize entryType key value ->
              fragmented entryType seq key value out)).
Proof.
  split; [reflexivity|]. split; [reflexivity|]. split.
  - intros Hs Hv Hlt H.
    assert (Hlt' : (nextSequence w >=? MaxSequenceNumber) = false) by lia.
    rewrite Append_cases, Hs, Hv, Hlt'. simpl negb. cbv iota.
    match goal with |- context [write_entry ?a ?b ?c ?d ?x] =>
      destruct (write_entry_healthy a b c d x) as (w' & Hw & _) end.
    { apply (healthy_warn_if_due (nextSequence w)) in H. exact H. }
    { cbn. rewrite status_warn_if_due. exact Hs. }
    exists w'. exact Hw.
  - intros w' seq Ha. apply Append_ok_inv in Ha. destruct Ha as (_ & _ & Hw).
    apply write_entry_ok in Hw. destruct Hw as (-> & out & Hst & Himg).
    exists out. split.
    + rewrite Hst. change (stream (set_nextSequence _ ?x)) with (stream x).
      rewrite stream_warn_if_due. reflexivity.
    + unfold entry_image in Himg.
      destruct (entrySize entryType key value <=? MaxRecordSize) eqn:E; split; intros Hsz;
        try lia; exact Himg.
Qed.

Lemma append_fragmentation_witness :
  let w := NewWAL (mkConfig SyncNone 0 1048576 4) [] in
  let key := Some [Byte.x6b; Byte.x31] in
  let value := Some [Byte.x76] in
  exists w',
    Append OpTypePut key value w = (w', Ok 1)
    /\ stream w' = frame RecordTypeFull (entry_payload OpTypePut 1 key value).
Proof.
  intros w key value.
  assert (Hs : status w = WALStatusActive) by reflexivity.
  assert (Hv : valid_op OpTypePut = true) by reflexivity.
  assert (Hlt : nextSequence w < MaxSequenceNumber)
    by (simpl; rewrite MaxSequenceNumber_eq; lia).
  assert (Hh : healthy w) by (repeat split; reflexivity).
  destruct (append_fragmentation OpTypePut key value w) as (_ & _ & Hruns & Himage).
  destruct (Hruns Hs Hv Hlt Hh) as (w' & Ha).
  destruct (Himage w' _ Ha) as (out & Hst & Hfull & _).
  exists w'. split; [exact Ha|].
  rewrite Hst. simpl stream. apply Hfull. vm_compute. discriminate.
Defined.

(** ** Appends with a caller-supplied sequence number *)

Lemma AppendWithSequence_nextSequence ty k v seq w w' r :
  0 <= seq ->
  AppendWithSequence ty k v seq w = (w', Ok r) ->
  r = seq /\ nextSequence w' = Z.max (nextSequence w) (seq + 1).
Proof.
  intros H0. rewrite AppendWithSequence_cases.
  destruct (status w); try discriminate.
  destruct (negb (valid_op ty)); [discriminate|].
  destruct (seq >=? MaxSequenceNumber) eqn:E; [discriminate|].
  intros H.
  pose proof (write_entry_meta _ _ _ _ _ _ _ H) as (_ & Hn & _).
  apply write_entry_ok in H. destruct H as [-> _]. split; [reflexivity|].
  rewrite Hn. destruct (seq >=? nextSequence w) eqn:E'.
  - cbn. rewrite (u64_succ_below_max _ H0 E). lia.
  - lia.
Qed.

Lemma AppendExactBytes_cases raw seq w :
  AppendExactBytes raw seq w =
  match status w with
  | WALStatusClosed => (w, Err ErrWALClosed)
  | WALStatusRotating => (w, Err ErrWALRotating)
  | WALStatusActive =>
      if len raw <? HeaderSize then (w, Err (Errorf "raw WAL record too small"))
      else if negb (len raw =? HeaderSize + le_combine (firstn 2 (skipn 4 (data raw))))
      then (w, Err (Errorf "raw WAL record size mismatch"))
      else
        (wrap "failed to write raw WAL record"
              (writeRecordData (firstn (Z.to_nat HeaderSize) (data raw))
                               (skipn (Z.to_nat HeaderSize) (data raw))) ;;
         match skipn (Z.to_nat HeaderSize) (data raw) with
         | [] => fail PanicIndexOutOfRange
         | ty :: _ =>
             modify (notify (OnWALEntryWritten (mkEntry seq ty (Some []) (Some [])))) ;;
             maybeSync ;;
             ret seq
         end)
          (if seq >=? nextSequence w
           then set_nextSequence (u64 (seq + 1)) w else w)
  end.
Proof.
  unfold AppendExactBytes, check_status. unfold bind at 1. unfold bind at 1.
  unfold get at 1.
  destruct (status w); try reflexivity. cbn [ret].
  destruct (len raw <? HeaderSize); [reflexivity|]. cbv zeta.
  destruct (negb _); [reflexivity|].
  unfold bind at 1. unfold get at 1. unfold bind at 1.
  unfold when_. destruct (seq >=? nextSequence w); reflexivity.
Qed.

(** Below the last value of [uint64], a successful [AppendExactBytes]
    leaves [nextSequence] at the larger of its old value and [seq + 1]. *)
Lemma AppendExactBytes_nextSequence raw seq w w' r :
  0 <= seq < MaxUint64 ->
  AppendExactBytes raw seq w = (w', Ok r) ->
  r = seq /\ nextSequence w' = Z.max (nextSequence w) (seq + 1).
Proof.
  intros H0. rewrite AppendExactBytes_cases.
  destruct (status w); try discriminate.
  destruct (len raw <? HeaderSize); [discriminate|].
  destruct (negb _); [discriminate|].
  intros H.
  match type of H with ?c ?x = _ =>
    assert (Hp : preserves same_meta c) by preserves_meta end.
  pose proof (Hp _ _ _ H) as (_ & Hn & _).
  apply bind_ok in H. destruct H as (w1 & [] & _ & H).
  destruct (skipn (Z.to_nat HeaderSize) (data raw)); [discriminate|].
  apply bind_ok in H. destruct H as (w2 & [] & _ & H).
  apply bind_ok in H. destruct H as (w3 & [] & _ & H).
  inversion H; subst r. split; [reflexivity|].
  rewrite Hn. destruct (seq >=? nextSequence w) eqn:E'.
  - cbn. rewrite u64_small; [lia|]. unfold MaxUint64 in H0. lia.
  - lia.
Qed.

(** A raw record whose header declares another payload length than the
    buffer holds is rejected, and nothing changes. *)
Lemma AppendExactBytes_rejects_mismatch raw seq w :
  status w = WALStatusActive ->
  len raw <> HeaderSize + le_combine (firstn 2 (skipn 4 (data raw))) ->
  exists e, AppendExactBytes raw seq w = (w, Err e).
Proof.
  intros Hs Hne. rewrite AppendExactBytes_cases, Hs.
  destruct (len raw <? HeaderSize); [eexists; reflexivity|].
  destruct (len raw =? _) eqn:E; [lia|]. eexists. reflexivity.
Qed.

(** C8, at the input where the code departs from it: [AppendExactBytes]
    has no overflow guard, so with [seqNum] = 2^64 - 1 the call succeeds
    and [seqNum + 1] wraps: [nextSequence] falls from 1 to 0, which is
    neither [max(1, seqNum + 1)] nor above the sequence number just
    written. *)
Theorem append_exact_bytes_wraps_nextSequence :
  let w := NewWAL (mkConfig SyncNone 0 1048576 4) [] in
  let raw := Some (frame RecordTypeFull
                     (entry_payload OpTypePut MaxUint64 (Some [Byte.x6b]) (Some [Byte.x76]))) in
  nextSequence w = 1
  /\ exists w', AppendExactBytes raw MaxUint64 w = (w', Ok MaxUint64)
                /\ nextSequence w' = 0
                /\ nextSequence w' <> Z.max (nextSequence w) (MaxUint64 + 1).
Proof.
  intros w raw. split; [reflexivity|].
  exists (fst (AppendExactBytes raw MaxUint64 w)).
  split; [vm_compute; reflexivity|].
  split; [vm_compute; reflexivity|].
  vm_compute. discriminate.
Qed.

(** ** The checksum *)

Example crc32_check_value :
  crc32.ChecksumIEEE
    (map byte.of_Z [0x31; 0x32; 0x33; 0x34; 0x35; 0x36; 0x37; 0x38; 0x39])
  = 0xcbf43926.
Proof. vm_compute. reflexivity. Qed.

Lemma below_pow2_bits n x :
  0 <= n -> 0 <= x ->
  (forall i, n <= i -> Z.testbit x i = false) -> x < 2 ^ n.
Proof.
  intros Hn Hx Hbits.
  assert (Hmod : x mod 2 ^ n = x).
  { apply Z.bits_inj'. intros i Hi.
    destruct (Z_lt_le_dec i n) as [Hlt | Hge].
    - apply Z.mod_pow2_bits_low. lia.
    - rewrite Z.mod_pow2_bits_high by lia. symmetry. apply Hbits. exact Hge. }
  rewrite <- Hmod. apply Z.mod_pos_bound. apply Z.pow_pos_nonneg; lia.
Qed.

Lemma bits_above_pow2 n x i :
  0 <= x < 2 ^ n -> n <= i -> Z.testbit x i = false.
Proof.
  intros [Hx Hlt] Hi.
  destruct (Z.eq_dec x 0) as [-> | Hne]; [apply Z.bits_0|].
  apply Z.bits_above_log2; [exact Hx|].
  assert (Z.log2 x < n) by (apply Z.log2_lt_pow2; lia). lia.
Qed.

Lemma lxor_below_pow2 n a b :
  0 <= n -> 0 <= a < 2 ^ n -> 0 <= b < 2 ^ n -> 0 <= Z.lxor a b < 2 ^ n.
Proof.
  intros Hn Ha Hb.
  assert (H0 : 0 <= Z.lxor a b) by (apply Z.lxor_nonneg; lia).
  split; [exact H0|].
  apply below_pow2_bits; [exact Hn | exact H0 |].
  intros i Hi. rewrite Z.lxor_spec.
  rewrite (bits_above_pow2 n a i Ha Hi), (bits_above_pow2 n b i Hb Hi). reflexivity.
Qed.

Lemma step_bit_range c : 0 <= c < 2 ^ 32 -> 0 <= crc32.step_bit c < 2 ^ 32.
Proof.
  intros Hc. unfold crc32.step_bit.
  assert (Hs : 0 <= Z.shiftr c 1 < 2 ^ 32).
  { rewrite Z.shiftr_div_pow2 by lia. change (2 ^ 1) with 2.
    split; [apply Z.div_pos; lia|].
    apply Z.div_lt_upper_bound; lia. }
  destruct (Z.testbit c 0); [|exact Hs].
  apply lxor_below_pow2; [lia | exact Hs | unfold crc32.IEEE; lia].
Qed.

Lemma step_byte_range c b : 0 <= c < 2 ^ 32 -> 0 <= crc32.step_byte c b < 2 ^ 32.
Proof.
  intros Hc. unfold crc32.step_byte.
  assert (H0 : 0 <= Z.lxor c (byte.unsigned b) < 2 ^ 32).
  { apply lxor_below_pow2; [lia | exact Hc |].
    pose proof (byte.unsigned_range b). lia. }
  cbn [Nat.iter nat_rect].
  repeat apply step_bit_range. exact H0.
Qed.

Lemma ChecksumIEEE_range p : 0 <= crc32.ChecksumIEEE p < 2 ^ 32.
Proof.
  unfold crc32.ChecksumIEEE.
  apply lxor_below_pow2; [lia | | lia].
  assert (H : forall c, 0 <= c < 2 ^ 32 -> 0 <= fold_left crc32.step_byte p c < 2 ^ 32).
  { induction p as [|b p IH]; intros c Hc; cbn [fold_left]; [exact Hc|].
    apply IH, step_byte_range, Hc. }
  apply H. lia.
Qed.

(** ** Reading back what was written *)

Lemma read_record_nonempty bs :
  bs <> [] ->
  read_record bs =
  if blen bs <? HeaderSize then ReadCorrupt ErrCorruptRecord
  else
    let crc := le_combine (firstn 4 bs) in
    let length := le_combine (firstn 2 (skipn 4 bs)) in
    let recordType := nth 6 bs Byte.x00 in
    let body := skipn 7 bs in
    if length >? MaxRecordSize then ReadCorrupt ErrCorruptRecord
    else if blen body <? length then ReadCorrupt ErrCorruptRecord
    else
      let payload := firstn (Z.to_nat length) body in
      if negb (crc =? crc32.ChecksumIEEE payload) then ReadCorrupt ErrCorruptRecord
      else if negb (valid_record_type recordType)
           then ReadCorrupt ErrInvalidRecordType
           else ReadRecord recordType payload (skipn (Z.to_nat length) body).
Proof. destruct bs; [congruence | reflexivity]. Qed.

Lemma firstn_blen_app (l1 l2 : list byte) :
  firstn (Z.to_nat (blen l1)) (l1 ++ l2) = l1.
Proof.
  unfold blen. rewrite Nat2Z.id, firstn_app, Nat.sub_diag, firstn_all. simpl.
  apply app_nil_r.
Qed.

Lemma skipn_blen_app (l1 l2 : list byte) :
  skipn (Z.to_nat (blen l1)) (l1 ++ l2) = l2.
Proof.
  unfold blen. rewrite Nat2Z.id, skipn_app, Nat.sub_diag, skipn_all. reflexivity.
Qed.

Lemma le_combine_split_small n z :
  0 <= z < 2 ^ (Z.of_nat n * 8) -> le_combine (le_split n z) = z.
Proof. intros H. rewrite le_combine_split. apply Z.mod_small. exact H. Qed.

Lemma read_record_frame t p rest :
  blen p <= MaxRecordSize -> valid_record_type t = true ->
  read_record (frame t p ++ rest) = ReadRecord t p rest.
Proof.
  intros Hp Ht. pose proof MaxRecordSize_eq as HM. pose proof (blen_nonneg p) as Hp0.
  unfold frame, record_header.
  set (crc := crc32.ChecksumIEEE p).
  set (bs := ((le_split 4 crc ++ le_split 2 (blen p) ++ [t]) ++ p) ++ rest).
  assert (H4 : firstn 4 bs = le_split 4 crc) by reflexivity.
  assert (H2 : firstn 2 (skipn 4 bs) = le_split 2 (blen p)) by reflexivity.
  assert (H6 : nth 6 bs Byte.x00 = t) by reflexivity.
  assert (H7 : skipn 7 bs = p ++ rest) by reflexivity.
  assert (Hlen : blen bs = 7 + (blen p + blen rest)).
  { unfold bs. rewrite !blen_app, !blen_le_split. change (blen [t]) with 1. lia. }
  rewrite read_record_nonempty by (unfold bs; discriminate).
  cbv zeta. rewrite H4, H2, H6, H7, Hlen.
  rewrite (le_combine_split_small 4) by (apply ChecksumIEEE_range).
  rewrite (le_combine_split_small 2) by (change (2 ^ (Z.of_nat 2 * 8)) with 65536; lia).
  rewrite blen_app. pose proof (blen_nonneg rest).
  unfold HeaderSize.
  destruct (7 + (blen p + blen rest) <? 7) eqn:E1; [lia|].
  destruct (blen p >? MaxRecordSize) eqn:E2; [lia|].
  destruct (blen p + blen rest <? blen p) eqn:E3; [lia|].
  rewrite firstn_blen_app, skipn_blen_app.
  fold crc. rewrite Z.eqb_refl, Ht. reflexivity.
Qed.

Lemma frames_cons r rs : frames (r :: rs) = frame (fst r) (snd r) ++ frames rs.
Proof. reflexivity. Qed.

Lemma frames_app rs1 rs2 : frames (rs1 ++ rs2) = frames rs1 ++ frames rs2.
Proof. unfold frames. rewrite map_app, concat_app. reflexivity. Qed.

(** A well-formed physical record: a known type and a payload within the
    cap. *)
Lemma read_records_frames rs : forall turns,
  Forall (fun r => valid_record_type (fst r) = true /\ blen (snd r) <= MaxRecordSize) rs ->
  (length rs <= turns)%nat ->
  read_records turns (frames rs) = rs.
Proof.
  induction rs as [|[t p] rs IH]; intros turns Hall Hturns.
  - destruct turns; reflexivity.
  - destruct turns as [|turns]; [simpl in Hturns; lia|].
    inversion Hall as [|? ? [Ht Hp] Hrs]; subst. cbn [fst snd] in *.
    cbn [read_records]. rewrite frames_cons. cbn [fst snd].
    rewrite (read_record_frame t p (frames rs) Hp Ht).
    f_equal. apply IH; [exact Hrs | simpl in Hturns; lia].
Qed.

Lemma length_frames rs : (length rs <= length (frames rs))%nat.
Proof.
  induction rs as [|[t p] rs IH]; [simpl; lia|].
  rewrite frames_cons, length_app. cbn [fst snd length].
  unfold frame, record_header. rewrite !length_app, !length_le_split. simpl. lia.
Qed.

Lemma readable_nil : readable [] [].
Proof. exists []. repeat split; auto. Qed.

Lemma readable_app b1 p1 b2 p2 :
  readable b1 p1 -> readable b2 p2 -> readable (b1 ++ b2) (p1 ++ p2).
Proof.
  intros (r1 & -> & Hw1 & H1) (r2 & -> & Hw2 & H2).
  exists (r1 ++ r2). split; [symmetry; apply frames_app|].
  split; [apply Forall_app; auto|].
  intros more. rewrite <- !app_assoc, H1, H2. reflexivity.
Qed.

Lemma readable_segment bs ps :
  readable bs ps -> reassemble (read_records (length bs) bs) None = ps.
Proof.
  intros (rs & -> & Hw & Hr).
  rewrite read_records_frames by (auto using length_frames).
  specialize (Hr []). rewrite !app_nil_r in Hr. exact Hr.
Qed.

Lemma valid_record_type_cases :
  valid_record_type RecordTypeFull = true /\ valid_record_type RecordTypeFirst = true
  /\ valid_record_type RecordTypeMiddle = true /\ valid_record_type RecordTypeLast = true.
Proof. repeat split. Qed.

Lemma readable_full p :
  blen p <= MaxRecordSize -> readable (frame RecordTypeFull p) [p].
Proof.
  intros Hp. exists [(RecordTypeFull, p)]. split.
  - unfold frames. simpl. rewrite app_nil_r. reflexivity.
  - split; [constructor; [split; [reflexivity|exact Hp] | constructor]|].
    intros more. reflexivity.
Qed.

Lemma reassemble_middles ms : forall l acc more,
  reassemble (map (pair RecordTypeMiddle) ms ++ (RecordTypeLast, l) :: more) (Some acc)
  = (acc ++ concat ms ++ l) :: reassemble more None.
Proof.
  induction ms as [|m ms IH]; intros l acc more.
  - reflexivity.
  - cbn [map app]. cbn [reassemble].
    change (Byte.eqb RecordTypeMiddle RecordTypeFull) with false.
    change (Byte.eqb RecordTypeMiddle RecordTypeFirst) with false.
    change (Byte.eqb RecordTypeMiddle RecordTypeMiddle) with true.
    cbv iota. rewrite IH. cbn [concat]. rewrite <- !app_assoc. reflexivity.
Qed.

Lemma frames_middles ms :
  frames (map (pair RecordTypeMiddle) ms) = concat (map (frame RecordTypeMiddle) ms).
Proof. unfold frames. rewrite map_map. reflexivity. Qed.

Lemma readable_fragments p0 ms l :
  blen p0 <= MaxRecordSize ->
  Forall (fun m => blen m = MaxRecordSize) ms ->
  blen l <= MaxRecordSize ->
  readable (frame RecordTypeFirst p0
            ++ concat (map (frame RecordTypeMiddle) ms)
            ++ frame RecordTypeLast l)
           [p0 ++ concat ms ++ l].
Proof.
  intros Hp0 Hms Hl.
  exists ((RecordTypeFirst, p0) :: map (pair RecordTypeMiddle) ms ++ [(RecordTypeLast, l)]).
  split; [|split].
  - rewrite frames_cons, frames_app, frames_middles. cbn [fst snd].
    unfold frames at 1. cbn [map concat fst snd]. rewrite app_nil_r. reflexivity.
  - constructor; [split; [reflexivity|exact Hp0]|].
    apply Forall_app. split.
    + apply Forall_map. eapply Forall_impl; [|exact Hms].
      cbn. intros m Hm. split; [reflexivity|lia].
    + constructor; [split; [reflexivity|exact Hl] | constructor].
  - intros more. cbn [app]. cbn [reassemble].
    change (Byte.eqb RecordTypeFirst RecordTypeFull) with false.
    change (Byte.eqb RecordTypeFirst RecordTypeFirst) with true.
    cbv iota. rewrite <- app_assoc. cbn [app]. rewrite reassemble_middles. reflexivity.
Qed.

Lemma entry_image_readable ty s k v out :
  entry_image ty s k v out -> readable out [entry_payload ty s k v].
Proof.
  unfold entry_image. destruct (entrySize ty k v <=? MaxRecordSize) eqn:E.
  - intros ->. apply readable_full. rewrite blen_entry_payload. lia.
  - intros (ms & l & -> & Hms & Hl & Hsplit).
    pose proof (keyInFirst_bounds k) as Hk. cbv zeta in Hk.
    change (1 + 8 + 4) with 13 in Hk.
    set (n := min (len k) (MaxRecordSize - 13)) in *.
    assert (Hpay : entry_payload ty s k v
                   = (meta_prefix ty s k ++ firstn (Z.to_nat n) (data k))
                       ++ concat ms ++ l).
    { rewrite Hsplit. unfold entry_payload, meta_prefix.
      rewrite <- !app_assoc. do 3 f_equal.
      rewrite app_assoc, firstn_skipn. reflexivity. }
    rewrite Hpay. apply readable_fragments; [|exact Hms|lia].
    unfold meta_prefix. rewrite !blen_app, !blen_le_split. change (blen [ty]) with 1.
    rewrite blen_firstn_full by (unfold len in Hk; lia). lia.
Qed.

Lemma batch_image_readable s es :
  Forall (fun e => entrySize (Type_ e) (Key e) (Value e) <= MaxRecordSize) es ->
  readable (batch_image s es) (map payload_of (map (with_seq s) es)).
Proof.
  induction es as [|e es IH]; intros Hall.
  - apply readable_nil.
  - inversion Hall as [|? ? He Hes]; subst.
    change (batch_image s (e :: es))
      with (frame RecordTypeFull (entry_payload (Type_ e) s (Key e) (Value e))
            ++ batch_image s es).
    change (map payload_of (map (with_seq s) (e :: es)))
      with ([entry_payload (Type_ e) s (Key e) (Value e)]
            ++ map payload_of (map (with_seq s) es)).
    apply readable_app; [|apply IH, Hes].
    apply readable_full. rewrite blen_entry_payload. exact He.
Qed.

Lemma firstn_blen (l : list byte) : firstn (Z.to_nat (blen l)) l = l.
Proof. unfold blen. rewrite Nat2Z.id. apply firstn_all. Qed.

Lemma decode_entry_payload ty s k v :
  valid_op ty = true -> 0 <= s < 2 ^ 64 -> fits ty k v ->
  exists e, decode_entry (entry_payload ty s k v) = Some e
            /\ logical e = (ty, s, data k, data v).
Proof.
  intros Hv Hs [Hk Hval].
  pose proof (blen_nonneg (data k)) as Hk0. fold (len k) in Hk0.
  unfold decode_entry. rewrite blen_entry_payload.
  assert (Hsize : 13 <= entrySize ty k v).
  { unfold entrySize. pose proof (blen_nonneg (data v)). unfold len in *.
    destruct (Byte.eqb ty OpTypeDelete); lia. }
  destruct (entrySize ty k v <? 13) eqn:E; [lia|]. clear E. cbv zeta.
  assert (H0 : nth 0 (entry_payload ty s k v) Byte.x00 = ty) by reflexivity.
  assert (H8 : firstn 8 (skipn 1 (entry_payload ty s k v)) = le_split 8 s) by reflexivity.
  assert (H4 : firstn 4 (skipn 9 (entry_payload ty s k v)) = le_split 4 (len k))
    by reflexivity.
  assert (H13 : skipn 13 (entry_payload ty s k v) = data k ++ value_section ty v)
    by reflexivity.
  rewrite H0, H8, H4, H13, Hv. cbn [negb].
  rewrite (le_combine_split_small 8) by (change (2 ^ (Z.of_nat 8 * 8)) with (2 ^ 64); lia).
  rewrite (le_combine_split_small 4) by (change (2 ^ (Z.of_nat 4 * 8)) with (2 ^ 32); lia).
  rewrite blen_app. pose proof (blen_nonneg (value_section ty v)) as Hvs0.
  unfold len at 1.
  destruct (blen (data k) + blen (value_section ty v) <? blen (data k)) eqn:E; [lia|]. clear E.
  unfold len. rewrite firstn_blen_app, skipn_blen_app.
  unfold value_section in *.
  destruct (Byte.eqb ty OpTypeDelete) eqn:Ed.
  - eexists. split; [reflexivity|]. unfold logical. cbn. rewrite Hval. reflexivity.
  - pose proof (blen_nonneg (data v)) as Hv0.
    rewrite blen_app, blen_le_split in *. change (Z.of_nat 4) with 4 in *.
    destruct (4 + blen (data v) <? 4) eqn:E; [lia|]. clear E.
    assert (Hf4 : firstn 4 (le_split 4 (len v) ++ data v) = le_split 4 (len v))
      by reflexivity.
    assert (Hs4 : skipn 4 (le_split 4 (len v) ++ data v) = data v) by reflexivity.
    rewrite Hf4, Hs4.
    rewrite (le_combine_split_small 4)
      by (change (2 ^ (Z.of_nat 4 * 8)) with (2 ^ 32); unfold len in *; lia).
    unfold len. rewrite Z.ltb_irrefl, firstn_blen.
    eexists. split; reflexivity.
Qed.

Lemma decode_all_payloads es :
  Forall loggable es ->
  exists es', decode_all (map payload_of es) = es' /\ map logical es' = map logical es.
Proof.
  induction es as [|e es IH]; intros Hall.
  - exists []. split; reflexivity.
  - inversion Hall as [|? ? (Hv & Hs & Hf) Hes]; subst.
    destruct (IH Hes) as (es' & Hd & Hl).
    destruct (decode_entry_payload _ _ _ _ Hv Hs Hf) as (e' & He' & Hl').
    cbn [map decode_all]. unfold payload_of at 1. rewrite He', Hd.
    eexists. split; [reflexivity|]. cbn [map]. rewrite Hl', Hl. reflexivity.
Qed.

Lemma AppendBatchWithSequence_ok es s w w' seq :
  0 <= s -> es <> [] ->
  AppendBatchWithSequence es s w = (w', Ok seq) ->
  seq = s
  /\ s < MaxSequenceNumber
  /\ nextSequence w' = Z.max (nextSequence w) (s + 1)
  /\ stream w' = stream w ++ batch_image s es
  /\ Forall (fun e => entrySize (Type_ e) (Key e) (Value e) <= MaxRecordSize) es.
Proof.
  intros H0 Hne. rewrite AppendBatchWithSequence_cases.
  destruct (status w); try discriminate.
  destruct es as [|e0 es0]; [congruence|]. set (es := e0 :: es0) in *.
  destruct (s >=? MaxSequenceNumber) eqn:E; [discriminate|].
  intros H.
  apply bind_ok in H. destruct H as (w1 & [] & H1 & H).
  apply bind_ok in H. destruct H as (w2 & [] & H2 & H).
  apply bind_ok in H. destruct H as (w2' & wg & Hg & H). inversion Hg; subst wg w2'.
  apply bind_ok in H. destruct H as (w3 & [] & H3 & H).
  apply bind_ok in H. destruct H as (w4 & [] & H4 & H).
  apply bind_ok in H. destruct H as (w5 & [] & H5 & H).
  inversion H; subst seq w5.
  apply modify_ok in H4. destruct H4 as [-> _].
  pose proof (maybeSync_meta _ _ _ H5) as (_ & Hn5 & _).
  pose proof (maybeSync_stream _ _ _ H5) as Hs5.
  pose proof (reserve_batch_stream _ _ _ _ H1) as Hs1.
  pose proof (reserve_batch_meta _ _ _ _ H1) as (_ & Hn1 & _).
  pose proof (write_batch_meta _ _ _ _ _ H2) as (_ & Hn2 & _).
  apply write_batch_ok in H2. destruct H2 as [Hs2 Hall].
  unfold same_stream in *. cbn in Hn5.
  rewrite nextSequence_warn_if_due in Hn1.
  assert (Hu : u64 (s + 1) = s + 1) by (apply u64_succ_below_max; assumption).
  rewrite Hu in H3.
  assert (H3' : nextSequence w3 = Z.max (nextSequence w) (s + 1) /\ stream w3 = stream w2).
  { unfold when_ in H3. destruct (s + 1 >? nextSequence w2) eqn:E3.
    - apply modify_ok in H3. destruct H3 as [-> _]. cbn. split; [lia|reflexivity].
    - inversion H3; subst. split; [lia|reflexivity]. }
  destruct H3' as [Hn3 Hs3].
  repeat split; auto; try lia.
  rewrite Hs5. change (stream (notify _ w3)) with (stream w3).
    rewrite Hs3, Hs2, Hs1, stream_warn_if_due. reflexivity.
Qed.

Lemma Forall_fits_entry_loggable s es :
  0 <= s < 2 ^ 64 -> Forall fits_entry es -> Forall loggable (map (with_seq s) es).
Proof.
  intros Hs Hall. apply Forall_map. eapply Forall_impl; [|exact Hall].
  intros e [Hv Hf]. repeat split; try assumption; apply Hs || apply Hf.
Qed.

Lemma below_max_u64 s : 0 <= s -> s < MaxSequenceNumber -> 0 <= s < 2 ^ 64.
Proof. rewrite MaxSequenceNumber_eq. change (2 ^ 64) with 18446744073709551616. lia. Qed.

(** One successful logging call: the sequence counter stays in range and
    the log grows by a readable image of the entries the call logged. *)
Lemma do_write_logged x w w' seq :
  0 <= nextSequence w <= MaxSequenceNumber -> fits_write x ->
  do_write x w = (w', Ok seq) ->
  0 <= nextSequence w' <= MaxSequenceNumber
  /\ exists bs, stream w' = stream w ++ bs
                /\ readable bs (map payload_of (written x seq))
                /\ Forall loggable (written x seq).
Proof.
  intros Hn Hfit. destruct x as [ty k v | ty k v s | es | es s]; cbn [do_write written].
  - intros H.
    destruct (Append_nextSequence _ _ _ _ _ _ (proj1 Hn) H) as [_ Hok].
    destruct (Hok seq eq_refl) as [-> Hn'].
    apply Append_ok_inv in H. destruct H as (Hv & Hlt & H).
    apply write_entry_ok in H. destruct H as (_ & out & Hs & Himg).
    split; [lia|]. exists out. split; [|split].
    + rewrite Hs. change (stream (set_nextSequence _ ?x)) with (stream x).
      rewrite stream_warn_if_due. reflexivity.
    + apply entry_image_readable, Himg.
    + constructor; [|constructor]. repeat split; cbn; try assumption; try lia;
        try apply Hfit.
      apply below_max_u64; lia.
  - destruct Hfit as [Hfit Hs0]. intros H.
    destruct (AppendWithSequence_nextSequence _ _ _ _ _ _ _ Hs0 H) as [-> Hn'].
    apply AppendWithSequence_ok_inv in H. destruct H as (Hv & Hlt & H).
    apply write_entry_ok in H. destruct H as (_ & out & Hs & Himg).
    split; [lia|]. exists out. split; [|split].
    + rewrite Hs. destruct (s >=? nextSequence w); [|reflexivity].
      change (stream (set_nextSequence _ ?x)) with (stream x).
      rewrite stream_warn_if_due. reflexivity.
    + apply entry_image_readable, Himg.
    + constructor; [|constructor]. repeat split; cbn; try assumption; try lia;
        try apply Hfit.
      apply below_max_u64; lia.
  - destruct es as [|e0 es0].
    + rewrite AppendBatch_cases. destruct (status w); try discriminate.
      intros H. inversion H; subst. split; [exact Hn|].
      exists []. rewrite app_nil_r. split; [reflexivity|].
      split; [apply readable_nil | constructor].
    + intros H. apply AppendBatch_ok in H; [|lia|discriminate].
      destruct H as (-> & Hn' & Hs & Hall & Hlt).
      split; [lia|]. eexists. split; [exact Hs|].
      split; [apply batch_image_readable, Hall|].
      apply Forall_fits_entry_loggable; [apply below_max_u64; lia | exact Hfit].
  - destruct Hfit as [Hfit Hs0]. destruct es as [|e0 es0].
    + rewrite AppendBatchWithSequence_cases. destruct (status w); try discriminate.
      intros H. inversion H; subst. split; [exact Hn|].
      exists []. rewrite app_nil_r. split; [reflexivity|].
      split; [apply readable_nil | constructor].
    + intros H. apply AppendBatchWithSequence_ok in H; [|lia|discriminate].
      destruct H as (-> & Hlt & Hn' & Hs & Hall).
      split; [lia|]. eexists. split; [exact Hs|].
      split; [apply batch_image_readable, Hall|].
      apply Forall_fits_entry_loggable; [apply below_max_u64; lia | exact Hfit].
Qed.

Lemma same_status_refl w : same_status w w.
Proof. reflexivity. Qed.

Lemma same_status_trans w1 w2 w3 :
  same_status w1 w2 -> same_status w2 w3 -> same_status w1 w3.
Proof. unfold same_status. congruence. Qed.

Lemma same_meta_status {A} (c : M A) :
  preserves same_meta c -> preserves same_status c.
Proof. apply preserves_weaken. intros w w' (_ & _ & H & _). exact H. Qed.

Ltac preserves_status :=
  repeat first
    [ solve [apply same_meta_status; auto with wal_meta nocore]
    | apply preserves_bind; [exact same_status_trans | | intros ?]
    | apply preserves_wrap
    | apply preserves_when; [exact same_status_refl | ]
    | apply preserves_ret; exact same_status_refl
    | apply preserves_fail; exact same_status_refl
    | apply preserves_get; exact same_status_refl
    | apply preserves_modify; intros ?; reflexivity
    | match goal with
      | |- preserves _ (if ?b then _ else _) => destruct b
      | |- preserves _ (match ?x with _ => _ end) => destruct x
      end ].

(** The logging calls never change the status. *)
Lemma do_write_status x : preserves same_status (do_write x).
Proof.
  destruct x; cbn [do_write];
    unfold Append, AppendWithSequence, AppendBatch, AppendBatchWithSequence;
    cbv zeta; preserves_status.
Qed.

Lemma write_all_logged xs : forall w w' es,
  0 <= nextSequence w <= MaxSequenceNumber ->
  Forall fits_write xs ->
  write_all xs w = Some (w', es) ->
  status w' = status w
  /\ exists bs, stream w' = stream w ++ bs
                /\ readable bs (map payload_of es)
                /\ Forall loggable es.
Proof.
  induction xs as [|x xs IH]; intros w w' es Hn Hfit; cbn [write_all].
  - intros H. inversion H; subst. split; [reflexivity|].
    exists []. rewrite app_nil_r. split; [reflexivity|].
    split; [apply readable_nil | constructor].
  - inversion Hfit as [|? ? Hx Hxs]; subst.
    destruct (do_write x w) as [w1 [seq|e]] eqn:Hd; [|discriminate].
    destruct (write_all xs w1) as [[w2 es2]|] eqn:Hw; [|discriminate].
    intros H. inversion H; subst w2 es. clear H.
    pose proof (do_write_status _ _ _ _ Hd) as Hst1.
    destruct (do_write_logged _ _ _ _ Hn Hx Hd) as (Hn1 & bs1 & Hs1 & Hr1 & Hl1).
    destruct (IH _ _ _ Hn1 Hxs Hw) as (Hst2 & bs2 & Hs2 & Hr2 & Hl2).
    unfold same_status in Hst1. split; [congruence|].
    exists (bs1 ++ bs2). split; [rewrite Hs2, Hs1, app_assoc; reflexivity|].
    split.
    + rewrite map_app. apply readable_app; assumption.
    + apply Forall_app. split; assumption.
Qed.

Lemma replay_collect es : forall seen,
  replay_entries collect es seen = (seen ++ es, None).
Proof.
  induction es as [|e es IH]; intros seen; cbn [replay_entries collect].
  - rewrite app_nil_r. reflexivity.
  - rewrite IH, <- app_assoc. reflexivity.
Qed.



(** Scenario 5 of the specification: an 8 KiB key and a 128 KiB value
    come back byte-identical; the entry lies in the log as a First
    record, four Middle records and a Last record. *)
Example fragmented_round_trip :
  round_trip_check (mkConfig SyncNone 0 1048576 4) OpTypePut
    (Some (repeat Byte.x6b (Z.to_nat 8192)))
    (Some (repeat Byte.x76 (Z.to_nat 131072))) = true.
Proof. vm_compute. reflexivity. Qed.

Example fragmented_shapes :
  record_shapes
    (fst (Append OpTypePut (Some (repeat Byte.x6b (Z.to_nat 8192)))
                 (Some (repeat Byte.x76 (Z.to_nat 131072)))
                 (NewWAL (mkConfig SyncNone 0 1048576 4) [])))
  = [(2, 8205); (3, 32768); (3, 32768); (3, 32768); (3, 32768); (4, 4)].
Proof. vm_compute. reflexivity. Qed.

(** The boundary: an encoded size of exactly [MaxRecordSize] is one Full
    record, one byte more is a First and a Last record. *)
Example boundary_shapes :
  let w := NewWAL (mkConfig SyncNone 0 1048576 4) [] in
  record_shapes
    (fst (Append OpTypePut (Some (repeat Byte.x6b (Z.to_nat 32751))) (Some []) w))
  = [(1, 32768)]
  /\ record_shapes
       (fst (Append OpTypePut (Some (repeat Byte.x6b (Z.to_nat 32752))) (Some []) w))
     = [(2, 32765); (4, 4)].
Proof. vm_compute. split; reflexivity. Qed.

(** ** Further properties of the writer *)

Lemma bind_any {A B} (c : M A) (k : A -> M B) w w' r :
  bind c k w = (w', r) ->
  (exists e, c w = (w', Err e) /\ r = Err e)
  \/ exists w1 a, c w = (w1, Ok a) /\ k a w1 = (w', r).
Proof.
  unfold bind. destruct (c w) as [w1 [a|e]]; intros H.
  - right. eauto.
  - left. inversion H; subst. eauto.
Qed.



(** X2. A successful [AppendWithSequence] returns the sequence number the
    caller supplied, which is below [MaxSequenceNumber]; the entry lies in
    the log under that number (one Full record or a fragmented one), and
    [nextSequence] is the larger of its old value and [seq + 1]: a number
    below [nextSequence] is written as it is and moves nothing. *)
Theorem append_with_sequence_effect (entryType : byte) (key value : slice)
        (seq : Z) (w w' : WAL) (r : Z) :
  0 <= seq ->
  AppendWithSequence entryType key value seq w = (w', Ok r) ->
  r = seq /\ seq < MaxSequenceNumber
  /\ nextSequence w' = Z.max (nextSequence w) (seq + 1)
  /\ exists out, stream w' = stream w ++ out /\ entry_image entryType seq key value out.
Proof.
  intros H0 H.
  destruct (AppendWithSequence_nextSequence _ _ _ _ _ _ _ H0 H) as [-> Hn].
  apply AppendWithSequence_ok_inv in H. destruct H as (_ & Hlt & H).
  apply write_entry_ok in H. destruct H as (_ & out & Hs & Himg).
  split; [reflexivity|]. split; [lia|]. split; [exact Hn|].
  exists out. split; [|exact Himg].
  rewrite Hs. destruct (seq >=? nextSequence w); [|reflexivity].
  change (stream (set_nextSequence _ ?x)) with (stream x).
  rewrite stream_warn_if_due. reflexivity.
Qed.

Lemma append_with_sequence_effect_witness :
  let w := set_nextSequence 20 (NewWAL (mkConfig SyncNone 0 1048576 4) []) in
  exists w',
    AppendWithSequence OpTypePut (Some [Byte.x6b]) (Some [Byte.x76]) 7 w = (w', Ok 7)
    /\ nextSequence w' = 20.
Proof.
  intros w.
  pose (w' := fst (AppendWithSequence OpTypePut (Some [Byte.x6b]) (Some [Byte.x76]) 7 w)).
  assert (H : AppendWithSequence OpTypePut (Some [Byte.x6b]) (Some [Byte.x76]) 7 w
              = (w', Ok 7)) by (vm_compute; reflexivity).
  clearbody w'.
  assert (H0 : 0 <= 7) by lia.
  destruct (append_with_sequence_effect _ _ _ _ _ _ _ H0 H) as (_ & _ & Hn & _).
  exists w'. split; [exact H|]. exact Hn.
Defined.

(** The raw bytes of a record go to the log as they are. *)
Lemma AppendExactBytes_ok raw seq w w' r :
  AppendExactBytes raw seq w = (w', Ok r) ->
  r = seq /\ stream w' = stream w ++ data raw
  /\ HeaderSize < len raw
  /\ len raw = HeaderSize + le_combine (firstn 2 (skipn 4 (data raw))).
Proof.
  rewrite AppendExactBytes_cases.
  destruct (status w); try discriminate.
  destruct (len raw <? HeaderSize) eqn:E1; [discriminate|].
  destruct (len raw =? _) eqn:E2; [|discriminate]. cbn [negb].
  intros H.
  apply bind_ok in H. destruct H as (w1 & [] & H1 & H).
  apply wrap_ok, writeRecordData_ok in H1.
  assert (Hst : stream w1 = stream w ++ data raw).
  { rewrite H1, firstn_skipn. destruct (seq >=? nextSequence w); reflexivity. }
  destruct (skipn (Z.to_nat HeaderSize) (data raw)) as [|ty rest] eqn:Ep; [discriminate|].
  apply bind_ok in H. destruct H as (w2 & [] & H2 & H).
  apply bind_ok in H. destruct H as (w3 & [] & H3 & H).
  inversion H; subst r w3.
  apply modify_ok in H2. destruct H2 as [-> _].
  apply maybeSync_stream in H3. unfold same_stream in H3.
  split; [reflexivity|]. split; [rewrite H3; exact Hst|]. split; [|lia].
  assert (Hl : (length (skipn (Z.to_nat HeaderSize) (data raw)) > 0)%nat)
    by (rewrite Ep; simpl; lia).
  rewrite length_skipn in Hl. unfold len, blen. change (Z.to_nat HeaderSize) with 7%nat in Hl.
  unfold HeaderSize. lia.
Qed.

Lemma AppendExactBytes_healthy raw seq w :
  status w = WALStatusActive -> healthy w ->
  HeaderSize < len raw ->
  len raw = HeaderSize + le_combine (firstn 2 (skipn 4 (data raw))) ->
  exists w', AppendExactBytes raw seq w = (w', Ok seq).
Proof.
  intros Hs Hh Hlen Hdecl. rewrite AppendExactBytes_cases, Hs.
  destruct (len raw <? HeaderSize) eqn:E1; [lia|].
  destruct (len raw =? _) eqn:E2; [|lia]. cbn [negb].
  set (w0 := if seq >=? nextSequence w then set_nextSequence (u64 (seq + 1)) w else w).
  assert (Hh0 : healthy w0) by (unfold w0; destruct (_ >=? _); exact Hh).
  assert (Hs0 : status w0 = WALStatusActive) by (unfold w0; destruct (_ >=? _); exact Hs).
  destruct (writeRecordData_healthy (firstn (Z.to_nat HeaderSize) (data raw))
              (skipn (Z.to_nat HeaderSize) (data raw)) w0 Hh0) as (w1 & H1 & Hh1).
  assert (Hm1 : status w1 = status w0).
  { assert (Hp : preserves same_meta
                   (writeRecordData (firstn (Z.to_nat HeaderSize) (data raw))
                                    (skipn (Z.to_nat HeaderSize) (data raw))))
      by (unfold writeRecordData; preserves_meta).
    apply (Hp _ _ _ H1). }
  rewrite (bind_run _ _ _ _ _ (wrap_run _ _ _ _ _ H1)).
  destruct (skipn (Z.to_nat HeaderSize) (data raw)) as [|ty rest] eqn:Ep.
  - exfalso.
    assert (Hl : length (skipn (Z.to_nat HeaderSize) (data raw)) = 0%nat)
      by (rewrite Ep; reflexivity).
    rewrite length_skipn in Hl. change (Z.to_nat HeaderSize) with 7%nat in Hl.
    unfold len, blen, HeaderSize in Hlen. lia.
  - unfold bind at 1. cbn [modify].
    match goal with |- exists _, bind maybeSync _ ?x = _ =>
      destruct (maybeSync_healthy x) as (w3 & H3 & Hh3) end.
    { exact Hh1. }
    { cbn. congruence. }
    rewrite (bind_run _ _ _ _ _ H3). eexists. reflexivity.
Qed.

(** X3. [AppendExactBytes] takes a record whose header declares the length
    of the payload that follows it, and takes no other look at it: neither
    the checksum nor the record type is examined. On an Active WAL with
    healthy I/O such a record with a non-empty payload is accepted; and
    whenever the call succeeds, the log has grown by exactly the bytes
    handed in, the sequence number handed in is returned, and for a
    sequence number below 2^64 - 1 [nextSequence] is the larger of its old
    value and [seqNum + 1]. *)
Theorem append_exact_bytes_verbatim (rawBytes : slice) (seqNum : Z) (w : WAL) :
  0 <= seqNum < MaxUint64 ->
  (status w = WALStatusActive -> healthy w ->
   HeaderSize < len rawBytes ->
   len rawBytes = HeaderSize + le_combine (firstn 2 (skipn 4 (data rawBytes))) ->
   exists w', AppendExactBytes rawBytes seqNum w = (w', Ok seqNum))
  /\ (forall w' r,
        AppendExactBytes rawBytes seqNum w = (w', Ok r) ->
        r = seqNum
        /\ stream w' = stream w ++ data rawBytes
        /\ nextSequence w' = Z.max (nextSequence w) (seqNum + 1)).
Proof.
  intros H0. split.
  - intros Hs Hh Hlen Hdecl. apply AppendExactBytes_healthy; assumption.
  - intros w' r H.
    destruct (AppendExactBytes_nextSequence _ _ _ _ _ H0 H) as [Hr Hn].
    destruct (AppendExactBytes_ok _ _ _ _ _ H) as (_ & Hst & _).
    auto.
Qed.

Lemma append_exact_bytes_verbatim_witness :
  let w := NewWAL (mkConfig SyncNone 0 1048576 4) [] in
  let raw := Some [Byte.x00; Byte.x00; Byte.x00; Byte.x00; Byte.x02; Byte.x00; Byte.x09;
                   Byte.xff; Byte.xfe] in
  exists w', AppendExactBytes raw 5 w = (w', Ok 5)
             /\ stream w' = data raw /\ nextSequence w' = 6.
Proof.
  intros w raw.
  assert (H0 : 0 <= 5 < MaxUint64) by (unfold MaxUint64; lia).
  destruct (append_exact_bytes_verbatim raw 5 w H0) as [Hrun Hinv].
  destruct Hrun as (w' & Ha).
  - reflexivity.
  - repeat split.
  - vm_compute. reflexivity.
  - vm_compute. reflexivity.
  - exists w'. split; [exact Ha|].
    destruct (Hinv _ _ Ha) as (_ & Hst & Hn). split; [exact Hst | exact Hn].
Defined.

(** X4. [AppendExactBytes] checks the size of the raw record before it
    touches the WAL: fewer bytes than a header (a nil slice included), or
    a total length other than the header plus the payload length the
    header declares, is an error, and the WAL is left exactly as it was;
    [nextSequence] in particular is not raised. *)
Theorem append_exact_bytes_validates (rawBytes : slice) (seqNum : Z) (w : WAL) :
  status w = WALStatusActive ->
  (len rawBytes < HeaderSize ->
   AppendExactBytes rawBytes seqNum w = (w, Err (Errorf "raw WAL record too small")))
  /\ (HeaderSize <= len rawBytes ->
      len rawBytes <> HeaderSize + le_combine (firstn 2 (skipn 4 (data rawBytes))) ->
      AppendExactBytes rawBytes seqNum w
      = (w, Err (Errorf "raw WAL record size mismatch"))).
Proof.
  intros Hs. split.
  - intros Hlt. rewrite AppendExactBytes_cases, Hs.
    destruct (len rawBytes <? HeaderSize) eqn:E; [reflexivity|lia].
  - intros Hge Hne. rewrite AppendExactBytes_cases, Hs.
    destruct (len rawBytes <? HeaderSize) eqn:E; [lia|].
    destruct (len rawBytes =? _) eqn:E2; [lia|]. reflexivity.
Qed.

Lemma append_exact_bytes_validates_witness :
  let w := NewWAL (mkConfig SyncNone 0 1048576 4) [] in
  AppendExactBytes None 5 w = (w, Err (Errorf "raw WAL record too small"))
  /\ AppendExactBytes
       (Some [Byte.x00; Byte.x00; Byte.x00; Byte.x00; Byte.x03; Byte.x00; Byte.x01; Byte.x01])
       5 w
     = (w, Err (Errorf "raw WAL record size mismatch")).
Proof.
  intros w.
  assert (Hs : status w = WALStatusActive) by reflexivity.
  split.
  - apply (append_exact_bytes_validates None 5 w Hs). vm_compute. reflexivity.
  - apply (append_exact_bytes_validates _ 5 w Hs).
    + vm_compute. discriminate.
    + vm_compute. discriminate.
Defined.

(** X5. A raw record that is a header and nothing else, declaring a
    payload of length zero, passes the size checks of [AppendExactBytes].
    With healthy I/O its seven bytes are written and [nextSequence] is
    raised; then the read of the first payload byte for the observer
    notification is out of range, and the call ends in a run-time panic
    instead of returning. *)
Theorem append_exact_bytes_header_only (rawBytes : slice) (seqNum : Z) (w : WAL) :
  status w = WALStatusActive -> healthy w ->
  len rawBytes = HeaderSize ->
  le_combine (firstn 2 (skipn 4 (data rawBytes))) = 0 ->
  exists w',
    AppendExactBytes rawBytes seqNum w = (w', Err PanicIndexOutOfRange)
    /\ stream w' = stream w ++ data rawBytes
    /\ nextSequence w'
       = (if seqNum >=? nextSequence w then u64 (seqNum + 1) else nextSequence w)
    /\ observed w' = observed w.
Proof.
  intros Hs Hh Hlen Hdecl. rewrite AppendExactBytes_cases, Hs.
  destruct (len rawBytes <? HeaderSize) eqn:E1; [lia|].
  destruct (len rawBytes =? _) eqn:E2; [|lia]. cbn [negb].
  set (w0 := if seqNum >=? nextSequence w then set_nextSequence (u64 (seqNum + 1)) w else w).
  assert (Hh0 : healthy w0) by (unfold w0; destruct (_ >=? _); exact Hh).
  assert (Hp : skipn (Z.to_nat HeaderSize) (data rawBytes) = []).
  { apply skipn_all2. unfold len, blen in Hlen. lia. }
  rewrite Hp.
  destruct (writeRecordData_healthy (firstn (Z.to_nat HeaderSize) (data rawBytes)) [] w0 Hh0)
    as (w1 & H1 & Hh1).
  rewrite (bind_run _ _ _ _ _ (wrap_run _ _ _ _ _ H1)).
  exists w1. split; [reflexivity|].
  assert (Hm : preserves same_meta
                 (writeRecordData (firstn (Z.to_nat HeaderSize) (data rawBytes)) []))
    by (unfold writeRecordData; preserves_meta).
  destruct (Hm _ _ _ H1) as (_ & Hn & _).
  assert (Hobs : observed w1 = observed w0).
  { unfold writeRecordData in H1.
    apply bind_ok in H1. destruct H1 as (wa & [] & Ha & H1).
    apply bind_ok in H1. destruct H1 as (wb & [] & Hb & H1).
    apply modify_ok in H1. destruct H1 as [-> _].
    apply wrap_ok in Ha, Hb. unfold writer_Write in Ha, Hb.
    destruct (bufio.Write _ (writer w0) (file w0)) as [[b1 f1] e1].
    destruct (bufio.Write _ (writer wa) (file wa)) as [[b2 f2] e2].
    inversion Ha; subst wa. inversion Hb; subst wb. reflexivity. }
  apply writeRecordData_ok in H1.
  split; [|split].
  - rewrite H1, app_nil_r.
    assert (Hf : firstn (Z.to_nat HeaderSize) (data rawBytes) = data rawBytes).
    { apply firstn_all2. unfold len, blen in Hlen. lia. }
    rewrite Hf. unfold w0. destruct (_ >=? _); reflexivity.
  - rewrite Hn. unfold w0. destruct (_ >=? _); reflexivity.
  - rewrite Hobs. unfold w0. destruct (_ >=? _); reflexivity.
Qed.

Lemma append_exact_bytes_header_only_witness :
  let w := NewWAL (mkConfig SyncNone 0 1048576 4) [] in
  let raw := Some [Byte.x00; Byte.x00; Byte.x00; Byte.x00; Byte.x00; Byte.x00; Byte.x01] in
  exists w', AppendExactBytes raw 5 w = (w', Err PanicIndexOutOfRange)
             /\ stream w' = data raw /\ nextSequence w' = 6.
Proof.
  intros w raw.
  destruct (append_exact_bytes_header_only raw 5 w) as (w' & Ha & Hst & Hn & _).
  - reflexivity.
  - repeat split.
  - reflexivity.
  - reflexivity.
  - exists w'. split; [exact Ha|]. split; [exact Hst | exact Hn].
Defined.

(** ** Batches *)

Lemma write_batch_oversize s pre e post : forall w,
  healthy w ->
  Forall (fun e => entrySize (Type_ e) (Key e) (Value e) <= MaxRecordSize) pre ->
  MaxRecordSize < entrySize (Type_ e) (Key e) (Value e) ->
  exists w', write_batch s (pre ++ e :: post) w
             = (w', Err (Wrap "failed to write entry" (Errorf "record too large")))
             /\ stream w' = stream w ++ batch_image s pre.
Proof.
  induction pre as [|p pre IH]; intros w Hh Hall Hbig; cbn [app write_batch].
  - unfold bind, wrap, writeRecord.
    destruct (entrySize (Type_ e) (Key e) (Value e) >? MaxRecordSize) eqn:E; [|lia].
    exists w. split; [reflexivity|]. unfold batch_image. cbn. rewrite app_nil_r. reflexivity.
  - inversion Hall as [|? ? Hp Hpre]; subst.
    destruct (writeRecord_healthy RecordTypeFull (Type_ p) s (Key p) (Value p) w Hh Hp)
      as (w1 & H1 & Hh1).
    rewrite (bind_run _ _ _ _ _ (wrap_run _ _ _ _ _ H1)).
    destruct (IH w1 Hh1 Hpre Hbig) as (w' & Hw & Hs).
    exists w'. split; [exact Hw|].
    apply writeRecord_ok in H1. destruct H1 as [H1 _].
    rewrite Hs, H1. unfold batch_image. cbn [map concat].
    rewrite <- !app_assoc. reflexivity.
Qed.

(** X6. A batch is never fragmented, and it is not checked before it is
    written: when an entry of the batch is larger than [MaxRecordSize],
    [AppendBatch] fails at that entry with "record too large". By then the
    entries before it have been written as Full records under the current
    [nextSequence], and [nextSequence] has not moved, so the next append
    is given the same sequence number. *)
Theorem batch_fails_at_oversize_entry (pre post : list Entry) (e : Entry) (w : WAL) :
  status w = WALStatusActive -> healthy w ->
  nextSequence w < MaxSequenceNumber ->
  Forall (fun e => entrySize (Type_ e) (Key e) (Value e) <= MaxRecordSize) pre ->
  MaxRecordSize < entrySize (Type_ e) (Key e) (Value e) ->
  exists w',
    AppendBatch (pre ++ e :: post) w
    = (w', Err (Wrap "failed to write entry" (Errorf "record too large")))
    /\ stream w' = stream w ++ batch_image (nextSequence w) pre
    /\ nextSequence w' = nextSequence w
    /\ status w' = WALStatusActive.
Proof.
  intros Hs Hh Hlt Hall Hbig. rewrite AppendBatch_cases, Hs.
  assert (Hne : exists x xs, pre ++ e :: post = x :: xs)
    by (destruct pre; cbn; eauto).
  destruct Hne as (x & xs & Hx). rewrite Hx. cbv iota. rewrite <- Hx. clear x xs Hx.
  destruct (nextSequence w >=? MaxSequenceNumber) eqn:E; [lia|].
  set (w0 := warn_if_due (nextSequence w) w).
  assert (Hh0 : healthy w0) by (apply healthy_warn_if_due, Hh).
  destruct (reserve_batch_healthy (batch_totalSize (pre ++ e :: post)) w0 Hh0)
    as (w1 & H1 & Hh1).
  rewrite (bind_run _ _ _ _ _ H1).
  destruct (write_batch_oversize (nextSequence w) pre e post w1 Hh1 Hall Hbig)
    as (w' & Hw & Hst).
  unfold bind at 1. rewrite Hw. exists w'. split; [reflexivity|].
  pose proof (reserve_batch_stream _ _ _ _ H1) as Hs1. unfold same_stream in Hs1.
  pose proof (reserve_batch_meta _ _ _ _ H1) as (_ & Hn1 & Hst1 & _).
  pose proof (write_batch_meta _ _ _ _ _ Hw) as (_ & Hn2 & Hst2 & _).
  split; [|split].
  - rewrite Hst, Hs1. unfold w0. rewrite stream_warn_if_due. reflexivity.
  - rewrite Hn2, Hn1. unfold w0. apply nextSequence_warn_if_due.
  - rewrite Hst2, Hst1. unfold w0. rewrite status_warn_if_due. exact Hs.
Qed.

Lemma batch_fails_at_oversize_entry_witness :
  let w := NewWAL (mkConfig SyncNone 0 1048576 4) [] in
  let small := mkEntry 0 OpTypePut (Some [Byte.x6b]) (Some [Byte.x76]) in
  let big := mkEntry 0 OpTypePut (Some [Byte.x6b]) (Some (repeat Byte.x76 (Z.to_nat 40000))) in
  exists w',
    AppendBatch [small; big; small] w
    = (w', Err (Wrap "failed to write entry" (Errorf "record too large")))
    /\ blen (stream w') = 26
    /\ nextSequence w' = 1.
Proof.
  intros w small big.
  destruct (batch_fails_at_oversize_entry [small] [small] big w) as (w' & Ha & Hst & Hn & _).
  - reflexivity.
  - repeat split.
  - change (nextSequence w) with 1. rewrite MaxSequenceNumber_eq. lia.
  - constructor; [vm_compute; discriminate | constructor].
  - unfold entrySize, len, blen. cbn [Type_ Key Value big data].
    rewrite repeat_length, Z2Nat.id, MaxRecordSize_eq by lia. cbn. lia.
  - exists w'. split; [exact Ha|]. split; [|exact Hn].
    rewrite Hst. reflexivity.
Defined.

(** X7. A successful [AppendBatchWithSequence] of a non-empty batch
    returns the start sequence number the caller supplied, which is below
    [MaxSequenceNumber]; every entry of the batch lies in the log as one
    Full record under that number, whatever [SequenceNumber] the entry
    itself carried, and [nextSequence] is the larger of its old value and
    [startSequence + 1]. On an Active WAL with healthy I/O the call
    succeeds whenever each entry fits one record. *)
Theorem batch_with_sequence_effect (entries : list Entry) (startSequence : Z) (w : WAL) :
  0 <= startSequence -> entries <> [] ->
  (forall w' r,
      AppendBatchWithSequence entries startSequence w = (w', Ok r) ->
      r = startSequence /\ startSequence < MaxSequenceNumber
      /\ nextSequence w' = Z.max (nextSequence w) (startSequence + 1)
      /\ stream w' = stream w ++ batch_image startSequence entries)
  /\ (status w = WALStatusActive -> healthy w ->
      startSequence < MaxSequenceNumber ->
      Forall (fun e => entrySize (Type_ e) (Key e) (Value e) <= MaxRecordSize) entries ->
      exists w', AppendBatchWithSequence entries startSequence w = (w', Ok startSequence)).
Proof.
  intros H0 Hne. split.
  - intros w' r H. apply AppendBatchWithSequence_ok in H; [|exact H0|exact Hne].
    destruct H as (Hr & Hlt & Hn & Hst & _). auto.
  - intros Hs Hh Hlt Hall. apply AppendBatchWithSequence_healthy; try assumption. lia.
Qed.

Lemma batch_with_sequence_effect_witness :
  let w := NewWAL (mkConfig SyncNone 0 1048576 4) [] in
  let es := [mkEntry 3 OpTypePut (Some [Byte.x61]) (Some [Byte.x31]);
             mkEntry 4 OpTypeDelete (Some [Byte.x62]) None] in
  exists w', AppendBatchWithSequence es 9 w = (w', Ok 9)
             /\ nextSequence w' = 10
             /\ stream w' = batch_image 9 es.
Proof.
  intros w es.
  assert (H0 : 0 <= 9) by lia.
  assert (Hne : es <> []) by discriminate.
  destruct (batch_with_sequence_effect es 9 w H0 Hne) as [Hinv Hrun].
  destruct Hrun as (w' & Ha).
  - reflexivity.
  - repeat split.
  - rewrite MaxSequenceNumber_eq. lia.
  - repeat constructor; vm_compute; discriminate.
  - exists w'. split; [exact Ha|].
    destruct (Hinv _ _ Ha) as (_ & _ & Hn & Hst). split; [exact Hn | exact Hst].
Defined.

(** ** Sync and Close *)

Lemma check_status_ok w w' a :
  check_status w = (w', Ok a) -> w' = w /\ status w = WALStatusActive.
Proof.
  unfold check_status, bind, get, fail, ret.
  destruct (status w); intros H; inversion H; auto.
Qed.

Lemma check_status_err w w' e :
  check_status w = (w', Err e) -> w' = w /\ status w <> WALStatusActive.
Proof.
  unfold check_status, bind, get, fail, ret.
  destruct (status w); intros H; inversion H; split; auto; discriminate.
Qed.

(** What a successful [syncLocked] leaves. *)
Lemma syncLocked_ok w w' :
  syncLocked w = (w', Ok tt) ->
  status w = WALStatusActive
  /\ fdata (file w') = stream w /\ wbuf (writer w') = []
  /\ batchByteSize w' = 0
  /\ observed w' = observed w ++ [OnWALSync (u64 (nextSequence w - 1))]
  /\ nextSequence w' = nextSequence w /\ bytesWritten w' = bytesWritten w
  /\ cfg w' = cfg w /\ status w' = status w.
Proof.
  unfold syncLocked. intros H.
  apply bind_ok in H. destruct H as (w0 & [] & H0 & H).
  apply check_status_ok in H0. destruct H0 as [-> Hs].
  apply bind_ok in H. destruct H as (w1 & [] & H1 & H).
  apply bind_ok in H. destruct H as (w2 & [] & H2 & H).
  apply bind_ok in H. destruct H as (w3 & [] & H3 & H).
  apply bind_ok in H. destruct H as (w4 & wg & H4 & H).
  inversion H4; subst wg w4. clear H4.
  apply modify_ok in H3, H. destruct H3 as [-> _]. destruct H as [-> _].
  apply wrap_ok in H1, H2.
  pose proof (writer_Flush_ok _ _ H1) as Hf.
  unfold writer_Flush in H1.
  destruct (bufio.Flush (writer w) (file w)) as [[b f] [e|]] eqn:E1; inversion H1; subst w1.
  apply Flush_ok in E1. destruct E1 as (Hb & _ & _).
  unfold file_op in H2. cbn [file writer set_io] in H2, Hf.
  destruct (file_Sync f) as [f2 [e2|]] eqn:E2; inversion H2; subst w2.
  apply file_Sync_data in E2. cbn.
  repeat split; try assumption. congruence.
Qed.

(** X8. [Sync] on an Active WAL with healthy I/O succeeds, and whenever it
    succeeds every byte handed to the log is in the file and the buffer is
    empty, the count of unsynced bytes is zero again, and the observers
    are told once that the log is synced up to [nextSequence - 1];
    [nextSequence] and the count of bytes written stay. On a WAL that is
    not Active, [Sync] returns the status error and changes nothing. *)
Theorem sync_flushes_the_log (w : WAL) :
  (forall w',
      Sync w = (w', Ok tt) ->
      fdata (file w') = stream w /\ wbuf (writer w') = []
      /\ batchByteSize w' = 0
      /\ observed w' = observed w ++ [OnWALSync (u64 (nextSequence w - 1))]
      /\ nextSequence w' = nextSequence w /\ bytesWritten w' = bytesWritten w)
  /\ (status w = WALStatusActive -> healthy w -> exists w', Sync w = (w', Ok tt))
  /\ (status w = WALStatusRotating -> Sync w = (w, Err ErrWALRotating))
  /\ (status w = WALStatusClosed -> Sync w = (w, Err ErrWALClosed)).
Proof.
  split; [|split; [|split]].
  - intros w' H. apply syncLocked_ok in H.
    destruct H as (_ & H1 & H2 & H3 & H4 & H5 & H6 & _). repeat split; assumption.
  - intros Hs Hh. destruct (syncLocked_healthy w Hh Hs) as (w' & H & _). eauto.
  - intros Hs. unfold Sync, syncLocked. unfold bind at 1.
    rewrite (check_status_rejects w ErrWALRotating); auto.
  - intros Hs. unfold Sync, syncLocked. unfold bind at 1.
    rewrite (check_status_rejects w ErrWALClosed); auto.
Qed.

Lemma sync_flushes_the_log_witness :
  let w := fst (Append OpTypePut (Some [Byte.x6b]) (Some [Byte.x76])
                       (NewWAL (mkConfig SyncNone 0 1048576 4) [])) in
  fdata (file w) = []
  /\ exists w', Sync w = (w', Ok tt)
                /\ fdata (file w') = stream w /\ observed w' = observed w ++ [OnWALSync 1].
Proof.
  intros w. split; [reflexivity|].
  destruct (sync_flushes_the_log w) as (Hinv & Hrun & _).
  destruct Hrun as (w' & Hs).
  - reflexivity.
  - repeat split.
  - exists w'. split; [exact Hs|].
    destruct (Hinv _ Hs) as (Hf & _ & _ & Ho & _). split; [exact Hf | exact Ho].
Defined.

Lemma file_Close_healthy f :
  faults f = [] -> fclosed f = false ->
  file_Close f = (mkFile (fdata f) true [], None).
Proof.
  intros Hf Hc. unfold file_Close, next_fault. rewrite Hc, Hf. cbn. rewrite Hf.
  reflexivity.
Qed.

Lemma file_Close_closed f f' r : file_Close f = (f', r) -> fclosed f' = true.
Proof.
  unfold file_Close, next_fault. destruct (fclosed f) eqn:Hc.
  - intros H; inversion H; subst. exact Hc.
  - destruct (faults f) as [|b l]; intros H; inversion H; reflexivity.
Qed.

(** The body of [Close] on a WAL that is not Closed. *)
Lemma Close_open w :
  status w <> WALStatusClosed ->
  Close w =
  (wrap "failed to flush WAL buffer during close" writer_Flush ;;
   wrap "failed to sync WAL file during close" (file_op file_Sync) ;;
   modify (set_status WALStatusRotating) ;;
   wrap "failed to close WAL file" (file_op file_Close) ;;
   modify (set_status WALStatusClosed)) w.
Proof.
  intros Hs. unfold Close. unfold bind at 1. unfold get at 1.
  destruct (status w); try reflexivity. congruence.
Qed.



(** ** The sequence counter *)

Lemma Append_healthy ty k v w :
  status w = WALStatusActive -> valid_op ty = true ->
  nextSequence w < MaxSequenceNumber -> healthy w ->
  exists w', Append ty k v w = (w', Ok (nextSequence w)) /\ healthy w'.
Proof.
  intros Hs Hv Hlt Hh.
  assert (Hlt' : (nextSequence w >=? MaxSequenceNumber) = false) by lia.
  rewrite Append_cases, Hs, Hv, Hlt'. cbn [negb].
  apply write_entry_healthy.
  - apply (healthy_warn_if_due (nextSequence w)) in Hh. exact Hh.
  - cbn. rewrite status_warn_if_due. exact Hs.
Qed.

Lemma UpdateNextSequence_run n w :
  UpdateNextSequence n w
  = (if n >? nextSequence w then set_nextSequence n (warn_if_due n w) else w, Ok tt).
Proof.
  unfold UpdateNextSequence, bind, get, when_, modify, warn_if_due, ret.
  destruct (n >? nextSequence w); [|reflexivity].
  destruct (_ && _); reflexivity.
Qed.

(** X10. [UpdateNextSequence] never fails and never lowers the counter:
    it leaves [nextSequence] at the larger of its old value and the
    number given, and touches neither the log nor the status. The next
    [Append] on healthy I/O is then given exactly that number. The number
    given is not checked against the cap: at or above [MaxSequenceNumber]
    it is stored as it is, and from then on [Append] returns
    [ErrSequenceOverflow]. *)
Theorem update_next_sequence_raises (nextSeq : Z) (w : WAL) :
  exists w1,
    UpdateNextSequence nextSeq w = (w1, Ok tt)
    /\ nextSequence w1 = Z.max (nextSequence w) nextSeq
    /\ stream w1 = stream w /\ status w1 = status w
    /\ (forall entryType key value,
           status w = WALStatusActive -> healthy w -> valid_op entryType = true ->
           Z.max (nextSequence w) nextSeq < MaxSequenceNumber ->
           exists w', Append entryType key value w1
                      = (w', Ok (Z.max (nextSequence w) nextSeq)))
    /\ (forall entryType key value,
           status w = WALStatusActive -> valid_op entryType = true ->
           MaxSequenceNumber <= nextSeq ->
           Append entryType key value w1 = (w1, Err ErrSequenceOverflow)).
Proof.
  rewrite UpdateNextSequence_run.
  set (w1 := if nextSeq >? nextSequence w
             then set_nextSequence nextSeq (warn_if_due nextSeq w) else w).
  assert (Hn : nextSequence w1 = Z.max (nextSequence w) nextSeq).
  { unfold w1. destruct (nextSeq >? nextSequence w) eqn:E; cbn; lia. }
  assert (Hst : status w1 = status w).
  { unfold w1. destruct (nextSeq >? nextSequence w); [|reflexivity].
    cbn. apply status_warn_if_due. }
  assert (Hio : writer w1 = writer w /\ file w1 = file w).
  { unfold w1, warn_if_due. destruct (nextSeq >? nextSequence w); [|auto].
    destruct (_ && _); auto. }
  exists w1. split; [reflexivity|]. split; [exact Hn|].
  split; [unfold stream; destruct Hio as [-> ->]; reflexivity|].
  split; [exact Hst|]. split.
  - intros ty k v Hs Hh Hv Hlt.
    destruct (Append_healthy ty k v w1) as (w' & Ha & _).
    + congruence.
    + exact Hv.
    + lia.
    + eapply healthy_same_io; [apply Hio | apply Hio | exact Hh].
    + exists w'. rewrite <- Hn. exact Ha.
  - intros ty k v Hs Hv Hge. rewrite Append_cases, Hst, Hs, Hv. cbn [negb].
    destruct (nextSequence w1 >=? MaxSequenceNumber) eqn:E; [reflexivity|lia].
Qed.

Lemma update_next_sequence_raises_witness :
  let w := NewWAL (mkConfig SyncNone 0 1048576 4) [] in
  exists w1 w',
    UpdateNextSequence 42 w = (w1, Ok tt)
    /\ Append OpTypePut (Some [Byte.x6b]) (Some [Byte.x76]) w1 = (w', Ok 42).
Proof.
  intros w.
  destruct (update_next_sequence_raises 42 w) as (w1 & Hu & _ & _ & _ & Hrun & _).
  destruct (Hrun OpTypePut (Some [Byte.x6b]) (Some [Byte.x76])) as (w' & Ha).
  - reflexivity.
  - repeat split.
  - reflexivity.
  - change (nextSequence w) with 1. rewrite MaxSequenceNumber_eq. lia.
  - exists w1, w'. split; [exact Hu | exact Ha].
Defined.

Lemma batch_tail_meta s es :
  preserves same_meta
    (modify (notify (OnWALBatchWritten s es)) ;; maybeSync ;; ret s).
Proof. preserves_meta. Qed.

Lemma AppendBatch_any es w w' r :
  AppendBatch es w = (w', r) ->
  nextSequence w' = nextSequence w
  \/ ((nextSequence w >=? MaxSequenceNumber) = false
      /\ nextSequence w' = u64 (nextSequence w + 1)).
Proof.
  rewrite AppendBatch_cases.
  destruct (status w); try (intros H; inversion H; subst; left; reflexivity).
  destruct es as [|e0 es0]; [intros H; inversion H; subst; left; reflexivity|].
  destruct (nextSequence w >=? MaxSequenceNumber) eqn:E;
    [intros H; inversion H; subst; left; reflexivity|].
  intros H.
  apply bind_any in H. destruct H as [(e1 & H1 & _) | (w1 & [] & H1 & H)].
  { left. apply reserve_batch_meta in H1. destruct H1 as (_ & Hn & _).
    rewrite Hn. apply nextSequence_warn_if_due. }
  apply bind_any in H. destruct H as [(e2 & H2 & _) | (w2 & [] & H2 & H)].
  { left. apply reserve_batch_meta in H1. apply write_batch_meta in H2.
    destruct H1 as (_ & Hn1 & _). destruct H2 as (_ & Hn2 & _).
    rewrite Hn2, Hn1. apply nextSequence_warn_if_due. }
  apply bind_any in H. destruct H as [(e3 & H3 & _) | (w3 & [] & H3 & H)];
    [discriminate|].
  apply modify_ok in H3. destruct H3 as [-> _].
  apply batch_tail_meta in H. destruct H as (_ & Hn & _).
  right. split; [reflexivity|]. rewrite Hn. reflexivity.
Qed.

Lemma AppendBatchWithSequence_any es s w w' r :
  AppendBatchWithSequence es s w = (w', r) ->
  nextSequence w' = nextSequence w
  \/ ((s >=? MaxSequenceNumber) = false
      /\ nextSequence w < u64 (s + 1) /\ nextSequence w' = u64 (s + 1)).
Proof.
  rewrite AppendBatchWithSequence_cases.
  destruct (status w); try (intros H; inversion H; subst; left; reflexivity).
  destruct es as [|e0 es0]; [intros H; inversion H; subst; left; reflexivity|].
  destruct (s >=? MaxSequenceNumber) eqn:E;
    [intros H; inversion H; subst; left; reflexivity|].
  intros H.
  apply bind_any in H. destruct H as [(e1 & H1 & _) | (w1 & [] & H1 & H)].
  { left. apply reserve_batch_meta in H1. destruct H1 as (_ & Hn & _).
    rewrite Hn. apply nextSequence_warn_if_due. }
  pose proof (reserve_batch_meta _ _ _ _ H1) as (_ & Hn1 & _).
  rewrite nextSequence_warn_if_due in Hn1.
  apply bind_any in H. destruct H as [(e2 & H2 & _) | (w2 & [] & H2 & H)].
  { left. apply write_batch_meta in H2. destruct H2 as (_ & Hn2 & _). congruence. }
  pose proof (write_batch_meta _ _ _ _ _ H2) as (_ & Hn2 & _).
  apply bind_any in H. destruct H as [(e3 & H3 & _) | (wg & w2' & H3 & H)];
    [discriminate|].
  inversion H3; subst wg w2'. clear H3.
  apply bind_any in H. destruct H as [(e4 & H4 & _) | (w4 & [] & H4 & H)].
  { unfold when_ in H4. destruct (_ >? _); discriminate. }
  apply batch_tail_meta in H. destruct H as (_ & Hn & _).
  unfold when_ in H4. destruct (u64 (s + 1) >? nextSequence w2) eqn:E4.
  - apply modify_ok in H4. destruct H4 as [-> _]. cbn in Hn.
    right. split; [reflexivity|]. split; [lia | exact Hn].
  - inversion H4; subst w4. left. congruence.
Qed.

(** X11. No logging call lowers [nextSequence] or takes it past the cap,
    whether the call succeeds or fails, and whatever the I/O does: after
    [Append], [AppendWithSequence], [AppendBatch] or
    [AppendBatchWithSequence] on a WAL whose [nextSequence] is at most
    [MaxSequenceNumber], it is at least what it was and still at most
    [MaxSequenceNumber]. *)
Theorem next_sequence_never_falls (x : Write) (w w' : WAL) (r : result Z) :
  0 <= nextSequence w <= MaxSequenceNumber ->
  match x with
  | WAppendWithSequence _ _ _ s | WAppendBatchWithSequence _ s => 0 <= s
  | _ => True
  end ->
  do_write x w = (w', r) ->
  nextSequence w <= nextSequence w' <= MaxSequenceNumber.
Proof.
  intros Hn Hx. destruct x as [ty k v | ty k v s | es | es s]; cbn [do_write].
  - rewrite Append_cases.
    destruct (status w); try (intros H; inversion H; subst; lia).
    destruct (negb (valid_op ty)); [intros H; inversion H; subst; lia|].
    destruct (nextSequence w >=? MaxSequenceNumber) eqn:E;
      [intros H; inversion H; subst; lia|].
    intros H. apply write_entry_meta in H. destruct H as (_ & H & _).
    cbn in H. rewrite u64_succ_below_max in H by (lia || assumption). lia.
  - rewrite AppendWithSequence_cases.
    destruct (status w); try (intros H; inversion H; subst; lia).
    destruct (negb (valid_op ty)); [intros H; inversion H; subst; lia|].
    destruct (s >=? MaxSequenceNumber) eqn:E;
      [intros H; inversion H; subst; lia|].
    intros H. apply write_entry_meta in H. destruct H as (_ & H & _).
    destruct (s >=? nextSequence w) eqn:E'; [|lia].
    cbn in H. rewrite u64_succ_below_max in H by (lia || assumption). lia.
  - intros H. apply AppendBatch_any in H. destruct H as [H | [E H]]; [lia|].
    rewrite u64_succ_below_max in H by (lia || assumption). lia.
  - intros H. apply AppendBatchWithSequence_any in H.
    destruct H as [H | (E & Hlt & H)]; [lia|].
    rewrite u64_succ_below_max in H, Hlt by (lia || assumption). lia.
Qed.

Lemma next_sequence_never_falls_witness :
  let w := set_nextSequence 20 (NewWAL (mkConfig SyncNone 0 1048576 4) [true]) in
  let big := mkEntry 0 OpTypePut (Some [Byte.x6b]) (Some (repeat Byte.x76 (Z.to_nat 40000))) in
  20 <= nextSequence (fst (AppendBatchWithSequence [big] 30 w)) <= MaxSequenceNumber.
Proof.
  intros w big.
  apply (next_sequence_never_falls (WAppendBatchWithSequence [big] 30) w _
           (snd (AppendBatchWithSequence [big] 30 w))).
  - change (nextSequence w) with 20. rewrite MaxSequenceNumber_eq. lia.
  - lia.
  - cbn [do_write]. destruct (AppendBatchWithSequence [big] 30 w). reflexivity.
Defined.

(** ** What the writes leave alone *)

Lemma keeps_refl {X} (f : WAL -> X) w : keeps f w w.
Proof. reflexivity. Qed.

Lemma keeps_trans {X} (f : WAL -> X) w1 w2 w3 :
  keeps f w1 w2 -> keeps f w2 w3 -> keeps f w1 w3.
Proof. unfold keeps. congruence. Qed.

Section Keeps.
Context {X : Type} (f : WAL -> X).
Hypothesis f_io : forall b fl w, f (set_io b fl w) = f w.

Lemma writer_Write_keeps p : preserves (keeps f) (writer_Write p).
Proof.
  intros w w' r. unfold writer_Write.
  destruct (bufio.Write p (writer w) (file w)) as [[b fl] e].
  intros H; inversion H; subst. apply f_io.
Qed.

Lemma writer_Flush_keeps : preserves (keeps f) writer_Flush.
Proof.
  intros w w' r. unfold writer_Flush.
  destruct (bufio.Flush (writer w) (file w)) as [[b fl] e].
  intros H; inversion H; subst. apply f_io.
Qed.

Lemma file_op_keeps op : preserves (keeps f) (file_op op).
Proof.
  intros w w' r. unfold file_op.
  destruct (op (file w)) as [fl e].
  intros H; inversion H; subst. apply f_io.
Qed.
End Keeps.

(** Proves [preserves (keeps f) c] for a field [f] that [c] does not
    assign. *)
Ltac preserves_keeps :=
  repeat first
    [ apply preserves_bind; [exact (keeps_trans _) | | intros ?]
    | apply preserves_wrap
    | apply preserves_when; [exact (keeps_refl _) | ]
    | apply preserves_ret; exact (keeps_refl _)
    | apply preserves_fail; exact (keeps_refl _)
    | apply preserves_get; exact (keeps_refl _)
    | apply writer_Write_keeps; intros; reflexivity
    | apply writer_Flush_keeps; intros; reflexivity
    | apply file_op_keeps; intros; reflexivity
    | apply preserves_modify; intros ?; reflexivity
    | assumption
    | match goal with
      | |- preserves _ (if ?b then _ else _) => destruct b
      | |- preserves _ (match ?x with _ => _ end) => destruct x
      end ].

Lemma writeRecord_observed t ty s k v :
  preserves (keeps observed) (writeRecord t ty s k v).
Proof. unfold writeRecord, writeRawRecord, writeRecordData. preserves_keeps. Qed.

Lemma write_middle_observed n : forall rem,
  preserves (keeps observed) (write_middle n rem).
Proof.
  induction n as [|n IH]; intros rem; cbn [write_middle].
  - preserves_keeps.
  - pose proof (IH (skipn (Z.to_nat MaxRecordSize) rem)) as IH'.
    unfold writeRawRecord, writeRecordData. preserves_keeps.
Qed.

Lemma writeFragmentedRecord_observed ty s k v :
  preserves (keeps observed) (writeFragmentedRecord ty s k v).
Proof.
  unfold writeFragmentedRecord. cbv zeta.
  apply preserves_bind; [exact (keeps_trans _) | | intros ?].
  { unfold writeRawRecord, writeRecordData. preserves_keeps. }
  apply preserves_bind; [exact (keeps_trans _) | apply write_middle_observed | intros ?].
  unfold writeRawRecord, writeRecordData. preserves_keeps.
Qed.

Lemma reserve_batch_observed n : preserves (keeps observed) (reserve_batch n).
Proof. unfold reserve_batch. cbv zeta. preserves_keeps. Qed.

Lemma write_batch_observed s es : preserves (keeps observed) (write_batch s es).
Proof.
  induction es as [|e es IH]; cbn [write_batch].
  - preserves_keeps.
  - pose proof (writeRecord_observed RecordTypeFull (Type_ e) s (Key e) (Value e)).
    preserves_keeps.
Qed.

Lemma observed_warn_if_due a w : observed (warn_if_due a w) = observed w.
Proof. unfold warn_if_due. destruct (_ && _); reflexivity. Qed.

Lemma cfg_warn_if_due a w : cfg (warn_if_due a w) = cfg w.
Proof. unfold warn_if_due. destruct (_ && _); reflexivity. Qed.

(** ** When the log is synced *)

(** The state in which a successful [write_entry] calls [maybeSync]. *)
Lemma write_entry_sync_point ty s k v w w' r :
  write_entry ty s k v w = (w', Ok r) ->
  exists wp, maybeSync wp = (w', Ok tt)
             /\ cfg wp = cfg w
             /\ observed wp = observed w ++ [OnWALEntryWritten (mkEntry s ty k v)].
Proof.
  unfold write_entry. intros H.
  apply bind_ok in H. destruct H as (w1 & [] & H1 & H).
  apply bind_ok in H. destruct H as (w2 & [] & H2 & H).
  apply bind_ok in H. destruct H as (w3 & [] & H3 & H).
  inversion H; subst r w3.
  apply modify_ok in H2. destruct H2 as [-> _].
  exists (notify (OnWALEntryWritten (mkEntry s ty k v)) w1).
  split; [exact H3|].
  assert (Hm : same_meta w w1 /\ keeps observed w w1).
  { destruct (entrySize ty k v <=? MaxRecordSize).
    - split; [eapply writeRecord_meta | eapply writeRecord_observed]; eauto.
    - split; [eapply writeFragmentedRecord_meta | eapply writeFragmentedRecord_observed];
        eauto. }
  destruct Hm as [(Hc & _) Ho]. unfold keeps in Ho. cbn. split; congruence.
Qed.

(** The state in which a successful logging call calls [maybeSync]. *)
Lemma do_write_sync_point x w w' seq :
  written x seq <> [] ->
  do_write x w = (w', Ok seq) ->
  exists wp, maybeSync wp = (w', Ok tt)
             /\ cfg wp = cfg w
             /\ observed wp = observed w ++ [notification x seq].
Proof.
  intros Hne. destruct x as [ty k v | ty k v s | es | es s]; cbn [do_write notification].
  - intros H. apply Append_ok_inv in H. destruct H as (_ & _ & H).
    pose proof (write_entry_ok _ _ _ _ _ _ _ H) as [-> _].
    apply write_entry_sync_point in H. destruct H as (wp & Hp & Hc & Ho).
    exists wp. split; [exact Hp|]. cbn in Hc, Ho.
    rewrite cfg_warn_if_due in Hc. rewrite observed_warn_if_due in Ho. auto.
  - intros H. apply AppendWithSequence_ok_inv in H. destruct H as (_ & _ & H).
    pose proof (write_entry_ok _ _ _ _ _ _ _ H) as [-> _].
    apply write_entry_sync_point in H. destruct H as (wp & Hp & Hc & Ho).
    exists wp. split; [exact Hp|].
    destruct (s >=? nextSequence w); [|auto].
    cbn in Hc, Ho.
    rewrite cfg_warn_if_due in Hc. rewrite observed_warn_if_due in Ho. auto.
  - rewrite AppendBatch_cases.
    destruct (status w); try discriminate.
    destruct es as [|e0 es0]; [cbn in Hne; congruence|]. set (es := e0 :: es0) in *.
    destruct (nextSequence w >=? MaxSequenceNumber) eqn:E; [discriminate|].
    intros H.
    apply bind_ok in H. destruct H as (w1 & [] & H1 & H).
    apply bind_ok in H. destruct H as (w2 & [] & H2 & H).
    apply bind_ok in H. destruct H as (w3 & [] & H3 & H).
    apply bind_ok in H. destruct H as (w4 & [] & H4 & H).
    apply bind_ok in H. destruct H as (w5 & [] & H5 & H).
    inversion H; subst seq w5.
    apply modify_ok in H3, H4. destruct H3 as [-> _]. destruct H4 as [-> _].
    eexists. split; [exact H5|].
    pose proof (reserve_batch_meta _ _ _ _ H1) as (Hc1 & _).
    pose proof (write_batch_meta _ _ _ _ _ H2) as (Hc2 & _).
    pose proof (reserve_batch_observed _ _ _ _ H1) as Ho1.
    pose proof (write_batch_observed _ _ _ _ _ H2) as Ho2.
    unfold keeps in *. cbn.
    rewrite cfg_warn_if_due in Hc1. rewrite observed_warn_if_due in Ho1.
    split; congruence.
  - rewrite AppendBatchWithSequence_cases.
    destruct (status w); try discriminate.
    destruct es as [|e0 es0]; [cbn in Hne; congruence|]. set (es := e0 :: es0) in *.
    destruct (s >=? MaxSequenceNumber) eqn:E; [discriminate|].
    intros H.
    apply bind_ok in H. destruct H as (w1 & [] & H1 & H).
    apply bind_ok in H. destruct H as (w2 & [] & H2 & H).
    apply bind_ok in H. destruct H as (w2' & wg & Hg & H). inversion Hg; subst wg w2'.
    apply bind_ok in H. destruct H as (w3 & [] & H3 & H).
    apply bind_ok in H. destruct H as (w4 & [] & H4 & H).
    apply bind_ok in H. destruct H as (w5 & [] & H5 & H).
    inversion H; subst seq w5.
    apply modify_ok in H4. destruct H4 as [-> _].
    eexists. split; [exact H5|].
    pose proof (reserve_batch_meta _ _ _ _ H1) as (Hc1 & _).
    pose proof (write_batch_meta _ _ _ _ _ H2) as (Hc2 & _).
    pose proof (reserve_batch_observed _ _ _ _ H1) as Ho1.
    pose proof (write_batch_observed _ _ _ _ _ H2) as Ho2.
    assert (H3' : cfg w3 = cfg w2 /\ observed w3 = observed w2).
    { unfold when_ in H3. destruct (_ >? _).
      - apply modify_ok in H3. destruct H3 as [-> _]. auto.
      - inversion H3; subst. auto. }
    destruct H3' as [Hc3 Ho3].
    unfold keeps in *. cbn.
    rewrite cfg_warn_if_due in Hc1. rewrite observed_warn_if_due in Ho1.
    split; congruence.
Qed.

(** [maybeSync], when it succeeds, has synced or has done nothing,
    according to the mode. *)
Lemma maybeSync_ok w w' :
  maybeSync w = (w', Ok tt) ->
  match WALSyncMode (cfg w) with
  | SyncImmediate => syncLocked w = (w', Ok tt)
  | SyncBatch =>
      if batchByteSize w >=? WALSyncBytes (cfg w)
      then syncLocked w = (w', Ok tt) else w' = w
  | SyncNone => w' = w
  end.
Proof.
  unfold maybeSync. unfold bind at 1. unfold get at 1. cbv zeta. unfold when_.
  destruct (WALSyncMode (cfg w)).
  - intros H; inversion H; reflexivity.
  - destruct (batchByteSize w >=? WALSyncBytes (cfg w)); [auto|].
    intros H; inversion H; reflexivity.
  - auto.
Qed.

(** X12. When the log is synced. A logging call that succeeds and has
    written something first tells the observers of the write. With
    [SyncImmediate] it has then synced: every byte handed to the log so
    far is in the file, the count of unsynced bytes is zero, and the
    observers were told of the sync up to [nextSequence - 1]. With
    [SyncBatch] it has synced in that way, or the count of unsynced bytes
    is still below [WALSyncBytes] and no sync was announced. With
    [SyncNone] no sync is announced. *)
Theorem sync_policy (x : Write) (w w' : WAL) (seq : Z) :
  written x seq <> [] ->
  do_write x w = (w', Ok seq) ->
  let told := observed w ++ [notification x seq] in
  let synced :=
    fdata (file w') = stream w' /\ batchByteSize w' = 0
    /\ observed w' = told ++ [OnWALSync (u64 (nextSequence w' - 1))] in
  match WALSyncMode (cfg w) with
  | SyncImmediate => synced
  | SyncBatch =>
      synced \/ (batchByteSize w' < WALSyncBytes (cfg w) /\ observed w' = told)
  | SyncNone => observed w' = told
  end.
Proof.
  intros Hne H told synced.
  destruct (do_write_sync_point _ _ _ _ Hne H) as (wp & Hp & Hc & Ho).
  assert (Hsync : syncLocked wp = (w', Ok tt) -> synced).
  { intros Hs. pose proof (syncLocked_stream _ _ _ Hs) as Hst.
    apply syncLocked_ok in Hs.
    destruct Hs as (_ & Hf & Hb & Hz & Hobs & Hn & _).
    unfold synced, told. unfold same_stream in Hst.
    split; [congruence|]. split; [exact Hz|]. rewrite Hobs, Ho, Hn. reflexivity. }
  apply maybeSync_ok in Hp. rewrite Hc in Hp.
  destruct (WALSyncMode (cfg w)).
  - subst w'. exact Ho.
  - destruct (batchByteSize wp >=? WALSyncBytes (cfg w)) eqn:E.
    + left. apply Hsync, Hp.
    + right. subst w'. split; [lia | exact Ho].
  - apply Hsync, Hp.
Qed.

Lemma sync_policy_witness :
  let w := NewWAL (mkConfig SyncImmediate 0 1048576 4) [] in
  exists w',
    Append OpTypePut (Some [Byte.x6b]) (Some [Byte.x76]) w = (w', Ok 1)
    /\ fdata (file w') = stream w'
    /\ observed w'
       = [OnWALEntryWritten (mkEntry 1 OpTypePut (Some [Byte.x6b]) (Some [Byte.x76]));
          OnWALSync 1].
Proof.
  intros w.
  destruct (Append_healthy OpTypePut (Some [Byte.x6b]) (Some [Byte.x76]) w)
    as (w' & Ha & _).
  - reflexivity.
  - reflexivity.
  - change (nextSequence w) with 1. rewrite MaxSequenceNumber_eq. lia.
  - repeat split.
  - change (nextSequence w) with 1 in Ha.
    assert (Hne : written (WAppend OpTypePut (Some [Byte.x6b]) (Some [Byte.x76])) 1 <> [])
      by discriminate.
    pose proof (sync_policy (WAppend OpTypePut (Some [Byte.x6b]) (Some [Byte.x76]))
                  w w' 1 Hne Ha) as (Hf & _ & Ho).
    exists w'. split; [exact Ha|]. split; [exact Hf|].
    assert (Hn : nextSequence w' = 2).
    { assert (H0 : 0 <= nextSequence w) by (cbn; lia).
      destruct (Append_nextSequence _ _ _ _ _ _ H0 Ha) as [_ Hok].
      destruct (Hok 1 eq_refl) as [_ Hn]. exact Hn. }
    rewrite Ho, Hn. reflexivity.
Defined.

(** ** The byte counter *)

Lemma counted_refl w : counted w w.
Proof. split; [exists 0; lia | auto]. Qed.

Lemma counted_trans w1 w2 w3 : counted w1 w2 -> counted w2 w3 -> counted w1 w3.
Proof.
  intros [[k1 H1] R1] [[k2 H2] R2]. split; [exists (k1 + k2); lia | auto].
Qed.

Section PreservesOk.
Variable R : WAL -> WAL -> Prop.
Hypothesis R_refl : forall w, R w w.
Hypothesis R_trans : forall w1 w2 w3, R w1 w2 -> R w2 w3 -> R w1 w3.

Lemma preserves_ok_ret {A} (a : A) : preserves_ok R (ret a).
Proof. intros w w' r H. inversion H. apply R_refl. Qed.

Lemma preserves_ok_fail {A} (e : error) : preserves_ok R (@fail A e).
Proof. intros w w' r H. discriminate. Qed.

Lemma preserves_ok_get : preserves_ok R get.
Proof. intros w w' r H. inversion H. apply R_refl. Qed.

Lemma preserves_ok_bind {A B} (c : M A) (k : A -> M B) :
  preserves_ok R c -> (forall a, preserves_ok R (k a)) -> preserves_ok R (bind c k).
Proof.
  intros Hc Hk w w' r H. apply bind_ok in H. destruct H as (w1 & a & H1 & H2).
  eapply R_trans; [eapply Hc; eauto | eapply Hk; eauto].
Qed.

Lemma preserves_ok_wrap {A} msg (c : M A) :
  preserves_ok R c -> preserves_ok R (wrap msg c).
Proof. intros Hc w w' r H. apply wrap_ok in H. eapply Hc; eauto. Qed.

Lemma preserves_ok_when (b : bool) (c : M unit) :
  preserves_ok R c -> preserves_ok R (when_ b c).
Proof. intros Hc. destruct b; simpl; [exact Hc | apply preserves_ok_ret]. Qed.

Lemma preserves_ok_modify (f : WAL -> WAL) :
  (forall w, R w (f w)) -> preserves_ok R (modify f).
Proof. intros Hf w w' r H. inversion H. apply Hf. Qed.
End PreservesOk.

Lemma i64_cong z : exists k, i64 z = z + 2 ^ 64 * k.
Proof.
  unfold i64. exists (- ((z + 2 ^ 63) / 2 ^ 64)).
  pose proof (Z.div_mod (z + 2 ^ 63) (2 ^ 64)). lia.
Qed.

Lemma i64_int64 z : int64 (i64 z).
Proof.
  unfold int64, i64. pose proof (Z.mod_pos_bound (z + 2 ^ 63) (2 ^ 64)). lia.
Qed.

Lemma i64_unique a z k : int64 a -> a = z + 2 ^ 64 * k -> a = i64 z.
Proof.
  unfold int64, i64. intros Ha H.
  assert (Hm : a + 2 ^ 63 = (z + 2 ^ 63) mod 2 ^ 64).
  { apply Z.mod_unique with (q := - k); lia. }
  lia.
Qed.

(** A step that neither adds to the log nor touches the counter. *)
Lemma quiet_counted {A} (c : M A) :
  preserves same_stream c -> preserves (keeps bytesWritten) c ->
  preserves_ok counted c.
Proof.
  intros Hs Hb w w' a H.
  pose proof (Hs _ _ _ H) as H1. pose proof (Hb _ _ _ H) as H2.
  unfold same_stream, keeps in *. split.
  - exists 0. rewrite H1, H2. lia.
  - rewrite H2. auto.
Qed.

Lemma writeRecordData_bytes h p w w' :
  writeRecordData h p w = (w', Ok tt) ->
  bytesWritten w' = i64 (bytesWritten w + (blen h + blen p)).
Proof.
  unfold writeRecordData. intros H.
  apply bind_ok in H. destruct H as (w1 & [] & H1 & H).
  apply bind_ok in H. destruct H as (w2 & [] & H2 & H).
  apply modify_ok in H. destruct H as [-> _].
  apply wrap_ok in H1, H2.
  apply (writer_Write_keeps bytesWritten) in H1; [|reflexivity].
  apply (writer_Write_keeps bytesWritten) in H2; [|reflexivity].
  unfold keeps in *. cbn. congruence.
Qed.

Lemma writeRecordData_counted h p : preserves_ok counted (writeRecordData h p).
Proof.
  intros w w' [] H.
  pose proof (writeRecordData_ok _ _ _ _ H) as Hs.
  apply writeRecordData_bytes in H.
  destruct (i64_cong (bytesWritten w + (blen h + blen p))) as [k Hk].
  split.
  - exists k. rewrite H, Hk, Hs, !blen_app. lia.
  - intros _. rewrite H. apply i64_int64.
Qed.

Lemma maybeSync_counted : preserves_ok counted maybeSync.
Proof.
  apply quiet_counted; [apply maybeSync_stream|].
  unfold maybeSync, syncLocked, check_status. cbv zeta. preserves_keeps.
Qed.

Lemma reserve_batch_counted n : preserves_ok counted (reserve_batch n).
Proof.
  apply quiet_counted; [apply reserve_batch_stream|].
  unfold reserve_batch. cbv zeta. preserves_keeps.
Qed.

Lemma check_status_counted : preserves_ok counted check_status.
Proof.
  intros w w' a H. apply check_status_ok in H. destruct H as [-> _].
  apply counted_refl.
Qed.

Ltac preserves_counted :=
  repeat first
    [ assumption
    | match goal with H : forall _, preserves_ok _ _ |- _ => apply H end
    | apply writeRecordData_counted
    | apply maybeSync_counted
    | apply reserve_batch_counted
    | apply check_status_counted
    | apply preserves_ok_bind; [exact counted_trans | | intros ?]
    | apply preserves_ok_wrap
    | apply preserves_ok_when; [exact counted_refl | ]
    | apply preserves_ok_ret; exact counted_refl
    | apply preserves_ok_fail
    | apply preserves_ok_get; exact counted_refl
    | apply preserves_ok_modify; intros ?; exact (counted_refl _)
    | match goal with
      | |- preserves_ok _ (if ?b then _ else _) => destruct b
      | |- preserves_ok _ (match ?x with _ => _ end) => destruct x
      end ].

Lemma writeRecord_counted t ty s k v : preserves_ok counted (writeRecord t ty s k v).
Proof. unfold writeRecord, writeRawRecord. preserves_counted. Qed.

Lemma write_middle_counted n : forall rem, preserves_ok counted (write_middle n rem).
Proof.
  induction n as [|n IH]; intros rem; cbn [write_middle].
  - preserves_counted.
  - pose proof (IH (skipn (Z.to_nat MaxRecordSize) rem)) as IH'.
    unfold writeRawRecord. preserves_counted.
Qed.

Lemma writeFragmentedRecord_counted ty s k v :
  preserves_ok counted (writeFragmentedRecord ty s k v).
Proof.
  unfold writeFragmentedRecord. cbv zeta.
  apply preserves_ok_bind; [exact counted_trans | | intros ?].
  { unfold writeRawRecord. preserves_counted. }
  apply preserves_ok_bind; [exact counted_trans | apply write_middle_counted | intros ?].
  unfold writeRawRecord. preserves_counted.
Qed.

Lemma write_entry_counted ty s k v : preserves_ok counted (write_entry ty s k v).
Proof.
  pose proof (writeRecord_counted RecordTypeFull ty s k v).
  pose proof (writeFragmentedRecord_counted ty s k v).
  unfold write_entry. preserves_counted.
Qed.

Lemma write_batch_counted s es : preserves_ok counted (write_batch s es).
Proof.
  induction es as [|e es IH]; cbn [write_batch].
  - preserves_counted.
  - pose proof (writeRecord_counted RecordTypeFull (Type_ e) s (Key e) (Value e)).
    preserves_counted.
Qed.

Lemma do_write_counted x : preserves_ok counted (do_write x).
Proof.
  destruct x as [ty k v | ty k v s | es | es s]; cbn [do_write].
  - pose proof (fun s => write_entry_counted ty s k v).
    unfold Append. preserves_counted.
  - pose proof (write_entry_counted ty s k v).
    unfold AppendWithSequence. cbv zeta. preserves_counted.
  - pose proof (fun s => write_batch_counted s es).
    unfold AppendBatch. cbv zeta. preserves_counted.
  - pose proof (write_batch_counted s es).
    unfold AppendBatchWithSequence. cbv zeta. preserves_counted.
Qed.

Lemma AppendExactBytes_counted raw s : preserves_ok counted (AppendExactBytes raw s).
Proof. unfold AppendExactBytes. cbv zeta. preserves_counted. Qed.

Lemma write_all_counted xs : forall w w' es,
  write_all xs w = Some (w', es) -> counted w w'.
Proof.
  induction xs as [|x xs IH]; intros w w' es; cbn [write_all].
  - intros H; inversion H; subst. apply counted_refl.
  - destruct (do_write x w) as [w1 [seq|e]] eqn:Hd; [|discriminate].
    destruct (write_all xs w1) as [[w2 es2]|] eqn:Hw; [|discriminate].
    intros H; inversion H; subst.
    eapply counted_trans; [eapply do_write_counted; eauto | eapply IH; eauto].
Qed.

Lemma counted_i64 w w' :
  counted w w' -> int64 (bytesWritten w) ->
  bytesWritten w' = i64 (bytesWritten w + (blen (stream w') - blen (stream w))).
Proof.
  intros [[k Hk] Hr] Hi. apply i64_unique with (k := k); [auto | lia].
Qed.

(** X13. [bytesWritten] counts the bytes of the log. Every logging call
    that succeeds, and every successful [AppendExactBytes], adds to the
    counter exactly the number of bytes by which the log has grown, in
    64-bit signed arithmetic; syncing and flushing do not move it. So
    after any run of successful logging calls on a new WAL the counter
    is the length of the log. *)
Theorem bytes_written_counts_the_log :
  (forall x w w' seq,
      int64 (bytesWritten w) -> do_write x w = (w', Ok seq) ->
      bytesWritten w'
      = i64 (bytesWritten w + (blen (stream w') - blen (stream w))))
  /\ (forall rawBytes seqNum w w' r,
         int64 (bytesWritten w) -> AppendExactBytes rawBytes seqNum w = (w', Ok r) ->
         bytesWritten w' = i64 (bytesWritten w + len rawBytes))
  /\ (forall c env xs w entries,
         write_all xs (NewWAL c env) = Some (w, entries) ->
         bytesWritten w = i64 (blen (stream w))).
Proof.
  split; [|split].
  - intros x w w' seq Hi H. apply counted_i64; [|exact Hi].
    eapply do_write_counted; eauto.
  - intros raw s w w' r Hi H.
    pose proof (AppendExactBytes_counted _ _ _ _ _ H) as Hc.
    apply AppendExactBytes_ok in H. destruct H as (_ & Hs & _).
    rewrite (counted_i64 _ _ Hc Hi), Hs, blen_app. f_equal. unfold len. lia.
  - intros c env xs w es H. apply write_all_counted in H.
    assert (Hi : int64 (bytesWritten (NewWAL c env))) by (cbn; unfold int64; lia).
    rewrite (counted_i64 _ _ H Hi). cbn. f_equal. lia.
Qed.

Lemma bytes_written_counts_the_log_witness :
  let w := NewWAL (mkConfig SyncBatch 16 1048576 4) [] in
  let xs := [WAppend OpTypePut (Some [Byte.x6b; Byte.x31]) (Some [Byte.x76; Byte.x31]);
             WAppendBatch [mkEntry 0 OpTypePut (Some [Byte.x61]) (Some [Byte.x31]);
                           mkEntry 0 OpTypeDelete (Some [Byte.x62]) None]] in
  exists w' entries,
    write_all xs w = Some (w', entries)
    /\ bytesWritten w' = i64 (blen (stream w'))
    /\ bytesWritten w' = 75.
Proof.
  intros w xs.
  pose (r := write_all xs w).
  pose (w' := match r with Some (w', _) => w' | None => w end).
  pose (entries := match r with Some (_, es) => es | None => [] end).
  assert (Hw : write_all xs w = Some (w', entries)) by (vm_compute; reflexivity).
  assert (Hb : bytesWritten w' = 75) by (vm_compute; reflexivity).
  clearbody w' entries. clear r.
  destruct bytes_written_counts_the_log as (_ & _ & Hrun).
  exists w', entries. split; [exact Hw|]. split; [|exact Hb].
  apply (Hrun _ _ _ _ _ Hw).
Defined.

(** ** A batch reaches the file whole *)

Lemma wrap_any {A} msg (c : M A) w w' r :
  wrap msg c w = (w', r) ->
  exists r0, c w = (w', r0) /\ forall a, r = Ok a -> r0 = Ok a.
Proof.
  unfold wrap. destruct (c w) as [w1 [a|e]]; intros H; inversion H; subst.
  - eexists. split; [reflexivity|]. auto.
  - eexists. split; [reflexivity|]. discriminate.
Qed.

(** A write that fits the free space of the buffer goes to the buffer
    and leaves the file alone. *)
Lemma Write_room p b f b' f' r :
  bufio.Write p b f = (b', f', r) -> blen p <= bufio.Available b ->
  f' = f
  /\ (r = None -> wbuf b' = wbuf b ++ p /\ wsize b' = wsize b).
Proof.
  unfold bufio.Write. cbn [bufio.Write_loop].
  destruct (blen p >? bufio.Available b) eqn:E; [lia|]. cbn [andb].
  destruct (werr b); intros H; inversion H; subst; cbn; split; auto; discriminate.
Qed.

Lemma writer_Write_room p w w' r :
  writer_Write p w = (w', r) -> blen p <= bufio.Available (writer w) ->
  file w' = file w
  /\ (forall a, r = Ok a ->
        wbuf (writer w') = wbuf (writer w) ++ p
        /\ wsize (writer w') = wsize (writer w)).
Proof.
  unfold writer_Write.
  destruct (bufio.Write p (writer w) (file w)) as [[b f] e] eqn:Hw.
  intros H Hroom. inversion H; subst. cbn.
  destruct (Write_room _ _ _ _ _ _ Hw Hroom) as [-> Hok].
  split; [reflexivity|]. intros a Ha. apply Hok. destruct e; [discriminate|reflexivity].
Qed.

Lemma writeRecordData_room h p w w' r :
  writeRecordData h p w = (w', r) ->
  blen h + blen p <= bufio.Available (writer w) ->
  file w' = file w
  /\ (forall a, r = Ok a ->
        wbuf (writer w') = wbuf (writer w) ++ h ++ p
        /\ wsize (writer w') = wsize (writer w)).
Proof.
  unfold writeRecordData. intros H Hroom.
  pose proof (blen_nonneg h) as Hh0. pose proof (blen_nonneg p) as Hp0.
  apply bind_any in H. destruct H as [(e1 & H1 & ->) | (w1 & [] & H1 & H)].
  { apply wrap_any in H1. destruct H1 as (r0 & H1 & _).
    apply writer_Write_room in H1; [|lia]. destruct H1 as [Hf _].
    split; [exact Hf | discriminate]. }
  apply wrap_any in H1. destruct H1 as (r0 & H1 & Hr0).
  rewrite (Hr0 tt eq_refl) in H1.
  apply writer_Write_room in H1; [|lia]. destruct H1 as [Hf1 Hb1].
  destruct (Hb1 tt eq_refl) as [Hb1' Hz1].
  apply bind_any in H. destruct H as [(e2 & H2 & ->) | (w2 & [] & H2 & H)].
  { apply wrap_any in H2. destruct H2 as (r2 & H2 & _).
    apply writer_Write_room in H2.
    - destruct H2 as [Hf _]. split; [congruence | discriminate].
    - unfold bufio.Available in *. rewrite Hb1', Hz1, blen_app. lia. }
  apply wrap_any in H2. destruct H2 as (r2 & H2 & Hr2).
  rewrite (Hr2 tt eq_refl) in H2.
  apply writer_Write_room in H2.
  2: { unfold bufio.Available in *. rewrite Hb1', Hz1, blen_app. lia. }
  destruct H2 as [Hf2 Hb2]. destruct (Hb2 tt eq_refl) as [Hb2' Hz2].
  apply modify_ok in H. destruct H as [-> ->]. cbn.
  split; [congruence|]. intros _ _.
  rewrite Hb2', Hb1', <- app_assoc. split; [reflexivity | congruence].
Qed.

Lemma blen_record_header t p : blen (record_header t p) = HeaderSize.
Proof.
  unfold record_header. rewrite !blen_app, !blen_le_split. reflexivity.
Qed.

Lemma blen_frame t p : blen (frame t p) = HeaderSize + blen p.
Proof. unfold frame. rewrite blen_app, blen_record_header. reflexivity. Qed.

Lemma writeRecord_room t ty s k v w w' r :
  writeRecord t ty s k v w = (w', r) ->
  HeaderSize + entrySize ty k v <= bufio.Available (writer w) ->
  file w' = file w
  /\ (forall a, r = Ok a ->
        wbuf (writer w') = wbuf (writer w) ++ frame t (entry_payload ty s k v)
        /\ wsize (writer w') = wsize (writer w)).
Proof.
  unfold writeRecord, writeRawRecord. intros H Hroom.
  destruct (entrySize ty k v >? MaxRecordSize);
    [inversion H; subst; split; [reflexivity | discriminate]|].
  destruct (blen (entry_payload ty s k v) >? MaxRecordSize);
    [inversion H; subst; split; [reflexivity | discriminate]|].
  apply writeRecordData_room in H.
  - exact H.
  - rewrite blen_record_header, blen_entry_payload. exact Hroom.
Qed.

Lemma fold_left_totalSize es : forall a,
  fold_left
    (fun totalSize entry =>
       totalSize + (HeaderSize + entrySize (Type_ entry) (Key entry) (Value entry)))
    es a
  = a + batch_totalSize es.
Proof.
  unfold batch_totalSize.
  induction es as [|e es IH]; intros a; cbn [fold_left].
  - lia.
  - rewrite IH, (IH (0 + _)). lia.
Qed.

Lemma batch_totalSize_cons e es :
  batch_totalSize (e :: es)
  = HeaderSize + entrySize (Type_ e) (Key e) (Value e) + batch_totalSize es.
Proof.
  unfold batch_totalSize at 1. cbn [fold_left]. rewrite fold_left_totalSize. lia.
Qed.

Lemma entrySize_pos ty k v : 13 <= entrySize ty k v.
Proof.
  unfold entrySize, len. pose proof (blen_nonneg (data k)).
  pose proof (blen_nonneg (data v)). destruct (Byte.eqb ty OpTypeDelete); lia.
Qed.

Lemma batch_totalSize_nonneg es : 0 <= batch_totalSize es.
Proof.
  induction es as [|e es IH]; [reflexivity|].
  rewrite batch_totalSize_cons.
  pose proof (entrySize_pos (Type_ e) (Key e) (Value e)). unfold HeaderSize. lia.
Qed.

(** With room for the whole batch, its records go to the buffer and the
    file is left alone. *)
Lemma write_batch_room s es : forall w w' r,
  write_batch s es w = (w', r) ->
  batch_totalSize es <= bufio.Available (writer w) ->
  file w' = file w
  /\ (forall a, r = Ok a -> wbuf (writer w') = wbuf (writer w) ++ batch_image s es).
Proof.
  induction es as [|e es IH]; intros w w' r; cbn [write_batch].
  - intros H _. inversion H; subst. split; [reflexivity|].
    intros _ _. unfold batch_image. cbn. rewrite app_nil_r. reflexivity.
  - rewrite batch_totalSize_cons. intros H Hroom.
    pose proof (batch_totalSize_nonneg es) as Hes.
    apply bind_any in H. destruct H as [(e1 & H1 & ->) | (w1 & [] & H1 & H)].
    { apply wrap_any in H1. destruct H1 as (r0 & H1 & _).
      apply writeRecord_room in H1; [|lia]. destruct H1 as [Hf _].
      split; [exact Hf | discriminate]. }
    apply wrap_any in H1. destruct H1 as (r0 & H1 & Hr0).
    rewrite (Hr0 tt eq_refl) in H1.
    apply writeRecord_room in H1; [|lia]. destruct H1 as [Hf1 Hb1].
    destruct (Hb1 tt eq_refl) as [Hb1' Hz1].
    apply IH in H.
    2: { unfold bufio.Available in *.
         rewrite Hb1', Hz1, blen_app, blen_frame, blen_entry_payload. lia. }
    destruct H as [Hf Hb]. split; [congruence|].
    intros a Ha. rewrite (Hb a Ha), Hb1'. unfold batch_image. cbn [map concat].
    rewrite <- !app_assoc. reflexivity.
Qed.

Lemma Flush_file b f b' f' r :
  bufio.Flush b f = (b', f', r) ->
  match r with
  | None => fdata f' = fdata f ++ wbuf b /\ wbuf b' = [] /\ wsize b' = wsize b
  | Some _ => fdata f' = fdata f
  end.
Proof.
  unfold bufio.Flush. destruct (werr b).
  - intros H; inversion H; reflexivity.
  - destruct (wbuf b) as [|x l] eqn:Hb.
    + intros H; inversion H; subst. rewrite Hb, app_nil_r. auto.
    + destruct (file_Write (x :: l) f) as [f1 [e|]] eqn:Hw; intros H; inversion H; subst.
      * eapply file_Write_err; eauto.
      * apply file_Write_ok in Hw. cbn. auto.
Qed.

Lemma writer_Flush_file w w' r :
  writer_Flush w = (w', r) ->
  match r with
  | Ok _ => fdata (file w') = stream w /\ wbuf (writer w') = []
            /\ wsize (writer w') = wsize (writer w)
  | Err _ => fdata (file w') = fdata (file w)
  end.
Proof.
  unfold writer_Flush.
  destruct (bufio.Flush (writer w) (file w)) as [[b f] e] eqn:Hf.
  intros H; inversion H; subst. apply Flush_file in Hf.
  destruct e; cbn; exact Hf.
Qed.

(** After [reserve_batch] the file holds what it held, or the whole log
    up to here; when it succeeds, the buffer has room for the batch. *)
Lemma reserve_batch_room n w w1 r :
  reserve_batch n w = (w1, r) ->
  (fdata (file w1) = fdata (file w) \/ fdata (file w1) = stream w)
  /\ (forall a, r = Ok a -> n <= bufio.Available (writer w1)).
Proof.
  unfold reserve_batch. unfold bind at 1. unfold get at 1. cbv zeta. unfold when_.
  destruct (n >? bufio.Size (writer w) - bufio.Buffered (writer w)) eqn:E.
  2: { intros H; inversion H; subst. split; [left; reflexivity|].
       intros _ _. unfold bufio.Available, bufio.Size, bufio.Buffered in *. lia. }
  intros H.
  apply bind_any in H. destruct H as [(e1 & H1 & ->) | (w0 & [] & H1 & H)].
  { apply wrap_any in H1. destruct H1 as (r0 & H1 & _).
    pose proof (writer_Flush_file _ _ _ H1) as Hf.
    destruct r0 as [a|e0].
    - destruct Hf as (Hf & _). split; [right; exact Hf | discriminate].
    - split; [left; exact Hf | discriminate]. }
  apply wrap_any in H1. destruct H1 as (r0 & H1 & Hr0).
  rewrite (Hr0 tt eq_refl) in H1.
  apply writer_Flush_file in H1. destruct H1 as (Hf & Hb & Hz).
  destruct (n >? bufio.Size (writer w)) eqn:E2.
  - unfold bind, get, modify in H. inversion H; subst. cbn.
    split; [right; exact Hf|]. intros _ _.
    unfold bufio.Available, bufio.NewWriterSize. cbn.
    destruct (n + 1024 <=? 0) eqn:E3; unfold bufio.defaultBufSize; lia.
  - inversion H; subst. split; [right; exact Hf|]. intros _ _.
    unfold bufio.Available, bufio.Size in *. rewrite Hb, Hz. cbn. lia.
Qed.

(** Whatever [maybeSync] returns, the file holds what it held or the
    whole log. *)
Lemma maybeSync_file w w' r :
  maybeSync w = (w', r) ->
  fdata (file w') = fdata (file w) \/ fdata (file w') = stream w.
Proof.
  unfold maybeSync. unfold bind at 1. unfold get at 1. cbv zeta. unfold when_.
  destruct (match WALSyncMode (cfg w) with
            | SyncNone => false | SyncBatch => _ | SyncImmediate => true end).
  2: { intros H; inversion H; subst. left. reflexivity. }
  unfold syncLocked. intros H.
  apply bind_any in H. destruct H as [(e0 & H0 & _) | (w0 & [] & H0 & H)].
  { apply check_status_err in H0. destruct H0 as [-> _]. left. reflexivity. }
  apply check_status_ok in H0. destruct H0 as [-> _].
  apply bind_any in H. destruct H as [(e1 & H1 & _) | (w1 & [] & H1 & H)].
  { apply wrap_any in H1. destruct H1 as (r0 & H1 & _).
    pose proof (writer_Flush_file _ _ _ H1) as Hf.
    destruct r0; [right; apply Hf | left; exact Hf]. }
  apply wrap_any in H1. destruct H1 as (r0 & H1 & Hr0).
  rewrite (Hr0 tt eq_refl) in H1.
  apply writer_Flush_file in H1. destruct H1 as (Hf & _).
  assert (Hrest : fdata (file w') = fdata (file w1)).
  { apply bind_any in H. destruct H as [(e2 & H2 & _) | (w2 & [] & H2 & H)].
    - apply wrap_any in H2. destruct H2 as (r2 & H2 & _).
      unfold file_op in H2. destruct (file_Sync (file w1)) as [f2 e2'] eqn:E2.
      inversion H2; subst. cbn. eapply file_Sync_data; eauto.
    - apply wrap_any in H2. destruct H2 as (r2 & H2 & _).
      unfold file_op in H2. destruct (file_Sync (file w1)) as [f2 e2'] eqn:E2.
      inversion H2; subst. apply file_Sync_data in E2.
      unfold bind, modify, get in H. inversion H; subst. cbn. exact E2. }
  right. congruence.
Qed.

(** The body shared by the batch appends: room is made, the records are
    written, and [k] does the rest. *)
Lemma batch_body_file s es (k : M Z) w w' r :
  (forall w2 w3 r3, k w2 = (w3, r3) ->
     fdata (file w3) = fdata (file w2) \/ fdata (file w3) = stream w2) ->
  (reserve_batch (batch_totalSize es) ;; write_batch s es ;; k) w = (w', r) ->
  fdata (file w') = fdata (file w) \/ fdata (file w') = stream w
  \/ fdata (file w') = stream w ++ batch_image s es.
Proof.
  intros Hk H.
  apply bind_any in H. destruct H as [(e1 & H1 & _) | (w1 & [] & H1 & H)].
  { apply reserve_batch_room in H1. destruct H1 as [[Hf | Hf] _]; auto. }
  pose proof (reserve_batch_stream _ _ _ _ H1) as Hs1. unfold same_stream in Hs1.
  apply reserve_batch_room in H1. destruct H1 as [Hf1 Hroom].
  specialize (Hroom tt eq_refl).
  apply bind_any in H. destruct H as [(e2 & H2 & _) | (w2 & [] & H2 & H)].
  { apply write_batch_room in H2; [|exact Hroom]. destruct H2 as [Hf2 _].
    rewrite Hf2. destruct Hf1; auto. }
  apply write_batch_room in H2; [|exact Hroom]. destruct H2 as [Hf2 Hb2].
  specialize (Hb2 tt eq_refl).
  apply Hk in H. destruct H as [H | H].
  - rewrite H, Hf2. destruct Hf1; auto.
  - right. right. rewrite H. unfold stream in *. rewrite Hf2, Hb2, app_assoc, Hs1.
    reflexivity.
Qed.

Lemma batch_tail_file (c : M unit) s es w2 w3 (r3 : result Z) :
  (forall w wa ra, c w = (wa, ra) -> file wa = file w /\ writer wa = writer w) ->
  (c ;; modify (notify (OnWALBatchWritten s es)) ;; maybeSync ;; ret s) w2 = (w3, r3) ->
  fdata (file w3) = fdata (file w2) \/ fdata (file w3) = stream w2.
Proof.
  intros Hc H.
  apply bind_any in H. destruct H as [(e1 & H1 & _) | (wa & [] & H1 & H)].
  { apply Hc in H1. destruct H1 as [-> _]. left. reflexivity. }
  apply Hc in H1. destruct H1 as [Hf Hw].
  apply bind_any in H. destruct H as [(e2 & H2 & _) | (wb & [] & H2 & H)];
    [discriminate|].
  apply modify_ok in H2. destruct H2 as [-> _].
  assert (Hm : fdata (file w3) = fdata (file wa) \/ fdata (file w3) = stream wa).
  { apply bind_any in H. destruct H as [(e3 & H3 & _) | (wc & [] & H3 & H)].
    - apply maybeSync_file in H3. exact H3.
    - apply maybeSync_file in H3. inversion H; subst. exact H3. }
  unfold stream in *. rewrite Hf, Hw in Hm. exact Hm.
Qed.



(** ** The counter stays above the log *)

Lemma do_write_above x w w' seq :
  0 <= nextSequence w <= MaxSequenceNumber -> supplies_uint64 x ->
  do_write x w = (w', Ok seq) ->
  nextSequence w <= nextSequence w' <= MaxSequenceNumber
  /\ Forall (fun e => 0 <= SequenceNumber e < nextSequence w') (written x seq).
Proof.
  intros Hn Hx. destruct x as [ty k v | ty k v s | es | es s];
    cbn [do_write written supplies_uint64] in *.
  - intros H.
    destruct (Append_nextSequence _ _ _ _ _ _ (proj1 Hn) H) as [_ Hok].
    destruct (Hok seq eq_refl) as [-> Hn'].
    apply Append_ok_inv in H. destruct H as (_ & Hlt & _).
    split; [lia|]. constructor; [cbn; lia | constructor].
  - intros H.
    destruct (AppendWithSequence_nextSequence _ _ _ _ _ _ _ Hx H) as [-> Hn'].
    apply AppendWithSequence_ok_inv in H. destruct H as (_ & Hlt & _).
    split; [lia|]. constructor; [cbn; lia | constructor].
  - destruct es as [|e0 es0].
    + rewrite AppendBatch_cases. destruct (status w); try discriminate.
      intros H. inversion H; subst. split; [lia | constructor].
    + intros H. apply AppendBatch_ok in H; [|lia|discriminate].
      destruct H as (-> & Hn' & _ & _ & Hlt).
      split; [lia|]. apply Forall_map, Forall_forall. intros e _. cbn. lia.
  - destruct es as [|e0 es0].
    + rewrite AppendBatchWithSequence_cases. destruct (status w); try discriminate.
      intros H. inversion H; subst. split; [lia | constructor].
    + intros H. apply AppendBatchWithSequence_ok in H; [|lia|discriminate].
      destruct H as (-> & Hlt & Hn' & _ & _).
      split; [lia|]. apply Forall_map, Forall_forall. intros e _. cbn. lia.
Qed.

Lemma write_all_above (xs : list Write) :
  forall (w w' : WAL) (entries : list Entry),
    0 <= nextSequence w <= MaxSequenceNumber ->
    Forall supplies_uint64 xs ->
    write_all xs w = Some (w', entries) ->
    nextSequence w <= nextSequence w' <= MaxSequenceNumber
    /\ Forall (fun e => 0 <= SequenceNumber e < nextSequence w') entries.
Proof.
  induction xs as [|x xs IH]; intros w w' es Hn Hall; cbn [write_all].
  - intros H. inversion H; subst. split; [lia | constructor].
  - inversion Hall as [|? ? Hx Hxs]; subst.
    destruct (do_write x w) as [w1 [seq|e]] eqn:Hd; [|discriminate].
    destruct (write_all xs w1) as [[w2 es2]|] eqn:Hw; [|discriminate].
    intros H. inversion H; subst w2 es. clear H.
    destruct (do_write_above _ _ _ _ Hn Hx Hd) as [Hn1 Ha1].
    assert (Hn1' : 0 <= nextSequence w1 <= MaxSequenceNumber) by lia.
    destruct (IH _ _ _ Hn1' Hxs Hw) as [Hn2 Ha2].
    split; [lia|]. apply Forall_app. split; [|exact Ha2].
    eapply Forall_impl; [|exact Ha1]. cbn. intros e He. lia.
Qed.

(** X15. [nextSequence] stays above the log. Along any run of successful
    logging calls, started with [nextSequence] at most
    [MaxSequenceNumber], every entry logged carries a sequence number
    below the [nextSequence] the run ends with, which is still at most
    [MaxSequenceNumber]: a number handed out by [Append] after the run is
    not in the log yet. The sequence numbers callers supply may come in
    any order. *)
Theorem next_sequence_above_the_log (xs : list Write) (w w' : WAL)
        (entries : list Entry) :
  0 <= nextSequence w <= MaxSequenceNumber ->
  Forall supplies_uint64 xs ->
  write_all xs w = Some (w', entries) ->
  nextSequence w <= nextSequence w' <= MaxSequenceNumber
  /\ Forall (fun e => 0 <= SequenceNumber e < nextSequence w') entries.
Proof. apply write_all_above. Qed.

Lemma next_sequence_above_the_log_witness :
  let w := NewWAL (mkConfig SyncNone 0 1048576 4) [] in
  let xs := [WAppendWithSequence OpTypePut (Some [Byte.x6b]) (Some [Byte.x76]) 40;
             WAppendWithSequence OpTypePut (Some [Byte.x6b]) (Some [Byte.x77]) 7;
             WAppend OpTypeDelete (Some [Byte.x6b]) None] in
  exists w' entries,
    write_all xs w = Some (w', entries)
    /\ map SequenceNumber entries = [40; 7; 41]
    /\ nextSequence w' = 42
    /\ Forall (fun e => 0 <= SequenceNumber e < nextSequence w') entries.
Proof.
  intros w xs.
  pose (r := write_all xs w).
  pose (w' := match r with Some (w', _) => w' | None => w end).
  pose (entries := match r with Some (_, es) => es | None => [] end).
  assert (Hw : write_all xs w = Some (w', entries)) by (vm_compute; reflexivity).
  assert (Hs : map SequenceNumber entries = [40; 7; 41]) by (vm_compute; reflexivity).
  assert (Hn' : nextSequence w' = 42) by (vm_compute; reflexivity).
  clearbody w' entries. clear r.
  assert (Hn : 0 <= nextSequence w <= MaxSequenceNumber)
    by (change (nextSequence w) with 1; rewrite MaxSequenceNumber_eq; lia).
  assert (Hall : Forall supplies_uint64 xs) by (repeat constructor; cbn; lia).
  destruct (next_sequence_above_the_log xs w w' entries Hn Hall Hw) as [_ Ha].
  exists w', entries. auto.
Defined.

(** ** Reusing a segment *)

Lemma last_map_Some {A} (l : list A) x : last (map Some (l ++ [x])) None = Some x.
Proof. rewrite map_app. cbn [map]. apply last_last. Qed.

Lemma ReuseWAL_some c walMaxSize files openFails statFails nextSeq env w :
  ReuseWAL c walMaxSize files openFails statFails nextSeq env = Ok (Some w) ->
  exists older latest,
    files = Ok (older ++ [latest])
    /\ blen latest < (if walMaxSize >? 0 then walMaxSize else 64 * 1024 * 1024)
    /\ stream w = latest /\ nextSequence w = nextSeq
    /\ bytesWritten w = blen latest /\ status w = WALStatusActive
    /\ c = Some (cfg w).
Proof.
  unfold ReuseWAL. destruct c as [c|]; [|discriminate].
  destruct files as [files|e]; [|discriminate].
  destruct (last (map Some files) None) as [latest|] eqn:El; [|discriminate].
  destruct openFails; [discriminate|]. destruct statFails; [discriminate|]. cbv zeta.
  set (m := if walMaxSize >? 0 then walMaxSize else 64 * 1024 * 1024).
  destruct (blen latest >=? m) eqn:E; [discriminate|].
  intros H. inversion H; subst w. clear H.
  destruct (exists_last (l := files)) as (older & x & ->).
  { intros ->. discriminate. }
  rewrite last_map_Some in El. inversion El; subst x.
  exists older, latest. cbn. rewrite app_nil_r. repeat split; try reflexivity. lia.
Qed.



(** ** After a failed write *)

Lemma set_io_same w : set_io (writer w) (file w) w = w.
Proof. destruct w; reflexivity. Qed.

Lemma Write_sticky p b f e :
  werr b = Some e -> bufio.Write p b f = (b, f, Some e).
Proof.
  intros He. unfold bufio.Write. rewrite (Write_loop_sticky _ _ _ _ _ He), He.
  reflexivity.
Qed.

Lemma Flush_sticky b f e :
  werr b = Some e -> bufio.Flush b f = (b, f, Some e).
Proof. intros He. unfold bufio.Flush. rewrite He. reflexivity. Qed.

Lemma writer_Write_sticky p w e :
  werr (writer w) = Some e -> writer_Write p w = (w, Err e).
Proof.
  intros He. unfold writer_Write. rewrite (Write_sticky _ _ _ _ He), set_io_same.
  reflexivity.
Qed.

Lemma writer_Flush_sticky w e :
  werr (writer w) = Some e -> writer_Flush w = (w, Err e).
Proof.
  intros He. unfold writer_Flush. rewrite (Flush_sticky _ _ _ He), set_io_same.
  reflexivity.
Qed.

Lemma writeRawRecord_sticky t p w e :
  werr (writer w) = Some e -> blen p <= MaxRecordSize ->
  writeRawRecord t p w = (w, Err (Wrap "failed to write record header" e)).
Proof.
  intros He Hp. unfold writeRawRecord.
  destruct (blen p >? MaxRecordSize) eqn:E; [lia|].
  unfold writeRecordData, bind, wrap. rewrite (writer_Write_sticky _ _ _ He).
  reflexivity.
Qed.

Lemma write_entry_sticky ty s k v w e :
  werr (writer w) = Some e ->
  write_entry ty s k v w = (w, Err (Wrap "failed to write record header" e)).
Proof.
  intros He. unfold write_entry. unfold bind at 1.
  destruct (entrySize ty k v <=? MaxRecordSize) eqn:E.
  - unfold writeRecord. destruct (entrySize ty k v >? MaxRecordSize) eqn:E'; [lia|].
    rewrite (writeRawRecord_sticky _ _ _ _ He); [reflexivity|].
    rewrite blen_entry_payload. lia.
  - unfold writeFragmentedRecord. cbv zeta. unfold bind at 1.
    pose proof (keyInFirst_bounds k) as Hk. cbv zeta in Hk.
    set (kf := min (len k) (MaxRecordSize - (1 + 8 + 4))) in *.
    rewrite (writeRawRecord_sticky _ _ _ _ He); [reflexivity|].
    rewrite !blen_app, !blen_le_split. change (blen [ty]) with 1.
    rewrite blen_firstn_full by (unfold len in Hk; lia). lia.
Qed.

Lemma writer_Write_err p w w1 e :
  writer_Write p w = (w1, Err e) -> werr (writer w1) = Some e.
Proof.
  unfold writer_Write, bufio.Write.
  destruct (bufio.Write_loop 3 p (writer w) (file w)) as [[p1 b1] f1].
  destruct (werr b1) as [e1|] eqn:E; intros H; inversion H; subst; cbn; exact E || discriminate.
Qed.

Lemma writer_Flush_err w w1 e :
  writer_Flush w = (w1, Err e) -> werr (writer w1) = Some e.
Proof.
  unfold writer_Flush, bufio.Flush.
  destruct (werr (writer w)) as [e0|] eqn:E.
  - intros H; inversion H; subst. cbn. exact E.
  - destruct (wbuf (writer w)) as [|x l]; [discriminate|].
    destruct (file_Write (x :: l) (file w)) as [f1 [e1|]]; intros H; inversion H; subst.
    reflexivity.
Qed.

(** X23. One failed write ends the WAL. The buffered writer keeps the
    first error of a write to the file: a buffer write or a flush that
    fails leaves that error in the writer. From then on, on an Active
    WAL, every [Append] fails wrapping that error, having used up a
    sequence number all the same, and having written nothing; [Sync]
    fails, and so does [Close], which leaves the WAL as it is: it can
    no longer be closed. *)
Theorem failed_write_ends_the_wal :
  (forall p w w1 e, writer_Write p w = (w1, Err e) -> werr (writer w1) = Some e)
  /\ (forall w w1 e, writer_Flush w = (w1, Err e) -> werr (writer w1) = Some e)
  /\ (forall w e,
         werr (writer w) = Some e -> status w = WALStatusActive ->
         (forall entryType key value,
             valid_op entryType = true -> 0 <= nextSequence w < MaxSequenceNumber ->
             exists w1,
               Append entryType key value w
               = (w1, Err (Wrap "failed to write record header" e))
               /\ nextSequence w1 = nextSequence w + 1
               /\ stream w1 = stream w
               /\ werr (writer w1) = Some e /\ status w1 = WALStatusActive)
         /\ Sync w = (w, Err (Wrap "failed to flush WAL buffer" e))
         /\ Close w = (w, Err (Wrap "failed to flush WAL buffer during close" e))).
Proof.
  split; [exact writer_Write_err|]. split; [exact writer_Flush_err|].
  intros w e He Hs. split; [|split].
  - intros ty k v Hv Hn.
    assert (Hlt : (nextSequence w >=? MaxSequenceNumber) = false) by lia.
    rewrite Append_cases, Hs, Hv, Hlt. cbn [negb].
    set (w0 := set_nextSequence (u64 (nextSequence w + 1))
                 (warn_if_due (nextSequence w) w)).
    assert (Hio : writer w0 = writer w /\ file w0 = file w).
    { unfold w0, warn_if_due. destruct (_ && _); auto. }
    assert (He0 : werr (writer w0) = Some e) by (destruct Hio as [-> _]; exact He).
    rewrite (write_entry_sticky _ _ _ _ _ _ He0).
    exists w0. split; [reflexivity|]. split.
    { unfold w0. cbn. apply u64_succ_below_max; [lia | exact Hlt]. }
    split; [unfold stream; destruct Hio as [-> ->]; reflexivity|].
    split; [exact He0|].
    unfold w0. cbn. rewrite status_warn_if_due. exact Hs.
  - unfold Sync, syncLocked.
    rewrite (bind_run _ _ _ _ _ (check_status_active w Hs)).
    unfold bind, wrap. rewrite (writer_Flush_sticky _ _ He). reflexivity.
  - rewrite Close_open by (rewrite Hs; discriminate).
    unfold bind, wrap. rewrite (writer_Flush_sticky _ _ He). reflexivity.
Qed.

Lemma failed_write_ends_the_wal_witness :
  let w0 := NewWAL (mkConfig SyncImmediate 0 1048576 4) [true] in
  let w := fst (Append OpTypePut (Some [Byte.x6b]) (Some [Byte.x76]) w0) in
  werr (writer w) = Some ErrIO
  /\ (exists w1,
         Append OpTypePut (Some [Byte.x6b]) (Some [Byte.x77]) w
         = (w1, Err (Wrap "failed to write record header" ErrIO))
         /\ nextSequence w1 = 3)
  /\ Close w = (w, Err (Wrap "failed to flush WAL buffer during close" ErrIO)).
Proof.
  intros w0 w.
  assert (He : werr (writer w) = Some ErrIO) by reflexivity.
  assert (Hs : status w = WALStatusActive) by reflexivity.
  destruct failed_write_ends_the_wal as (_ & _ & H).
  destruct (H w ErrIO He Hs) as (Ha & _ & Hc).
  split; [exact He|]. split; [|exact Hc].
  destruct (Ha OpTypePut (Some [Byte.x6b]) (Some [Byte.x77])) as (w1 & Hw1 & Hn & _).
  - reflexivity.
  - change (nextSequence w) with 2. rewrite MaxSequenceNumber_eq. lia.
  - exists w1. split; [exact Hw1 | exact Hn].
Defined.

(** ** Reading entries back from a live WAL *)

Section ReaderFacts.

Variable OpenReader : list byte -> result (list (result Entry)).
Variable skippable : error -> bool.

Lemma read_entries_from minSequence reads : forall entries out,
  Forall (fun e => minSequence <= SequenceNumber e) entries ->
  read_entries skippable minSequence reads entries = (out, None) ->
  Forall (fun e => minSequence <= SequenceNumber e) out.
Proof.
  induction reads as [|[entry|err] reads IH]; intros entries out Hall;
    cbn [read_entries].
  - intros H; inversion H; subst. exact Hall.
  - apply IH. destruct (SequenceNumber entry >=? minSequence) eqn:E; [|exact Hall].
    apply Forall_app. split; [exact Hall|]. constructor; [lia | constructor].
  - destruct (skippable err); [apply IH, Hall | discriminate].
Qed.

Lemma getEntriesFromFile_from content minSequence out :
  getEntriesFromFile OpenReader skippable content minSequence = (out, None) ->
  Forall (fun e => minSequence <= SequenceNumber e) out.
Proof.
  unfold getEntriesFromFile. destruct (OpenReader content) as [reads|err]; [|discriminate].
  apply read_entries_from. constructor.
Qed.

Lemma older_entries_from cur seq files : forall result,
  Forall (fun e => seq <= SequenceNumber e) result ->
  Forall (fun e => seq <= SequenceNumber e)
         (older_entries OpenReader skippable cur files seq result).
Proof.
  induction files as [|[name content] files IH]; intros result Hall;
    cbn [older_entries]; [exact Hall|].
  destruct (String.eqb name cur); [apply IH, Hall|].
  destruct (getEntriesFromFile OpenReader skippable content seq) as [es [err|]] eqn:E.
  - apply IH, Hall.
  - apply IH. apply Forall_app. split; [exact Hall|].
    eapply getEntriesFromFile_from; eauto.
Qed.


End ReaderFacts.


(** ** The status setters *)

Lemma Write_fits p b f :
  werr b = None -> blen p <= bufio.Available b ->
  bufio.Write p b f = (mkWriter (wbuf b ++ p) (wsize b) None, f, None).
Proof.
  intros He Hroom. unfold bufio.Write. cbn [bufio.Write_loop].
  destruct (blen p >? bufio.Available b) eqn:E; [lia|]. cbn [andb].
  rewrite He. reflexivity.
Qed.

(** With room in the buffer and no error pending, a record goes to the
    buffer, whatever the state of the file. *)
Lemma writeRecordData_fits h p w :
  werr (writer w) = None ->
  blen h + blen p <= bufio.Available (writer w) ->
  exists w',
    writeRecordData h p w = (w', Ok tt)
    /\ file w' = file w
    /\ wbuf (writer w') = wbuf (writer w) ++ h ++ p
    /\ werr (writer w') = None.
Proof.
  intros He Hroom.
  pose proof (blen_nonneg h) as Hh0. pose proof (blen_nonneg p) as Hp0.
  destruct (writeRecordData h p w) as [w' r] eqn:H.
  assert (Hok : r = Ok tt).
  { unfold writeRecordData, bind, wrap, writer_Write in H.
    rewrite (Write_fits h _ _ He) in H by lia. cbn in H.
    rewrite Write_fits in H.
    - cbn in H. inversion H. reflexivity.
    - reflexivity.
    - unfold bufio.Available in *. cbn. rewrite blen_app. lia. }
  subst r. exists w'. split; [reflexivity|].
  pose proof (writeRecordData_room _ _ _ _ _ H Hroom) as [Hf Hb].
  destruct (Hb tt eq_refl) as [Hb' _].
  split; [exact Hf|]. split; [exact Hb'|].
  unfold writeRecordData in H.
  apply bind_ok in H. destruct H as (w1 & [] & H1 & H).
  apply bind_ok in H. destruct H as (w2 & [] & H2 & H).
  apply modify_ok in H. destruct H as [-> _].
  apply wrap_ok in H2. unfold writer_Write in H2.
  destruct (bufio.Write p (writer w1) (file w1)) as [[b f] [e|]] eqn:E;
    inversion H2; subst w2.
  apply Write_ok in E. cbn. apply E.
Qed.

(** X25. The status setters are plain stores. On an Active WAL
    [SetRotating] followed by [SetActive] gives back the very same WAL.
    Neither looks at the status it replaces: after a successful [Close],
    [SetActive] makes the WAL Active again although its file is closed.
    With [SyncNone], an [Append] of an entry that fits the buffer then
    returns a sequence number while its bytes stay in the buffer and the
    file is as [Close] left it; and [Sync] fails. *)
Theorem status_setters_are_plain_stores (w : WAL) :
  (status w = WALStatusActive ->
   exists wr, SetRotating w = (wr, Ok tt) /\ status wr = WALStatusRotating
              /\ SetActive wr = (w, Ok tt))
  /\ (forall w1,
         status w <> WALStatusClosed -> Close w = (w1, Ok tt) ->
         exists w2,
           SetActive w1 = (w2, Ok tt)
           /\ status w2 = WALStatusActive /\ fclosed (file w2) = true
           /\ (forall entryType key value,
                  valid_op entryType = true ->
                  0 <= nextSequence w < MaxSequenceNumber ->
                  WALSyncMode (cfg w) = SyncNone ->
                  entrySize entryType key value <= MaxRecordSize ->
                  HeaderSize + entrySize entryType key value <= wsize (writer w) ->
                  exists w3,
                    Append entryType key value w2 = (w3, Ok (nextSequence w))
                    /\ fdata (file w3) = fdata (file w1)
                    /\ exists w4,
                         Sync w3 = (w4, Err (Wrap "failed to flush WAL buffer" ErrIO)))).
Proof.
  split.
  - intros Hs. eexists. split; [reflexivity|]. split; [reflexivity|].
    unfold SetActive, modify. f_equal. destruct w; cbn in *. subst. reflexivity.
  - intros w1 Hs Hc.
    exists (set_status WALStatusActive w1). split; [reflexivity|].
    split; [reflexivity|].
    (* what Close has left *)
    pose proof Hc as Hc'. rewrite (Close_open w Hs) in Hc'.
    apply bind_ok in Hc'. destruct Hc' as (wa & [] & H1 & H).
    apply bind_ok in H. destruct H as (wb & [] & H2 & H).
    apply bind_ok in H. destruct H as (wc & [] & H3 & H).
    apply bind_ok in H. destruct H as (wd & [] & H4 & H).
    apply wrap_ok in H1, H2, H4.
    apply modify_ok in H3, H. destruct H3 as [-> _]. destruct H as [-> _].
    pose proof (writer_Flush_meta _ _ _ H1) as (Hcfg1 & Hn1 & _).
    unfold writer_Flush in H1.
    destruct (bufio.Flush (writer w) (file w)) as [[b f] [e|]] eqn:E1; inversion H1; subst wa.
    apply Flush_ok in E1. destruct E1 as (Hb & He & Hz).
    unfold file_op in H2, H4. cbn [file writer set_io set_status] in H2, H4.
    destruct (file_Sync f) as [f2 [e2|]] eqn:E2; inversion H2; subst wb.
    cbn [file writer set_io set_status] in H4.
    destruct (file_Close f2) as [f4 [e4|]] eqn:E4; inversion H4; subst wd.
    apply file_Close_closed in E4. cbn in Hcfg1, Hn1.
    split; [exact E4|].
    intros ty k v Hv Hn Hmode Hsz Hroom.
    set (w2 := set_status WALStatusActive _).
    assert (Hlt : (nextSequence w2 >=? MaxSequenceNumber) = false)
      by (change (nextSequence w2) with (nextSequence w); lia).
    rewrite Append_cases. change (status w2) with WALStatusActive. cbv iota.
    rewrite Hv, Hlt. cbn [negb].
    change (nextSequence w2) with (nextSequence w).
    set (w0 := set_nextSequence _ _).
    assert (Hio : writer w0 = b /\ file w0 = f4 /\ cfg w0 = cfg w
                  /\ status w0 = WALStatusActive).
    { unfold w0, warn_if_due. destruct (_ && _); cbn; auto. }
    destruct Hio as (Hw0 & Hf0 & Hc0 & Hst0).
    unfold write_entry.
    destruct (entrySize ty k v <=? MaxRecordSize) eqn:E; [|lia].
    unfold writeRecord, writeRawRecord.
    destruct (entrySize ty k v >? MaxRecordSize) eqn:E'; [lia|].
    rewrite blen_entry_payload, E'.
    destruct (writeRecordData_fits
                (record_header RecordTypeFull (entry_payload ty (nextSequence w) k v))
                (entry_payload ty (nextSequence w) k v) w0)
      as (w3 & Hw3 & Hf3 & Hb3 & He3).
    { rewrite Hw0. exact He. }
    { rewrite blen_record_header, blen_entry_payload, Hw0.
      unfold bufio.Available. rewrite Hb, Hz. change (blen []) with 0. lia. }
    rewrite (bind_run _ _ _ _ _ Hw3).
    assert (Hm3 : same_meta w0 w3).
    { assert (Hp : preserves same_meta
                     (writeRecordData
                        (record_header RecordTypeFull (entry_payload ty (nextSequence w) k v))
                        (entry_payload ty (nextSequence w) k v)))
        by (unfold writeRecordData; preserves_meta).
      apply (Hp _ _ _ Hw3). }
    destruct Hm3 as (Hc3 & _ & Hs3 & _).
    unfold bind at 1. cbn [modify].
    set (w4 := notify _ w3).
    assert (Hsync : maybeSync w4 = (w4, Ok tt)).
    { unfold maybeSync, bind, get, when_.
      assert (Hmode4 : WALSyncMode (cfg w4) = SyncNone) by (cbn; congruence).
      rewrite Hmode4. reflexivity. }
    rewrite (bind_run _ _ _ _ _ Hsync). exists w4. split; [reflexivity|].
    split; [cbn; congruence|].
    unfold Sync, syncLocked.
    assert (Hs4 : status w4 = WALStatusActive) by (cbn; congruence).
    rewrite (bind_run _ _ _ _ _ (check_status_active w4 Hs4)).
    unfold bind, wrap, writer_Flush, bufio.Flush.
    change (writer w4) with (writer w3). change (file w4) with (file w3).
    rewrite He3, Hb3, Hw0, Hb. cbn [app].
    unfold frame, record_header.
    destruct (le_split 4 _ ++ _) as [|x l] eqn:El.
    { apply (f_equal (@length byte)) in El. rewrite !length_app in El.
      rewrite !length_le_split in El. cbn in El. lia. }
    cbn [app]. unfold file_Write. rewrite Hf3, Hf0, E4.
    eexists. reflexivity.
Qed.

Lemma status_setters_are_plain_stores_witness :
  let w := NewWAL (mkConfig SyncNone 0 1048576 4) [] in
  exists w1 w2 w3,
    Close w = (w1, Ok tt)
    /\ SetActive w1 = (w2, Ok tt)
    /\ Append OpTypePut (Some [Byte.x6b]) (Some [Byte.x76]) w2 = (w3, Ok 1)
    /\ fdata (file w3) = []
    /\ snd (Sync w3) = Err (Wrap "failed to flush WAL buffer" ErrIO).
Proof.
  intros w.
  pose (w1 := fst (Close w)).
  assert (Hc : Close w = (w1, Ok tt)) by reflexivity.
  assert (Hd : fdata (file w1) = []) by reflexivity.
  clearbody w1.
  assert (Hs : status w <> WALStatusClosed) by discriminate.
  destruct (status_setters_are_plain_stores w) as [_ H].
  destruct (H w1 Hs Hc) as (w2 & Ha & _ & _ & Happ).
  destruct (Happ OpTypePut (Some [Byte.x6b]) (Some [Byte.x76]))
    as (w3 & Hw3 & Hf3 & Hsync).
  - reflexivity.
  - change (nextSequence w) with 1. rewrite MaxSequenceNumber_eq. lia.
  - reflexivity.
  - vm_compute. discriminate.
  - vm_compute. discriminate.
  - destruct Hsync as (w4 & Hsync).
    exists w1, w2, w3. rewrite Hf3, Hsync. auto.
Defined.

(* ================================================================== *)
(** * Properties of the memtable *)

Import memtable.

Section MemTableFacts.

Variable entry_size : entry -> Z.

#[local] Abbreviation Put := (Put entry_size).
#[local] Abbreviation Delete := (Delete entry_size).
#[local] Abbreviation ProcessWALEntry := (ProcessWALEntry entry_size).
#[local] Abbreviation mutate := (mutate entry_size).
#[local] Abbreviation mutate_all := (mutate_all entry_size).

(** ** Immutability *)

Lemma SetImmutable_immutable m : IsImmutable m = true -> SetImmutable m = m.
Proof. destruct m as [s n i]. unfold IsImmutable, SetImmutable. cbn. intros ->. reflexivity. Qed.

Lemma mutate_immutable op m : IsImmutable m = true -> mutate op m = m.
Proof.
  intros H. destruct op as [k v seq | k seq | | e]; cbn [memtable.mutate].
  - unfold memtable.Put. rewrite H. reflexivity.
  - unfold memtable.Delete. rewrite H. reflexivity.
  - apply SetImmutable_immutable, H.
  - unfold memtable.ProcessWALEntry, memtable.Put, memtable.Delete. rewrite H.
    destruct (Byte.eqb (Type_ e) OpTypePut); [reflexivity|].
    destruct (Byte.eqb (Type_ e) OpTypeDelete); reflexivity.
Qed.

Lemma mutate_all_immutable ops : forall m,
  IsImmutable m = true -> mutate_all ops m = m.
Proof.
  unfold memtable.mutate_all.
  induction ops as [|op ops IH]; intros m H; cbn [fold_left]; [reflexivity|].
  rewrite (mutate_immutable op m H). apply IH, H.
Qed.

(** C5. After [SetImmutable], whatever mutations follow, [IsImmutable]
    answers true, and the skip list, the approximate size and the recorded
    next sequence number are those the memtable had when it was made
    immutable; in particular every later [Put] and [Delete] returns the
    memtable unchanged. *)
Theorem immutable_is_final (m : MemTable) (ops : list Mutation) :
  let m' := mutate_all ops (SetImmutable m) in
  IsImmutable m' = true
  /\ skipList m' = skipList m
  /\ ApproximateSize m' = ApproximateSize m
  /\ GetNextSequenceNumber m' = GetNextSequenceNumber m
  /\ (forall k v seq, Put k v seq m' = m')
  /\ (forall k seq, Delete k seq m' = m').
Proof.
  intros m'. unfold m'.
  rewrite (mutate_all_immutable ops (SetImmutable m) eq_refl).
  repeat split.
Qed.

(** ** The order of the skip list *)

Lemma bytes_compare_refl a : bytes_compare a a = Eq.
Proof. induction a as [|x a IH]; cbn; [reflexivity|]. rewrite Z.compare_refl. exact IH. Qed.

Lemma bytes_compare_eq a : forall b, bytes_compare a b = Eq -> a = b.
Proof.
  induction a as [|x a IH]; intros [|y b]; cbn; try discriminate; [reflexivity|].
  destruct (byte.unsigned x ?= byte.unsigned y) eqn:E; try discriminate.
  intros H. apply Z.compare_eq in E. apply byte.unsigned_inj in E.
  f_equal; auto.
Qed.

Lemma bytes_compare_antisym a : forall b,
  bytes_compare b a = CompOpp (bytes_compare a b).
Proof.
  induction a as [|x a IH]; intros [|y b]; cbn; try reflexivity.
  rewrite (Z.compare_antisym (byte.unsigned x) (byte.unsigned y)).
  destruct (byte.unsigned x ?= byte.unsigned y); cbn; auto.
Qed.

Lemma bytes_compare_trans a : forall b c,
  bytes_compare a b = Lt -> bytes_compare b c = Lt -> bytes_compare a c = Lt.
Proof.
  induction a as [|x a IH]; intros [|y b] [|z c]; cbn; try discriminate; auto.
  destruct (byte.unsigned x ?= byte.unsigned y) eqn:Exy; try discriminate;
    destruct (byte.unsigned y ?= byte.unsigned z) eqn:Eyz; try discriminate;
    intros H1 H2.
  - apply Z.compare_eq in Exy, Eyz.
    rewrite Exy, Eyz, Z.compare_refl. eapply IH; eauto.
  - apply Z.compare_eq in Exy. rewrite Exy, Eyz. reflexivity.
  - apply Z.compare_eq in Eyz. rewrite <- Eyz, Exy. reflexivity.
  - rewrite Z.compare_lt_iff in Exy, Eyz.
    assert (E : (byte.unsigned x ?= byte.unsigned z) = Lt)
      by (apply Z.compare_lt_iff; lia).
    rewrite E. reflexivity.
Qed.

Lemma compareWithEntry_antisym x y :
  compareWithEntry y x = CompOpp (compareWithEntry x y).
Proof.
  unfold compareWithEntry.
  rewrite (bytes_compare_antisym (data (key x)) (data (key y))).
  destruct (bytes_compare (data (key x)) (data (key y))); cbn; try reflexivity.
  apply Z.compare_antisym.
Qed.

Lemma le_entry_total x e : compareWithEntry x e <> Lt -> le_entry e x.
Proof.
  unfold le_entry. rewrite (compareWithEntry_antisym x e).
  destruct (compareWithEntry x e); cbn; congruence.
Qed.

Lemma le_entry_of_lt x e : compareWithEntry x e = Lt -> le_entry x e.
Proof. unfold le_entry. congruence. Qed.

Lemma le_entry_trans x y z : le_entry x y -> le_entry y z -> le_entry x z.
Proof.
  unfold le_entry, compareWithEntry.
  destruct (bytes_compare (data (key x)) (data (key y))) eqn:Exy;
    destruct (bytes_compare (data (key y)) (data (key z))) eqn:Eyz;
    try congruence; intros H1 H2.
  - apply bytes_compare_eq in Exy, Eyz. rewrite Exy, Eyz, bytes_compare_refl.
    rewrite Z.compare_gt_iff in *. lia.
  - apply bytes_compare_eq in Exy. rewrite Exy, Eyz. discriminate.
  - apply bytes_compare_eq in Eyz. rewrite <- Eyz, Exy. discriminate.
  - rewrite (bytes_compare_trans _ _ _ Exy Eyz). discriminate.
Qed.

Lemma Forall_splice (P : entry -> Prop) e l :
  P e -> Forall P l -> Forall P (splice e l).
Proof.
  intros He Hl. induction l as [|x l IH]; cbn [splice].
  - constructor; [exact He | constructor].
  - inversion Hl; subst.
    destruct (compareWithEntry x e); constructor; auto.
Qed.

Lemma In_splice x e l : In x (splice e l) <-> x = e \/ In x l.
Proof.
  induction l as [|y l IH]; cbn [splice].
  - cbn. intuition.
  - destruct (compareWithEntry y e); cbn; cbn in IH; intuition.
Qed.

Lemma splice_sorted e l :
  StronglySorted le_entry l -> StronglySorted le_entry (splice e l).
Proof.
  induction l as [|x l IH]; intros Hs; cbn [splice].
  - constructor; constructor.
  - inversion Hs as [|? ? Hl Hx]; subst.
    destruct (compareWithEntry x e) eqn:E.
    + constructor; [exact Hs|].
      assert (Hex : le_entry e x) by (apply le_entry_total; congruence).
      constructor; [exact Hex|].
      eapply Forall_impl; [|exact Hx]. intros y Hy. eapply le_entry_trans; eauto.
    + constructor; [apply IH, Hl|].
      apply Forall_splice; [apply le_entry_of_lt, E | exact Hx].
    + constructor; [exact Hs|].
      assert (Hex : le_entry e x) by (apply le_entry_total; congruence).
      constructor; [exact Hex|].
      eapply Forall_impl; [|exact Hx]. intros y Hy. eapply le_entry_trans; eauto.
Qed.

Lemma has_key_data k e : has_key k e = true -> data (key e) = data k.
Proof.
  unfold has_key. destruct (bytes_compare (data (key e)) (data k)) eqn:E; try discriminate.
  intros _. apply bytes_compare_eq, E.
Qed.

(** In a sorted list the first record with the key has the highest
    sequence number among the records with the key. *)
Lemma find_newest k l e :
  StronglySorted le_entry l ->
  find (has_key k) l = Some e ->
  In e l /\ has_key k e = true
  /\ forall e', In e' l -> has_key k e' = true -> seqNum e' <= seqNum e.
Proof.
  induction l as [|x l IH]; intros Hs; cbn [find]; [discriminate|].
  inversion Hs as [|? ? Hl Hx]; subst.
  destruct (has_key k x) eqn:Ek.
  - intros H. inversion H; subst x. split; [left; reflexivity|]. split; [exact Ek|].
    intros e' [<- | Hin] Hk'; [lia|].
    rewrite Forall_forall in Hx. specialize (Hx e' Hin).
    unfold le_entry, compareWithEntry in Hx.
    rewrite (has_key_data _ _ Ek), (has_key_data _ _ Hk'), bytes_compare_refl in Hx.
    rewrite Z.compare_gt_iff in Hx. lia.
  - intros H. destruct (IH Hl H) as (Hin & Hk & Hmax).
    split; [right; exact Hin|]. split; [exact Hk|].
    intros e' [<- | Hin'] Hk'; [congruence|]. apply Hmax; assumption.
Qed.

Lemma find_none_filter k l : find (has_key k) l = None <-> filter (has_key k) l = [].
Proof.
  induction l as [|x l IH]; cbn; [tauto|].
  destruct (has_key k x); [split; discriminate | exact IH].
Qed.

(** ** Point lookup *)

Lemma nodes_insert_record e m :
  nodes (skipList (insert_record entry_size e m)) = splice e (nodes (skipList m)).
Proof. unfold insert_record. destruct (seqNum e >? nextSeqNum m); reflexivity. Qed.

(** Every mutation leaves the skip list as it is or splices one record
    in. *)
Lemma mutate_nodes op m :
  nodes (skipList (mutate op m)) = nodes (skipList m)
  \/ exists e, nodes (skipList (mutate op m)) = splice e (nodes (skipList m)).
Proof.
  destruct op as [k v seq | k seq | | e]; cbn [memtable.mutate].
  - unfold memtable.Put. destruct (IsImmutable m); [left; reflexivity|].
    right. eexists. apply nodes_insert_record.
  - unfold memtable.Delete. destruct (IsImmutable m); [left; reflexivity|].
    right. eexists. apply nodes_insert_record.
  - left. reflexivity.
  - unfold memtable.ProcessWALEntry, memtable.Put, memtable.Delete.
    destruct (Byte.eqb (Type_ e) OpTypePut).
    + destruct (IsImmutable m); [left; reflexivity|].
      right. eexists. apply nodes_insert_record.
    + destruct (Byte.eqb (Type_ e) OpTypeDelete); [|left; reflexivity].
      destruct (IsImmutable m); [left; reflexivity|].
      right. eexists. apply nodes_insert_record.
Qed.

Lemma mutate_all_sorted ops : forall m,
  StronglySorted le_entry (nodes (skipList m)) ->
  StronglySorted le_entry (nodes (skipList (mutate_all ops m))).
Proof.
  unfold memtable.mutate_all.
  induction ops as [|op ops IH]; intros m Hs; cbn [fold_left]; [exact Hs|].
  apply IH. destruct (mutate_nodes op m) as [-> | [e ->]]; [exact Hs|].
  apply splice_sorted, Hs.
Qed.

(** C4. In a memtable built from a new one by any mutations, consider the
    records of the skip list whose key equals the looked-up key. When
    there is none, [Get] returns [(nil, false)]. Otherwise [Get] answers
    for a newest one, a record whose sequence number no other record of
    the key exceeds: [(nil, true)] when it is a tombstone and
    [(value, true)] with its value when it is a Put. Records get there by
    [Put] and [Delete] on a mutable memtable, and no mutation removes
    one. *)
Theorem memtable_get_tristate (ops : list Mutation) (k : slice) :
  let m := mutate_all ops NewMemTable in
  let versions := filter (has_key k) (nodes (skipList m)) in
  (versions = [] -> Get k m = (None, false))
  /\ (versions <> [] ->
      exists newest,
        In newest versions
        /\ (forall e, In e versions -> seqNum e <= seqNum newest)
        /\ Get k m = match valueType newest with
                     | TypeDeletion => (None, true)
                     | TypeValue => (value newest, true)
                     end)
  /\ (forall k' v seq, IsImmutable m = false ->
        In (newEntry k' v TypeValue seq) (nodes (skipList (Put k' v seq m)))
        /\ In (newEntry k' None TypeDeletion seq) (nodes (skipList (Delete k' seq m))))
  /\ (forall op e, In e (nodes (skipList m)) -> In e (nodes (skipList (mutate op m)))).
Proof.
  intros m versions.
  assert (Hs : StronglySorted le_entry (nodes (skipList m))).
  { apply mutate_all_sorted. constructor. }
  split; [|split; [|split]].
  - intros Hv. apply find_none_filter in Hv.
    unfold Get, Find. rewrite Hv. reflexivity.
  - intros Hv. unfold Get, Find.
    destruct (find (has_key k) (nodes (skipList m))) as [e|] eqn:Hf.
    + destruct (find_newest _ _ _ Hs Hf) as (Hin & Hk & Hmax).
      exists e. split; [apply filter_In; auto|].
      split; [|destruct (valueType e); reflexivity].
      intros e' He'. apply filter_In in He'. destruct He'. apply Hmax; assumption.
    + apply find_none_filter in Hf. contradiction.
  - intros k' v seq Himm. unfold memtable.Put, memtable.Delete. rewrite Himm.
    rewrite !nodes_insert_record. split; apply In_splice; left; reflexivity.
  - intros op e Hin. destruct (mutate_nodes op m) as [-> | [e' ->]]; [exact Hin|].
    apply In_splice. right. exact Hin.
Qed.


(** ** Recovery *)

#[local] Abbreviation entryHandler := (entryHandler entry_size).
#[local] Abbreviation RecoverFromWAL := (RecoverFromWAL entry_size).

Lemma current_of_snoc earlier current :
  current_of (earlier ++ [current]) = Some current.
Proof.
  unfold current_of. rewrite map_app. cbn [map]. apply last_last.
Qed.

Lemma on_current_snoc f earlier current :
  on_current f (earlier ++ [current]) = earlier ++ [f current].
Proof.
  induction earlier as [|m earlier IH]; [reflexivity|].
  cbn [app on_current]. rewrite IH.
  destruct (earlier ++ [current]) eqn:E; [|reflexivity].
  destruct earlier; discriminate.
Qed.

Lemma max_step maxSeqNum seq :
  (if seq >? maxSeqNum then seq else maxSeqNum) = Z.max maxSeqNum seq.
Proof. destruct (seq >? maxSeqNum) eqn:E; lia. Qed.

(** What one call of the handler does to the state. *)
Lemma entryHandler_cases opts e earlier current maxSeqNum :
  entryHandler opts e (earlier ++ [current], maxSeqNum) =
  if SequenceNumber e >? MaxSequenceNumber opts
  then ((earlier ++ [current], maxSeqNum), None)
  else if ApproximateSize current >=? MemTableSize opts
       then if Z.of_nat (length (earlier ++ [current])) >=? MaxMemTables opts
            then ((earlier ++ [current], Z.max maxSeqNum (SequenceNumber e)),
                  Some (Errorf "maximum number of memtables exceeded during recovery"))
            else ((earlier ++ [SetImmutable current; ProcessWALEntry e NewMemTable],
                   Z.max maxSeqNum (SequenceNumber e)), None)
       else ((earlier ++ [ProcessWALEntry e current],
              Z.max maxSeqNum (SequenceNumber e)), None).
Proof.
  unfold memtable.entryHandler.
  destruct (SequenceNumber e >? MaxSequenceNumber opts); [reflexivity|].
  rewrite current_of_snoc, max_step.
  destruct (ApproximateSize current >=? MemTableSize opts).
  - destruct (Z.of_nat (length (earlier ++ [current])) >=? MaxMemTables opts);
      [reflexivity|].
    cbv zeta. rewrite !on_current_snoc, <- app_assoc. reflexivity.
  - rewrite on_current_snoc. reflexivity.
Qed.

(** The handler keeps the list of memtables non-empty. *)
Lemma entryHandler_nonempty opts e mts maxSeqNum mts' maxSeqNum' r :
  mts <> [] ->
  entryHandler opts e (mts, maxSeqNum) = ((mts', maxSeqNum'), r) ->
  mts' <> []
  /\ (r = None ->
      maxSeqNum' = if SequenceNumber e >? MaxSequenceNumber opts
                   then maxSeqNum else Z.max maxSeqNum (SequenceNumber e)).
Proof.
  intros Hne.
  destruct (exists_last Hne) as (earlier & current & ->).
  rewrite entryHandler_cases.
  destruct (SequenceNumber e >? MaxSequenceNumber opts).
  - intros H; inversion H; subst. split; [exact Hne | reflexivity].
  - destruct (ApproximateSize current >=? MemTableSize opts).
    + destruct (Z.of_nat (length (earlier ++ [current])) >=? MaxMemTables opts);
        intros H; inversion H; subst.
      * split; [exact Hne | discriminate].
      * split; [destruct earlier; discriminate | reflexivity].
    + intros H; inversion H; subst. split; [destruct earlier; discriminate | reflexivity].
Qed.

Lemma replay_maxSeqNum opts entries : forall mts maxSeqNum mts' maxSeqNum',
  mts <> [] ->
  replay_entries (entryHandler opts) entries (mts, maxSeqNum) = ((mts', maxSeqNum'), None) ->
  maxSeqNum' = fold_left Z.max (kept_seqs opts entries) maxSeqNum.
Proof.
  induction entries as [|e entries IH]; intros mts maxSeqNum mts' maxSeqNum' Hne;
    cbn [replay_entries].
  - intros H; inversion H; reflexivity.
  - destruct (entryHandler opts e (mts, maxSeqNum)) as [[mts1 max1] [err|]] eqn:Hh;
      [discriminate|].
    destruct (entryHandler_nonempty _ _ _ _ _ _ _ Hne Hh) as [Hne1 Hmax1].
    intros H. rewrite (IH _ _ _ _ Hne1 H), (Hmax1 eq_refl).
    unfold kept_seqs. cbn [filter].
    destruct (SequenceNumber e >? MaxSequenceNumber opts); reflexivity.
Qed.

Lemma replay_entries_error {S} (handler : Entry -> S -> S * option error)
      pre e post : forall s st err,
  replay_entries handler pre s = (st, None) ->
  snd (handler e st) = Some err ->
  snd (replay_entries handler (pre ++ e :: post) s) = Some err.
Proof.
  induction pre as [|x pre IH]; intros s st err; cbn [app replay_entries].
  - intros H He. inversion H; subst.
    destruct (handler e st) as [s' [err'|]]; cbn in *; congruence.
  - destruct (handler x s) as [s1 [err1|]]; [discriminate|]. apply IH.
Qed.

(** C9. During replay an entry whose sequence number exceeds the
    configured [MaxSequenceNumber] is skipped. For any other entry: while
    the current memtable's approximate size is below [MemTableSize] the
    entry is applied to it; when the size has reached [MemTableSize] and
    one more memtable stays within [MaxMemTables], the current memtable is
    marked immutable and the entry is applied to a new mutable memtable
    added after it; when one more memtable would exceed [MaxMemTables]
    the handler fails, and with it recovery. A recovery that succeeds
    returns as [maxSeqNum] the maximum of the sequence numbers of the
    entries it did not skip (0 when there is none). *)
Theorem recovery_segmentation (cfg : Config) (opts : RecoveryOptions) :
  (forall e earlier current maxSeqNum,
      let memTables := earlier ++ [current] in
      let seen := Z.max maxSeqNum (SequenceNumber e) in
      (SequenceNumber e > MaxSequenceNumber opts ->
       entryHandler opts e (memTables, maxSeqNum) = ((memTables, maxSeqNum), None))
      /\ (SequenceNumber e <= MaxSequenceNumber opts ->
          ApproximateSize current < MemTableSize opts ->
          entryHandler opts e (memTables, maxSeqNum)
          = ((earlier ++ [ProcessWALEntry e current], seen), None))
      /\ (SequenceNumber e <= MaxSequenceNumber opts ->
          ApproximateSize current >= MemTableSize opts ->
          Z.of_nat (length memTables) + 1 <= MaxMemTables opts ->
          entryHandler opts e (memTables, maxSeqNum)
          = ((earlier ++ [SetImmutable current; ProcessWALEntry e NewMemTable], seen),
             None))
      /\ (SequenceNumber e <= MaxSequenceNumber opts ->
          ApproximateSize current >= MemTableSize opts ->
          Z.of_nat (length memTables) + 1 > MaxMemTables opts ->
          exists err, snd (entryHandler opts e (memTables, maxSeqNum)) = Some err))
  /\ (forall dir,
        let entries := concat (map segment_entries dir) in
        (forall memTables maxSeqNum,
            RecoverFromWAL cfg (Some opts) dir = Ok (memTables, maxSeqNum) ->
            maxSeqNum = fold_left Z.max (kept_seqs opts entries) 0)
        /\ (forall pre e post st err,
               entries = pre ++ e :: post ->
               replay_entries (entryHandler opts) pre ([NewMemTable], 0) = (st, None) ->
               snd (entryHandler opts e st) = Some err ->
               RecoverFromWAL cfg (Some opts) dir
               = Err (Wrap "failed to replay WAL" err))).
Proof.
  split.
  - intros e earlier current maxSeqNum memTables seen. unfold memTables, seen.
    rewrite entryHandler_cases.
    repeat split.
    + intros H. destruct (SequenceNumber e >? MaxSequenceNumber opts) eqn:E; [reflexivity|lia].
    + intros H1 H2.
      destruct (SequenceNumber e >? MaxSequenceNumber opts) eqn:E; [lia|].
      destruct (ApproximateSize current >=? MemTableSize opts) eqn:E2; [lia|reflexivity].
    + intros H1 H2 H3.
      destruct (SequenceNumber e >? MaxSequenceNumber opts) eqn:E; [lia|].
      destruct (ApproximateSize current >=? MemTableSize opts) eqn:E2; [|lia].
      destruct (Z.of_nat (length (earlier ++ [current])) >=? MaxMemTables opts) eqn:E3;
        [lia|reflexivity].
    + intros H1 H2 H3.
      destruct (SequenceNumber e >? MaxSequenceNumber opts) eqn:E; [lia|].
      destruct (ApproximateSize current >=? MemTableSize opts) eqn:E2; [|lia].
      destruct (Z.of_nat (length (earlier ++ [current])) >=? MaxMemTables opts) eqn:E3;
        [|lia].
      eexists. reflexivity.
  - intros dir entries. split.
    + intros memTables maxSeqNum. unfold memtable.RecoverFromWAL, ReplayWALDir.
      fold entries.
      destruct (replay_entries (entryHandler opts) entries ([NewMemTable], 0))
        as [[mts mx] [err|]] eqn:Hr; [discriminate|].
      intros H. inversion H; subst.
      eapply replay_maxSeqNum; [|exact Hr]. discriminate.
    + intros pre e post st err Hsplit Hpre Herr.
      unfold memtable.RecoverFromWAL, ReplayWALDir. fold entries. rewrite Hsplit.
      pose proof (replay_entries_error _ pre e post _ _ _ Hpre Herr) as Hfail.
      destruct (replay_entries (entryHandler opts) (pre ++ e :: post) ([NewMemTable], 0))
        as [st' [err'|]]; cbn in Hfail; [|discriminate].
      inversion Hfail; subst. reflexivity.
Qed.
End MemTableFacts.

Lemma memtable_get_tristate_witness :
  let size_of := fun e : entry => len (key e) + len (value e) + 16 in
  let k := Some [Byte.x6b] in
  let v1 := Some [Byte.x31] in
  let v2 := Some [Byte.x32] in
  let m := mutate_all size_of [MPut k v1 1; MPut k v2 3; MDelete k 2] NewMemTable in
  Get k m = (v2, true)
  /\ Get (Some [Byte.x7a]) m = (None, false)
  /\ Get k (Delete size_of k 4 m) = (None, true).
Proof.
  intros size_of k v1 v2 m.
  destruct (memtable_get_tristate size_of [MPut k v1 1; MPut k v2 3; MDelete k 2] k)
    as (_ & Hsome & _).
  destruct (memtable_get_tristate size_of [MPut k v1 1; MPut k v2 3; MDelete k 2]
              (Some [Byte.x7a])) as (Hnone & _).
  split; [|split].
  - destruct Hsome as (newest & Hin & Hmax & Hget); [vm_compute; discriminate|].
    vm_compute. reflexivity.
  - apply Hnone. vm_compute. reflexivity.
  - vm_compute. reflexivity.
Defined.

Lemma frozen_memtable_example :
  let size_of := fun e : entry => len (key e) + len (value e) + 16 in
  let k := Some [Byte.x6b] in
  let m := Put size_of k (Some [Byte.x31]) 5 NewMemTable in
  let m' := mutate_all size_of [MPut k (Some [Byte.x32]) 9; MDelete k 10]
                       (SetImmutable m) in
  IsImmutable m' = true /\ Get k m' = (Some [Byte.x31], true)
  /\ GetNextSequenceNumber m' = 6.
Proof. vm_compute. repeat split. Qed.

Lemma recovery_segmentation_witness :
  let size_of := fun e : entry => len (key e) + len (value e) + 16 in
  let cfg := mkConfig SyncNone 0 1048576 4 in
  let opts := mkRecoveryOptions 3 2 30 in
  let k := Some [Byte.x6b] in
  let v := Some [Byte.x76] in
  let xs := [WAppend OpTypePut k v; WAppend OpTypePut k v;
             WAppend OpTypeDelete k None; WAppend OpTypePut k v] in
  let full := Put size_of k v 2 (Put size_of k v 1 NewMemTable) in
  (* sequence number 4 exceeds the configured maximum 3: skipped *)
  entryHandler size_of opts (mkEntry 4 OpTypePut k v) ([] ++ [full], 2)
  = (([] ++ [full], 2), None)
  (* the current memtable holds 36 >= 30 bytes and a second one is allowed *)
  /\ entryHandler size_of opts (mkEntry 3 OpTypeDelete k None) ([] ++ [full], 2)
     = (([] ++ [SetImmutable full;
                ProcessWALEntry size_of (mkEntry 3 OpTypeDelete k None) NewMemTable],
         Z.max 2 3), None)
  (* a third one is not *)
  /\ (exists err,
         snd (entryHandler size_of opts (mkEntry 3 OpTypeDelete k None)
                ([SetImmutable full] ++ [full], 2)) = Some err)
  (* end to end: four entries logged, the fourth skipped *)
  /\ exists w w' entries memTables,
      write_all xs (NewWAL cfg []) = Some (w, entries)
      /\ Close w = (w', Ok tt)
      /\ RecoverFromWAL size_of cfg (Some opts) [fdata (file w')] = Ok (memTables, 3)
      /\ map IsImmutable memTables = [true; false].
Proof.
  intros size_of cfg opts k v xs full.
  destruct (recovery_segmentation size_of cfg opts) as [Hhandler Hrecover].
  split; [|split; [|split]].
  - apply (Hhandler (mkEntry 4 OpTypePut k v) [] full 2). vm_compute. reflexivity.
  - apply (Hhandler (mkEntry 3 OpTypeDelete k None) [] full 2);
      vm_compute; congruence.
  - apply (Hhandler (mkEntry 3 OpTypeDelete k None) [SetImmutable full] full 2);
      vm_compute; congruence.
  - pose (r := write_all xs (NewWAL cfg [])).
    pose (w := match r with Some (w, _) => w | None => NewWAL cfg [] end).
    pose (entries := match r with Some (_, es) => es | None => [] end).
    pose (w' := fst (Close w)).
    pose (rec := RecoverFromWAL size_of cfg (Some opts) [fdata (file w')]).
    pose (memTables := match rec with Ok (mts, _) => mts | Err _ => [] end).
    pose (maxSeqNum := match rec with Ok (_, n) => n | Err _ => 0 end).
    assert (Hw : write_all xs (NewWAL cfg []) = Some (w, entries))
      by (vm_compute; reflexivity).
    assert (Hc : Close w = (w', Ok tt)) by (vm_compute; reflexivity).
    assert (Hr : RecoverFromWAL size_of cfg (Some opts) [fdata (file w')]
                 = Ok (memTables, maxSeqNum)) by (vm_compute; reflexivity).
    assert (Hi : map IsImmutable memTables = [true; false]) by (vm_compute; reflexivity).
    assert (Hk : fold_left Z.max
                   (kept_seqs opts (concat (map segment_entries [fdata (file w')]))) 0
                 = 3) by (vm_compute; reflexivity).
    clearbody maxSeqNum memTables. clear rec. clearbody w' entries w. clear r.
    destruct (Hrecover [fdata (file w')]) as [Hmax _].
    rewrite (Hmax _ _ Hr), Hk in Hr.
    exists w, w', entries, memTables. auto.
Defined.

(* ================================================================== *)
(** * Further properties of the memtable and of recovery *)

Section MemTableMore.

Variable entry_size : entry -> Z.

#[local] Abbreviation Put := (Put entry_size).
#[local] Abbreviation Delete := (Delete entry_size).
#[local] Abbreviation ProcessWALEntry := (ProcessWALEntry entry_size).
#[local] Abbreviation mutate := (mutate entry_size).
#[local] Abbreviation mutate_all := (mutate_all entry_size).
#[local] Abbreviation insert_record := (insert_record entry_size).
#[local] Abbreviation entryHandler := (entryHandler entry_size).
#[local] Abbreviation RecoverFromWAL := (RecoverFromWAL entry_size).

(** ** The sequence counter of the memtable *)

Lemma immutable_insert_record e m : immutable (insert_record e m) = immutable m.
Proof. unfold memtable.insert_record. destruct (_ >? _); reflexivity. Qed.

Lemma nextSeqNum_insert_record e m :
  nextSeqNum (insert_record e m)
  = if seqNum e >? nextSeqNum m then u64 (seqNum e + 1) else nextSeqNum m.
Proof. unfold memtable.insert_record. destruct (_ >? _); reflexivity. Qed.

(** What a mutation other than [SetImmutable] does to the flag and the
    counter of a mutable memtable. *)
Lemma mutate_mutable op m :
  immutable m = false -> op <> MSetImmutable ->
  immutable (mutate op m) = false
  /\ nextSeqNum (mutate op m)
     = match applied_seq op with
       | Some s => if s >? nextSeqNum m then u64 (s + 1) else nextSeqNum m
       | None => nextSeqNum m
       end.
Proof.
  intros Hm Hop.
  destruct op as [k v seq | k seq | | e]; cbn [memtable.mutate applied_seq].
  - unfold memtable.Put, IsImmutable. rewrite Hm.
    rewrite immutable_insert_record, nextSeqNum_insert_record. auto.
  - unfold memtable.Delete, IsImmutable. rewrite Hm.
    rewrite immutable_insert_record, nextSeqNum_insert_record. auto.
  - congruence.
  - unfold memtable.ProcessWALEntry, memtable.Put, memtable.Delete, IsImmutable.
    rewrite Hm.
    destruct (Byte.eqb (Type_ e) OpTypePut); cbn [orb].
    + rewrite immutable_insert_record, nextSeqNum_insert_record. auto.
    + destruct (Byte.eqb (Type_ e) OpTypeDelete).
      * rewrite immutable_insert_record, nextSeqNum_insert_record. auto.
      * auto.
Qed.

Lemma mutate_all_counter ops : forall m,
  immutable m = false -> ~ In MSetImmutable ops ->
  (forall op s, In op ops -> applied_seq op = Some s -> 0 <= s < MaxUint64) ->
  nextSeqNum m <= nextSeqNum (mutate_all ops m)
  /\ (forall op s, In op ops -> applied_seq op = Some s ->
        s <= nextSeqNum (mutate_all ops m))
  /\ (nextSeqNum (mutate_all ops m) = nextSeqNum m
      \/ exists op s, In op ops /\ applied_seq op = Some s
                      /\ nextSeqNum (mutate_all ops m) = s + 1).
Proof.
  induction ops as [|op ops IH]; intros m Hm Hno Hrange.
  - cbn. split; [lia|]. split; [intros ? ? []|]. left. reflexivity.
  - unfold memtable.mutate_all. cbn [fold_left].
    fold (mutate_all ops (mutate op m)).
    destruct (mutate_mutable op m Hm) as [Hm1 Hn1].
    { intros ->. apply Hno. left. reflexivity. }
    destruct (IH (mutate op m) Hm1) as (Hle & Hall & Hlast).
    { intros Hin. apply Hno. right. exact Hin. }
    { intros op' s Hin. apply Hrange. right. exact Hin. }
    assert (Hstep : nextSeqNum m <= nextSeqNum (mutate op m)
                    /\ (forall s, applied_seq op = Some s -> s <= nextSeqNum (mutate op m))
                    /\ (nextSeqNum (mutate op m) = nextSeqNum m
                        \/ exists s, applied_seq op = Some s
                                     /\ nextSeqNum (mutate op m) = s + 1)).
    { rewrite Hn1. destruct (applied_seq op) as [s|] eqn:Es.
      - assert (Hs : 0 <= s < MaxUint64) by (apply (Hrange op); [left; reflexivity | exact Es]).
        unfold MaxUint64 in Hs.
        destruct (s >? nextSeqNum m) eqn:E.
        + rewrite u64_small by lia. split; [lia|]. split.
          * intros s' Hs'. inversion Hs'; subst. lia.
          * right. exists s. auto.
        + split; [lia|]. split.
          * intros s' Hs'. inversion Hs'; subst. lia.
          * left. reflexivity.
      - split; [lia|]. split; [discriminate | left; reflexivity]. }
    destruct Hstep as (Hle1 & Hs1 & Hlast1).
    split; [lia|]. split.
    + intros op' s [<- | Hin] Hs.
      * specialize (Hs1 s Hs). lia.
      * apply (Hall op' s Hin Hs).
    + destruct Hlast as [Hsame | (op' & s & Hin & Hs & Heq)].
      * rewrite Hsame. destruct Hlast1 as [Hsame1 | (s & Hs & Heq)].
        -- left. exact Hsame1.
        -- right. exists op, s. split; [left; reflexivity|]. auto.
      * right. exists op', s. split; [right; exact Hin|]. auto.
Qed.

(** X17. The memtable's sequence counter. While a memtable is mutable,
    every [Put], [Delete] and replayed Put or Delete entry with a
    sequence number above [nextSeqNum] sets it to that number plus one,
    and no other leaves it unchanged. So, for sequence numbers below
    2^64 - 1, after any run of such mutations the counter has not gone
    down, is at least every sequence number inserted, and is either what
    it was or one above a sequence number inserted. It is not always
    above them: inserting the sequence number the counter stands at
    leaves it there, so [GetNextSequenceNumber] can return a number that
    is in use. *)
Theorem memtable_counter_bounds (ops : list Mutation) (m : MemTable) :
  IsImmutable m = false -> ~ In MSetImmutable ops ->
  (forall op s, In op ops -> applied_seq op = Some s -> 0 <= s < MaxUint64) ->
  let m' := mutate_all ops m in
  GetNextSequenceNumber m <= GetNextSequenceNumber m'
  /\ (forall op s, In op ops -> applied_seq op = Some s ->
        s <= GetNextSequenceNumber m')
  /\ (GetNextSequenceNumber m' = GetNextSequenceNumber m
      \/ exists op s, In op ops /\ applied_seq op = Some s
                      /\ GetNextSequenceNumber m' = s + 1)
  /\ (forall k v,
        GetNextSequenceNumber (Put k v (GetNextSequenceNumber m) m)
        = GetNextSequenceNumber m).
Proof.
  intros Hm Hno Hrange m'. unfold GetNextSequenceNumber, IsImmutable in *.
  destruct (mutate_all_counter ops m Hm Hno Hrange) as (H1 & H2 & H3).
  split; [exact H1|]. split; [exact H2|]. split; [exact H3|].
  intros k v. unfold memtable.Put, IsImmutable. rewrite Hm.
  rewrite nextSeqNum_insert_record. cbn [seqNum].
  destruct (nextSeqNum m >? nextSeqNum m) eqn:E; [lia | reflexivity].
Qed.

(** ** Insert and look up *)

Lemma has_key_same k x e :
  has_key k x = true -> has_key k e = true ->
  bytes_compare (data (key x)) (data (key e)) = Eq.
Proof.
  intros Hx He. rewrite (has_key_data _ _ Hx), (has_key_data _ _ He).
  apply bytes_compare_refl.
Qed.

(** A record that is newer than every record of its key is found
    first. *)
Lemma find_splice_fresh k e l :
  has_key k e = true ->
  (forall x, In x l -> has_key k x = true -> seqNum x < seqNum e) ->
  find (has_key k) (splice e l) = Some e.
Proof.
  intros He. induction l as [|x l IH]; intros Hnew; cbn [splice].
  - cbn [find]. rewrite He. reflexivity.
  - destruct (compareWithEntry x e) eqn:E;
      try (cbn [find]; rewrite He; reflexivity).
    cbn [find]. destruct (has_key k x) eqn:Hx.
    + exfalso. specialize (Hnew x (or_introl eq_refl) Hx).
      unfold compareWithEntry in E. rewrite (has_key_same _ _ _ Hx He) in E.
      rewrite Z.compare_lt_iff in E. lia.
    + apply IH. intros y Hy. apply Hnew. right. exact Hy.
Qed.

(** A record of another key does not change what is found. *)
Lemma find_splice_other k e l :
  has_key k e = false ->
  find (has_key k) (splice e l) = find (has_key k) l.
Proof.
  intros He. induction l as [|x l IH]; cbn [splice].
  - cbn [find]. rewrite He. reflexivity.
  - destruct (compareWithEntry x e);
      try (cbn [find]; rewrite He; reflexivity).
    cbn [find]. rewrite IH. reflexivity.
Qed.

(** A record older than the newest of its key does not change what is
    found. *)
Lemma find_splice_stale k e l x :
  StronglySorted le_entry l ->
  has_key k e = true ->
  find (has_key k) l = Some x -> seqNum e < seqNum x ->
  find (has_key k) (splice e l) = Some x.
Proof.
  intros Hs He. induction l as [|y l IH]; cbn [find]; [discriminate|].
  inversion Hs as [|? ? Hl Hy]; subst.
  destruct (has_key k y) eqn:Ky.
  - intros H Hlt. inversion H; subst y. cbn [splice].
    assert (E : compareWithEntry x e = Lt).
    { unfold compareWithEntry. rewrite (has_key_same _ _ _ Ky He).
      rewrite Z.compare_lt_iff. exact Hlt. }
    rewrite E. cbn [find]. rewrite Ky. reflexivity.
  - intros H Hlt. cbn [splice].
    destruct (compareWithEntry y e) eqn:E.
    + exfalso. unfold compareWithEntry in E.
      destruct (bytes_compare (data (key y)) (data (key e))) eqn:Eb; try discriminate.
      unfold has_key in Ky. rewrite <- (has_key_data _ _ He), Eb in Ky. discriminate.
    + cbn [find]. rewrite Ky. apply IH; assumption.
    + exfalso.
      destruct (find_some _ _ H) as [Hin Kx].
      rewrite Forall_forall in Hy. specialize (Hy x Hin).
      unfold le_entry, compareWithEntry in Hy, E.
      rewrite (has_key_data _ _ Kx) in Hy. rewrite (has_key_data _ _ He) in E.
      unfold has_key in Ky.
      destruct (bytes_compare (data (key y)) (data k)); congruence.
Qed.

Lemma sorted_from_new ops :
  StronglySorted le_entry (nodes (skipList (mutate_all ops NewMemTable))).
Proof. apply mutate_all_sorted. constructor. Qed.

(** X18. Insert and look up. On a mutable memtable built from a new one
    by any mutations: a [Put] under a sequence number above those of all
    records of its key makes [Get] return the value put, and such a
    [Delete] makes [Get] return [(nil, true)], while [Contains] says true
    for the deleted key; a [Put] or [Delete] under a sequence number
    below that of the record [Find] returns for the key changes nothing
    [Get] returns for it; and neither changes what [Get] returns for a
    key of other bytes. *)
Theorem memtable_last_write_wins (ops : list Mutation) (k : slice) (seq : Z) :
  let m := mutate_all ops NewMemTable in
  IsImmutable m = false ->
  ((forall x, In x (nodes (skipList m)) -> has_key k x = true -> seqNum x < seq) ->
   (forall v, Get k (Put k v seq m) = (v, true))
   /\ Get k (Delete k seq m) = (None, true)
   /\ Contains k (Delete k seq m) = true)
  /\ (forall x, Find k (skipList m) = Some x -> seq < seqNum x ->
      (forall v, Get k (Put k v seq m) = Get k m)
      /\ Get k (Delete k seq m) = Get k m)
  /\ (forall k', bytes_compare (data k) (data k') <> Eq ->
      (forall v, Get k' (Put k v seq m) = Get k' m)
      /\ Get k' (Delete k seq m) = Get k' m).
Proof.
  intros m Hm. unfold IsImmutable in Hm.
  pose proof (sorted_from_new ops) as Hsorted. fold m in Hsorted.
  assert (Hk : forall v t, has_key k (newEntry k v t seq) = true).
  { intros v t. unfold has_key. cbn. rewrite bytes_compare_refl. reflexivity. }
  assert (Hput : forall v, nodes (skipList (Put k v seq m))
                           = splice (newEntry k v TypeValue seq) (nodes (skipList m))).
  { intros v. unfold memtable.Put, IsImmutable. rewrite Hm. apply nodes_insert_record. }
  assert (Hdel : nodes (skipList (Delete k seq m))
                 = splice (newEntry k None TypeDeletion seq) (nodes (skipList m))).
  { unfold memtable.Delete, IsImmutable. rewrite Hm. apply nodes_insert_record. }
  split; [|split].
  - intros Hnew. split; [|split].
    + intros v. unfold Get, Find. rewrite Hput.
      rewrite (find_splice_fresh k _ _ (Hk v TypeValue)); [reflexivity|].
      intros x Hx Kx. cbn. apply Hnew; assumption.
    + unfold Get, Find. rewrite Hdel.
      rewrite (find_splice_fresh k _ _ (Hk None TypeDeletion)); [reflexivity|].
      intros x Hx Kx. cbn. apply Hnew; assumption.
    + unfold Contains, Find. rewrite Hdel.
      rewrite (find_splice_fresh k _ _ (Hk None TypeDeletion)); [reflexivity|].
      intros x Hx Kx. cbn. apply Hnew; assumption.
  - intros x Hx Hlt. unfold Find in Hx. split.
    + intros v. unfold Get, Find. rewrite Hput, Hx.
      rewrite (find_splice_stale k _ _ x Hsorted (Hk v TypeValue) Hx);
        [reflexivity | exact Hlt].
    + unfold Get, Find. rewrite Hdel, Hx.
      rewrite (find_splice_stale k _ _ x Hsorted (Hk None TypeDeletion) Hx);
        [reflexivity | exact Hlt].
  - intros k' Hne.
    assert (Hk' : forall v t, has_key k' (newEntry k v t seq) = false).
    { intros v t. unfold has_key. cbn.
      destruct (bytes_compare (data k) (data k')); congruence. }
    split.
    + intros v. unfold Get, Find. rewrite Hput, find_splice_other; [reflexivity|].
      apply Hk'.
    + unfold Get, Find. rewrite Hdel, find_splice_other; [reflexivity|]. apply Hk'.
Qed.

(** ** Entries the memtable does not take *)


(** ** The memtables recovery returns *)

Lemma ProcessWALEntry_mutable e m :
  immutable m = false -> immutable (ProcessWALEntry e m) = false.
Proof.
  intros Hm. apply (mutate_mutable (MProcessWALEntry e) m Hm). discriminate.
Qed.

(** The shape of the list of memtables during replay. *)
Lemma entryHandler_shape opts e earlier current maxSeqNum mts' maxSeqNum' r :
  immutable current = false ->
  Forall (fun m => IsImmutable m = true /\ MemTableSize opts <= ApproximateSize m) earlier ->
  Z.of_nat (length (earlier ++ [current])) <= Z.max 1 (MaxMemTables opts) ->
  entryHandler opts e (earlier ++ [current], maxSeqNum) = ((mts', maxSeqNum'), r) ->
  exists earlier' current',
    mts' = earlier' ++ [current']
    /\ immutable current' = false
    /\ Forall (fun m => IsImmutable m = true /\ MemTableSize opts <= ApproximateSize m)
              earlier'
    /\ Z.of_nat (length (earlier' ++ [current'])) <= Z.max 1 (MaxMemTables opts).
Proof.
  intros Hc Hall Hlen. rewrite entryHandler_cases.
  destruct (SequenceNumber e >? MaxSequenceNumber opts).
  { intros H; inversion H; subst. exists earlier, current. auto. }
  destruct (ApproximateSize current >=? MemTableSize opts) eqn:E.
  - destruct (Z.of_nat (length (earlier ++ [current])) >=? MaxMemTables opts) eqn:E2;
      intros H; inversion H; subst.
    + exists earlier, current. auto.
    + exists (earlier ++ [SetImmutable current]), (ProcessWALEntry e NewMemTable).
      split; [rewrite <- app_assoc; reflexivity|].
      split; [apply ProcessWALEntry_mutable; reflexivity|].
      split.
      * apply Forall_app. split; [exact Hall|].
        constructor; [|constructor]. split; [reflexivity|].
        unfold ApproximateSize, SkipList_ApproximateSize, SetImmutable in *.
        cbn [skipList] in *. lia.
      * rewrite Z.geb_leb in E2. apply Z.leb_gt in E2.
        rewrite !length_app in *. cbn [length] in *. lia.
  - intros H; inversion H; subst.
    exists earlier, (ProcessWALEntry e current).
    split; [reflexivity|]. split; [apply ProcessWALEntry_mutable, Hc|].
    split; [exact Hall|]. rewrite !length_app in *. cbn [length] in *. lia.
Qed.

Lemma replay_shape opts entries : forall earlier current maxSeqNum mts' maxSeqNum' r,
  immutable current = false ->
  Forall (fun m => IsImmutable m = true /\ MemTableSize opts <= ApproximateSize m) earlier ->
  Z.of_nat (length (earlier ++ [current])) <= Z.max 1 (MaxMemTables opts) ->
  replay_entries (entryHandler opts) entries (earlier ++ [current], maxSeqNum)
  = ((mts', maxSeqNum'), r) ->
  exists earlier' current',
    mts' = earlier' ++ [current']
    /\ immutable current' = false
    /\ Forall (fun m => IsImmutable m = true /\ MemTableSize opts <= ApproximateSize m)
              earlier'
    /\ Z.of_nat (length (earlier' ++ [current'])) <= Z.max 1 (MaxMemTables opts).
Proof.
  induction entries as [|e entries IH];
    intros earlier current maxSeqNum mts' maxSeqNum' r Hc Hall Hlen;
    cbn [replay_entries].
  - intros H; inversion H; subst. exists earlier, current. auto.
  - destruct (entryHandler opts e (earlier ++ [current], maxSeqNum))
      as [[mts1 max1] [err|]] eqn:Hh.
    + intros H; inversion H; subst.
      eapply entryHandler_shape; eauto.
    + destruct (entryHandler_shape _ _ _ _ _ _ _ _ Hc Hall Hlen Hh)
        as (earlier1 & current1 & -> & Hc1 & Hall1 & Hlen1).
      apply IH; assumption.
Qed.

(** X20. The memtables recovery returns. When [RecoverFromWAL] succeeds,
    the list it returns is not empty; its last memtable is mutable and
    every one before it is immutable and holds at least [MemTableSize]
    bytes by its own count; and there are at most [MaxMemTables] of them,
    or one when [MaxMemTables] is below one. The options are the ones
    passed, or for nil the defaults taken from the configuration. *)
Theorem recovered_memtables_shape (cfg : Config) (opts : option RecoveryOptions)
        (dir : list (list byte)) (memTables : list MemTable) (maxSeqNum : Z) :
  RecoverFromWAL cfg opts dir = Ok (memTables, maxSeqNum) ->
  let o := effective_options cfg opts in
  exists earlier current,
    memTables = earlier ++ [current]
    /\ IsImmutable current = false
    /\ Forall (fun m => IsImmutable m = true /\ MemTableSize o <= ApproximateSize m) earlier
    /\ Z.of_nat (length memTables) <= Z.max 1 (MaxMemTables o).
Proof.
  unfold memtable.RecoverFromWAL, ReplayWALDir. cbv zeta.
  fold (effective_options cfg opts).
  destruct (replay_entries _ _ _) as [[mts n] [err|]] eqn:Hr; [discriminate|].
  intros H. inversion H; subst mts n. clear H.
  change ([NewMemTable]) with ([] ++ [NewMemTable]) in Hr.
  apply replay_shape in Hr.
  - destruct Hr as (earlier & current & -> & Hc & Hall & Hlen).
    exists earlier, current. auto.
  - reflexivity.
  - constructor.
  - cbn. lia.
Qed.

(** ** Recovery of a closed log *)

Lemma fits_write_supplies x : fits_write x -> supplies_uint64 x.
Proof. destruct x; cbn; tauto. Qed.

Lemma fold_max_below l : forall a n,
  a < n -> Forall (fun s => s < n) l -> fold_left Z.max l a < n.
Proof.
  induction l as [|s l IH]; intros a n Ha Hall; cbn [fold_left]; [exact Ha|].
  inversion Hall; subst. apply IH; [lia | assumption].
Qed.

Lemma map_SequenceNumber_logical (l l' : list Entry) :
  map logical l = map logical l' -> map SequenceNumber l = map SequenceNumber l'.
Proof.
  intros H.
  assert (Hm : forall l0 : list Entry,
             map SequenceNumber l0 = map (fun t => snd (fst (fst t))) (map logical l0)).
  { intros l0. rewrite map_map. reflexivity. }
  rewrite !Hm, H. reflexivity.
Qed.


End MemTableMore.

Lemma memtable_counter_bounds_witness :
  let size_of := fun e : entry => len (key e) + len (value e) + 16 in
  let k := Some [Byte.x6b] in
  let ops := [MPut k (Some [Byte.x76]) 5; MDelete k 6; MPut k (Some [Byte.x77]) 2] in
  GetNextSequenceNumber (mutate_all size_of ops NewMemTable) = 6
  /\ forall op s, In op ops -> applied_seq op = Some s ->
       s <= GetNextSequenceNumber (mutate_all size_of ops NewMemTable).
Proof.
  intros size_of k ops. split; [reflexivity|].
  apply (memtable_counter_bounds size_of ops NewMemTable).
  - reflexivity.
  - intros [H | [H | [H | []]]]; discriminate.
  - intros op s [<- | [<- | [<- | []]]] Hs; inversion Hs; subst; unfold MaxUint64; lia.
Defined.

Lemma memtable_last_write_wins_witness :
  let size_of := fun e : entry => len (key e) + len (value e) + 16 in
  let k := Some [Byte.x6b] in
  let ops := [MPut k (Some [Byte.x76]) 5] in
  Get k (Put size_of k (Some [Byte.x77]) 9 (mutate_all size_of ops NewMemTable))
  = (Some [Byte.x77], true)
  /\ Get k (Put size_of k (Some [Byte.x77]) 3 (mutate_all size_of ops NewMemTable))
     = (Some [Byte.x76], true).
Proof.
  intros size_of k ops.
  assert (Hm : IsImmutable (mutate_all size_of ops NewMemTable) = false) by reflexivity.
  split.
  - destruct (memtable_last_write_wins size_of ops k 9 Hm) as (Hfresh & _ & _).
    apply Hfresh.
    intros x [<- | []] _. cbn. lia.
  - destruct (memtable_last_write_wins size_of ops k 3 Hm) as (_ & Hstale & _).
    destruct (Hstale (newEntry k (Some [Byte.x76]) TypeValue 5)) as [Hput _].
    + reflexivity.
    + cbn. lia.
    + rewrite Hput. reflexivity.
Defined.


Lemma recovered_memtables_shape_witness :
  let size_of := fun e : entry => len (key e) + len (value e) + 16 in
  let cfg := mkConfig SyncNone 0 30 2 in
  let k := Some [Byte.x6b] in
  let v := Some [Byte.x76] in
  let xs := [WAppend OpTypePut k v; WAppend OpTypePut k v; WAppend OpTypeDelete k None] in
  exists memTables maxSeqNum earlier current,
    RecoverFromWAL size_of cfg None
      [fdata (file (fst (Close (match write_all xs (NewWAL cfg []) with
                                | Some (w, _) => w
                                | None => NewWAL cfg []
                                end))))]
    = Ok (memTables, maxSeqNum)
    /\ memTables = earlier ++ [current]
    /\ IsImmutable current = false
    /\ length memTables = 2%nat.
Proof.
  intros size_of cfg k v xs.
  set (dir := [fdata (file (fst (Close (match write_all xs (NewWAL cfg []) with
                                        | Some (w, _) => w
                                        | None => NewWAL cfg []
                                        end))))]).
  pose (rec := RecoverFromWAL size_of cfg None dir).
  pose (memTables := match rec with Ok (mts, _) => mts | Err _ => [] end).
  pose (maxSeqNum := match rec with Ok (_, n) => n | Err _ => 0 end).
  assert (Hr : RecoverFromWAL size_of cfg None dir = Ok (memTables, maxSeqNum))
    by (vm_compute; reflexivity).
  assert (Hlen : length memTables = 2%nat) by (vm_compute; reflexivity).
  clearbody maxSeqNum memTables. clear rec.
  destruct (recovered_memtables_shape size_of cfg None dir memTables maxSeqNum Hr)
    as (earlier & current & Hm & Hc & _).
  exists memTables, maxSeqNum, earlier, current. auto.
Defined.


(* ================================================================== *)
(** * From the log to the memtable *)

Section RecoveryMore.

Variable entry_size : entry -> Z.

#[local] Abbreviation Put := (Put entry_size).
#[local] Abbreviation Delete := (Delete entry_size).
#[local] Abbreviation ProcessWALEntry := (ProcessWALEntry entry_size).
#[local] Abbreviation entryHandler := (entryHandler entry_size).
#[local] Abbreviation RecoverFromWAL := (RecoverFromWAL entry_size).

Lemma write_all_snoc xs x : forall w w' es,
  write_all (xs ++ [x]) w = Some (w', es) ->
  exists w1 es1 seq,
    write_all xs w = Some (w1, es1)
    /\ do_write x w1 = (w', Ok seq)
    /\ es = es1 ++ written x seq.
Proof.
  induction xs as [|y xs IH]; intros w w' es; cbn [app write_all].
  - destruct (do_write x w) as [w1 [seq|e]] eqn:Hd; [|discriminate].
    intros H. inversion H; subst. exists w, [], seq.
    rewrite app_nil_r. auto.
  - destruct (do_write y w) as [w1 [seq|e]] eqn:Hd; [|discriminate].
    destruct (write_all (xs ++ [x]) w1) as [[w2 es2]|] eqn:Hw; [|discriminate].
    intros H. inversion H; subst w2 es. clear H.
    destruct (IH _ _ _ Hw) as (w3 & es3 & seq3 & Hw3 & Hd3 & ->).
    rewrite Hw3. exists w3, (written y seq ++ es3), seq3.
    rewrite app_assoc. auto.
Qed.

(** Every record of every memtable has a sequence number below [s]. *)
Lemma ProcessWALEntry_below s e m :
  SequenceNumber e < s ->
  Forall (fun x => seqNum x < s) (nodes (skipList m)) ->
  Forall (fun x => seqNum x < s) (nodes (skipList (ProcessWALEntry e m))).
Proof.
  intros He Hm.
  unfold memtable.ProcessWALEntry, memtable.Put, memtable.Delete.
  destruct (Byte.eqb (Type_ e) OpTypePut).
  - destruct (IsImmutable m); [exact Hm|].
    rewrite nodes_insert_record. apply Forall_splice; [exact He | exact Hm].
  - destruct (Byte.eqb (Type_ e) OpTypeDelete); [|exact Hm].
    destruct (IsImmutable m); [exact Hm|].
    rewrite nodes_insert_record. apply Forall_splice; [exact He | exact Hm].
Qed.

Lemma replay_below s opts entries : forall earlier current maxSeqNum mts' maxSeqNum' r,
  Forall (fun e => SequenceNumber e < s) entries ->
  immutable current = false ->
  Forall (fun x => seqNum x < s) (nodes (skipList current)) ->
  replay_entries (entryHandler opts) entries (earlier ++ [current], maxSeqNum)
  = ((mts', maxSeqNum'), r) ->
  exists earlier' current',
    mts' = earlier' ++ [current']
    /\ immutable current' = false
    /\ Forall (fun x => seqNum x < s) (nodes (skipList current')).
Proof.
  induction entries as [|e entries IH];
    intros earlier current maxSeqNum mts' maxSeqNum' r Hall Hc Hb;
    cbn [replay_entries].
  - intros H; inversion H; subst. exists earlier, current. auto.
  - inversion Hall as [|? ? He Hes]; subst.
    rewrite entryHandler_cases.
    destruct (SequenceNumber e >? MaxSequenceNumber opts).
    { apply IH; assumption. }
    destruct (ApproximateSize current >=? MemTableSize opts).
    + destruct (Z.of_nat (length (earlier ++ [current])) >=? MaxMemTables opts).
      * intros H; inversion H; subst. exists earlier, current. auto.
      * change (earlier ++ [SetImmutable current; ProcessWALEntry e NewMemTable])
          with (earlier ++ [SetImmutable current] ++ [ProcessWALEntry e NewMemTable]).
        rewrite app_assoc. apply IH.
        -- exact Hes.
        -- apply ProcessWALEntry_mutable. reflexivity.
        -- apply ProcessWALEntry_below; [exact He | constructor].
    + apply IH.
      * exact Hes.
      * apply ProcessWALEntry_mutable, Hc.
      * apply ProcessWALEntry_below; assumption.
Qed.

Lemma replay_entries_app {S} (handler : Entry -> S -> S * option error) es1 es2 :
  forall s,
    replay_entries handler (es1 ++ es2) s
    = match replay_entries handler es1 s with
      | (s1, None) => replay_entries handler es2 s1
      | (s1, Some err) => (s1, Some err)
      end.
Proof.
  induction es1 as [|e es1 IH]; intros s; cbn [app replay_entries]; [reflexivity|].
  destruct (handler e s) as [s1 [err|]]; [reflexivity|]. apply IH.
Qed.

Lemma map_logical_snoc (l : list Entry) es e :
  map logical l = map logical (es ++ [e]) ->
  exists l0 e0, l = l0 ++ [e0] /\ map logical l0 = map logical es
                /\ logical e0 = logical e.
Proof.
  intros H.
  destruct (exists_last (l := l)) as (l0 & e0 & ->).
  { intros ->. rewrite map_app in H. cbn in H.
    destruct (map logical es); discriminate. }
  rewrite !map_app in H. cbn [map] in H.
  apply app_inj_tail in H. destruct H as [H1 H2].
  exists l0, e0. auto.
Qed.

(** The record a replayed Put or Delete entry leaves in a mutable
    memtable is what [Get] finds when it is newer than the rest. *)
Lemma Get_after_ProcessWALEntry e m k :
  immutable m = false ->
  data (Key e) = data k ->
  Forall (fun x => seqNum x < SequenceNumber e) (nodes (skipList m)) ->
  (Type_ e = OpTypePut -> Get k (ProcessWALEntry e m) = (Value e, true))
  /\ (Type_ e = OpTypeDelete -> Get k (ProcessWALEntry e m) = (None, true)).
Proof.
  intros Hm Hk Hb.
  assert (Hkey : forall v t, has_key k (newEntry (Key e) v t (SequenceNumber e)) = true).
  { intros v t. unfold has_key. cbn. rewrite Hk, bytes_compare_refl. reflexivity. }
  assert (Hnew : forall v t x, In x (nodes (skipList m)) -> has_key k x = true ->
                               seqNum x < seqNum (newEntry (Key e) v t (SequenceNumber e))).
  { intros v t x Hx _. rewrite Forall_forall in Hb. cbn. apply Hb, Hx. }
  split; intros Ht; unfold memtable.ProcessWALEntry; rewrite Ht.
  - cbn [Byte.eqb]. change (Byte.eqb OpTypePut OpTypePut) with true. cbv iota.
    unfold memtable.Put, IsImmutable. rewrite Hm.
    unfold Get, Find. rewrite nodes_insert_record.
    rewrite (find_splice_fresh k _ _ (Hkey (Value e) TypeValue) (Hnew _ _)).
    reflexivity.
  - change (Byte.eqb OpTypeDelete OpTypePut) with false.
    change (Byte.eqb OpTypeDelete OpTypeDelete) with true. cbv iota.
    unfold memtable.Delete, IsImmutable. rewrite Hm.
    unfold Get, Find. rewrite nodes_insert_record.
    rewrite (find_splice_fresh k _ _ (Hkey None TypeDeletion) (Hnew _ _)).
    reflexivity.
Qed.


End RecoveryMore.


(* ================================================================== *)
(** * Recovery up to a sequence number *)

Section RecoveryCut.

Variable entry_size : entry -> Z.

#[local] Abbreviation entryHandler := (entryHandler entry_size).
#[local] Abbreviation RecoverFromWAL := (RecoverFromWAL entry_size).

Lemma replay_skips opts entries : forall st,
  replay_entries (entryHandler opts) entries st
  = replay_entries (entryHandler opts)
      (filter (fun e => negb (SequenceNumber e >? MaxSequenceNumber opts)) entries) st.
Proof.
  induction entries as [|e entries IH]; intros st; cbn [filter replay_entries];
    [reflexivity|].
  destruct (SequenceNumber e >? MaxSequenceNumber opts) eqn:E; cbn [negb].
  - unfold memtable.entryHandler at 1. destruct st as [mts n]. rewrite E. apply IH.
  - cbn [replay_entries].
    destruct (entryHandler opts e st) as [st1 [err|]]; [reflexivity | apply IH].
Qed.

(** X26. Recovery up to a sequence number. The entries recovery skips
    leave no trace: with a [MaxSequenceNumber] in the options, recovery
    returns for a log exactly what it returns for the same log without
    the entries above that number: the same memtables, the same
    [maxSeqNum], or the same error. So two logs that agree on the
    entries up to [MaxSequenceNumber] recover to the same state. *)
Theorem recovery_ignores_entries_above_the_cut (cfg : Config) (opts : RecoveryOptions)
        (dir dir' : list (list byte)) :
  let kept := fun d =>
    filter (fun e => negb (SequenceNumber e >? MaxSequenceNumber opts))
           (concat (map segment_entries d)) in
  ReplayWALDir dir (entryHandler opts) ([NewMemTable], 0)
  = replay_entries (entryHandler opts) (kept dir) ([NewMemTable], 0)
  /\ (kept dir = kept dir' ->
      RecoverFromWAL cfg (Some opts) dir = RecoverFromWAL cfg (Some opts) dir').
Proof.
  intros kept. split.
  - unfold ReplayWALDir. apply replay_skips.
  - intros Hk. unfold memtable.RecoverFromWAL, ReplayWALDir. cbv zeta.
    rewrite (replay_skips opts (concat (map segment_entries dir))).
    rewrite (replay_skips opts (concat (map segment_entries dir'))).
    fold (kept dir). fold (kept dir'). rewrite Hk. reflexivity.
Qed.

End RecoveryCut.

Lemma recovery_ignores_entries_above_the_cut_witness :
  let size_of := fun e : entry => len (key e) + len (value e) + 16 in
  let cfg := mkConfig SyncNone 0 1048576 4 in
  let opts := mkRecoveryOptions 2 4 1048576 in
  let k := Some [Byte.x6b] in
  let log := fun xs =>
    fdata (file (fst (Close (match write_all xs (NewWAL cfg []) with
                             | Some (w, _) => w
                             | None => NewWAL cfg []
                             end)))) in
  let short := [WAppend OpTypePut k (Some [Byte.x76]); WAppend OpTypeDelete k None] in
  let long := short ++ [WAppend OpTypePut k (Some [Byte.x77])] in
  RecoverFromWAL size_of cfg (Some opts) [log long]
  = RecoverFromWAL size_of cfg (Some opts) [log short].
Proof.
  intros size_of cfg opts k log short long.
  apply (recovery_ignores_entries_above_the_cut size_of cfg opts [log long] [log short]).
  vm_compute. reflexivity.
Defined.
